(** * StoryTeller: a shallow embedding of the orchestration core

    The development follows [main.py]: the sliding-window [RateLimiter],
    the retry-once discipline around [requests.post], the usage ledger of
    [make_api_call], the line parser [parse_story_into_segments] and the
    name-to-voice resolver [map_character_name_to_voice].

    Conventions of the embedding.
    - A Python [str] is a [string] whose characters are read as code points
      below 256 (ASCII and Latin-1).
    - A Python [float] holding money or a voice parameter is a primitive
      binary64 [float]; Python [int]s are [Z].
    - Wall-clock readings ([time.time()]) and the durations computed
      from them are exact rationals, where the code has binary64: what is
      proved about the limiter concerns which timestamps it stores, how
      many, and in what order, never a bound that is exact in
      [60 / limit].  The clock moves only when the program sleeps or when
      the caller lets time pass.
    - A decoded JSON body is typed after the keys the code reads; where
      the code can meet a value of another JSON type and behave
      differently, the type has a constructor for it.
    - Objects mutated in place ([self.…] attributes) live in an explicit
      state record that every operation threads; Python exceptions are the
      [Raise] results of a small state-and-exception monad.
    - Console output ([print]) is not modelled. *)

From Stdlib Require Import ZArith QArith Lqa Lia Floats Uint63 Bool Ascii String Sorted.
From stdpp Require Import base option list gmap strings pretty.

Local Open Scope Z_scope.
Local Open Scope string_scope.

(** ** Python string operations used by the source *)

Module Py.

Definition ord (c : ascii) : N := N_of_ascii c.

(** [str.isspace] on one character, for code points below 256. *)
Definition isspace (c : ascii) : bool :=
  let n := ord c in
  ((9 <=? n) && (n <=? 13) || (28 <=? n) && (n <=? 32)
   || (n =? 133) || (n =? 160))%N.

(** [str.lower] on one character, for code points below 256. *)
Definition lower_chr (c : ascii) : ascii :=
  let n := ord c in
  if ((65 <=? n) && (n <=? 90)
      || (192 <=? n) && (n <=? 222) && negb (n =? 215))%N
  then ascii_of_N (n + 32) else c.

Fixpoint lower (s : string) : string :=
  match s with
  | EmptyString => EmptyString
  | String c r => String (lower_chr c) (lower r)
  end.

Definition is_empty (s : string) : bool :=
  match s with EmptyString => true | _ => false end.

Fixpoint lstrip (s : string) : string :=
  match s with
  | EmptyString => EmptyString
  | String c r => if isspace c then lstrip r else s
  end.

Fixpoint rstrip (s : string) : string :=
  match s with
  | EmptyString => EmptyString
  | String c r =>
      let r' := rstrip r in
      if isspace c && is_empty r' then EmptyString else String c r'
  end.

(** [s.strip()] *)
Definition strip (s : string) : string := rstrip (lstrip s).

Definition chr_eqb (a b : ascii) : bool := bool_decide (a = b).

(** [sep in s] for a one-character [sep]. *)
Fixpoint contains_chr (sep : ascii) (s : string) : bool :=
  match s with
  | EmptyString => false
  | String c r => chr_eqb c sep || contains_chr sep r
  end.

(** [s.split(sep)] for a one-character [sep]: never the empty list. *)
Fixpoint split (sep : ascii) (s : string) : list string :=
  match s with
  | EmptyString => [EmptyString]
  | String c r =>
      if chr_eqb c sep then EmptyString :: split sep r
      else match split sep r with
           | h :: t => String c h :: t
           | [] => [String c EmptyString]
           end
  end.

(** [s.split(sep, 1)]: cut at the first [sep] only. *)
Fixpoint split1 (sep : ascii) (s : string) : list string :=
  match s with
  | EmptyString => [EmptyString]
  | String c r =>
      if chr_eqb c sep then [EmptyString; r]
      else match split1 sep r with
           | h :: t => String c h :: t
           | [] => [String c EmptyString]
           end
  end.

Fixpoint startswith (p s : string) : bool :=
  match p, s with
  | EmptyString, _ => true
  | String a p', String b s' => chr_eqb a b && startswith p' s'
  | String _ _, EmptyString => false
  end.

(** [p in s] for strings. *)
Fixpoint contains (p s : string) : bool :=
  startswith p s ||
  match s with
  | EmptyString => false
  | String _ r => contains p r
  end.

(** [s.find(p)]: the least index where [p] occurs, [-1] when it does
    not. *)
Fixpoint find (p s : string) : Z :=
  if startswith p s then 0%Z
  else match s with
       | EmptyString => (-1)%Z
       | String _ r =>
           let i := find p r in if (i <? 0)%Z then (-1)%Z else (i + 1)%Z
       end.

(** [s[i:]] for [0 <= i]. *)
Fixpoint drop (n : nat) (s : string) : string :=
  match n, s with
  | O, _ => s
  | S n', String _ r => drop n' r
  | S _, EmptyString => EmptyString
  end.

Fixpoint last_chr (s : string) : option ascii :=
  match s with
  | EmptyString => None
  | String c EmptyString => Some c
  | String _ r => last_chr r
  end.

(** [s.endswith(t)] for a tuple [t] of one-character strings. *)
Definition endswith_any (cs : list ascii) (s : string) : bool :=
  match last_chr s with
  | Some c => existsb (chr_eqb c) cs
  | None => false
  end.

(** [any(p in s for p in ps)] *)
Definition any_in (ps : list string) (s : string) : bool :=
  existsb (fun p => contains p s) ps.

(** [x in xs] for a list of strings. *)
Definition str_in (x : string) (xs : list string) : bool :=
  existsb (String.eqb x) xs.

(** [float(n)] for an [int] of magnitude below [2^63]. *)
Definition float_of_int (z : Z) : float :=
  if (z <? 0)%Z then PrimFloat.opp (of_uint63 (Uint63.of_Z (- z)))
  else of_uint63 (Uint63.of_Z z).

(** [a / b] on two [int]s (true division); for operands of magnitude
    below [2^53] Python's correctly rounded quotient is the binary64
    quotient of the converted operands. *)
Definition truediv (a b : Z) : float :=
  PrimFloat.div (float_of_int a) (float_of_int b).

(** [int(x)] of a clock reading: truncation toward zero. *)
Definition int_of_Q (x : Q) : Z := Z.quot (Qnum x) (Zpos (Qden x)).

Definition hex_digit (c : ascii) : option N :=
  let n := ord c in
  if ((48 <=? n) && (n <=? 57))%N then Some (n - 48)%N
  else if ((97 <=? n) && (n <=? 102))%N then Some (n - 87)%N
  else if ((65 <=? n) && (n <=? 70))%N then Some (n - 55)%N
  else None.

Definition is_ascii_space (c : ascii) : bool :=
  let n := ord c in ((9 <=? n) && (n <=? 13) || (n =? 32))%N.

(** [bytes.fromhex(s)]: pairs of hexadecimal digits, ASCII whitespace
    allowed between the pairs; [None] stands for the [ValueError]. *)
Fixpoint fromhex (s : string) : option (list N) :=
  match s with
  | EmptyString => Some []
  | String c r =>
      if is_ascii_space c then fromhex r
      else match hex_digit c, r with
           | Some h, String c' r' =>
               match hex_digit c', fromhex r' with
               | Some l, Some bs => Some ((16 * h + l)%N :: bs)
               | _, _ => None
               end
           | _, _ => None
           end
  end.

End Py.

(** ** Exceptions and the state-and-exception monad *)

Inductive Exn : Type :=
| ConnectionError                 (* requests.post could not reach the service *)
| HTTPError (status : Z)          (* response.raise_for_status() *)
| JSONDecodeError                 (* response.json() / json.loads *)
| ValueError (msg : string)
| KeyError (key : string)
| AttributeError (attr : string)
| TypeError (msg : string)       (* the fixed part of the message *)
| OverflowError (msg : string)
| OSError (path : string)         (* FileNotFoundError, PermissionError, ... *)
| PyException (msg : string).     (* raise Exception(msg) *)

(** [isinstance(e, requests.exceptions.RequestException)] *)
Definition is_request_exception (e : Exn) : bool :=
  match e with
  | ConnectionError | HTTPError _ | JSONDecodeError => true
  | _ => false
  end.

(** [int(x)] on a float: a NaN raises [ValueError], an infinity
    [OverflowError]. *)
Definition int_error (x : float) : option Exn :=
  if PrimFloat.is_nan x
  then Some (ValueError "cannot convert float NaN to integer")
  else if PrimFloat.is_infinity x
       then Some (OverflowError "cannot convert float infinity to integer")
       else None.

Inductive Res (A : Type) : Type :=
| Ok (a : A)
| Raise (e : Exn).
Arguments Ok {A} a.
Arguments Raise {A} e.

(** A computation over a mutable store [S]: the store survives an
    exception, as attribute updates do in Python. *)
Definition M (S A : Type) : Type := S -> Res A * S.

Definition ret {S A} (a : A) : M S A := fun s => (Ok a, s).

Definition bind {S A B} (m : M S A) (k : A -> M S B) : M S B :=
  fun s => match m s with
           | (Ok a, s') => k a s'
           | (Raise e, s') => (Raise e, s')
           end.

Definition raise {S A} (e : Exn) : M S A := fun s => (Raise e, s).

(** [try: m  except Exception as e: h e] *)
Definition try_except {S A} (m : M S A) (h : Exn -> M S A) : M S A :=
  fun s => match m s with
           | (Ok a, s') => (Ok a, s')
           | (Raise e, s') => h e s'
           end.

Definition get {S} : M S S := fun s => (Ok s, s).
Definition modify {S} (f : S -> S) : M S unit := fun s => (Ok tt, f s).

Notation "'let*' x ':=' m 'in' k" := (bind m (fun x => k))
  (at level 10, x pattern, m at level 100, k at level 200, only parsing).
Notation "m ';;' k" := (bind m (fun _ => k))
  (at level 100, k at level 200, right associativity, only parsing).

(** ** The services and the world around the program *)

Inductive Service : Type := Chat | Tts.

#[global] Instance Service_eq_dec : EqDecision Service.
Proof. solve_decision. Defined.

(** The structured result the name classifier is asked for; a key the
    service left out is [None].  The code only compares these values
    with strings and prints them: a value that is not a string stands
    here as its rendering by [str], which equals none of the strings it
    is compared with. *)
Record Payload : Type := mkPayload {
  p_gender : option string;
  p_age_group : option string;
  p_personality_trait : option string;
  p_voice_type : option string;
  p_confidence : option float;
}.

(** What [json.loads] can return: an object, or a value of another JSON
    type.  Of an array only the elements that are strings matter to the
    code (it tests [field in analysis]). *)
Inductive Decoded : Type :=
| DObject (p : Payload)
| DArray (strings : list string)
| DString (s : string)
| DScalar.                        (* a number, true, false or null *)

(** [choices[i].message].  [json.loads] is not re-implemented: a message
    carries, next to its [content], what [json.loads(content.strip())]
    gives on it ([None] when that raises [JSONDecodeError]). *)
Record Message : Type := mkMessage {
  content : option string;
  content_json : option Decoded;
  reasoning_content : option string;
}.

Record Choice : Type := mkChoice {
  message : option Message;
  finish_reason : option string;
}.

(** A token count of a usage block: a JSON number, which the service
    sends as an integer, or a value that is not a number (null, a
    string, an array, an object). *)
Inductive Count : Type :=
| CountInt (n : Z)
| CountOther.

(** A usage block that is an object; a key it does not have is [None]. *)
Record Usage : Type := mkUsage {
  prompt_tokens : option Count;
  completion_tokens : option Count;
  total_tokens : option Count;
}.

(** The value under ["usage"]: an object, or anything else. *)
Inductive UsageValue : Type :=
| UsageObject (g : Usage)
| UsageOther.

Record Data : Type := mkData { audio : option string }.

(** The decoded body of a response; every top-level key is optional. *)
Record Json : Type := mkJson {
  choices : option (list Choice);
  usage : option UsageValue;
  data : option Data;
}.

(** A response: its status code and its body ([None]: the body is not
    JSON, so [response.json()] raises). *)
Record Response : Type := mkResponse {
  status_code : Z;
  body : option Json;
}.

(** What one [requests.post] does: it raises, or it returns a response. *)
Inductive Outcome : Type :=
| ConnectionFails
| Responds (r : Response).

Inductive Event : Type :=
| EvSleep (seconds : Q)
| EvPost (svc : Service) (model : string).

(** The world: the clock, how much longer than asked each coming
    [time.sleep] lasts, what the coming posts will meet, the log of the
    sleeps and posts made so far, the files written, and what the file
    system will answer: whether each coming request for a directory
    finds or creates it ([mkdirs]) and whether each coming [open] for
    writing succeeds ([opens]); a list that has run out answers yes. *)
Record World : Type := mkWorld {
  clock : Q;
  lags : list Q;
  net : list Outcome;
  events : list Event;
  files : list (string * list N);
  mkdirs : list bool;
  opens : list bool;
}.

Definition log_event (e : Event) (w : World) : World :=
  mkWorld (clock w) (lags w) (net w) (events w ++ [e]) (files w)
          (mkdirs w) (opens w).

(** [time.sleep(d)]: at least [d] seconds pass.  Clock readings are kept
    in lowest terms. *)
Definition sleep (d : Q) (w : World) : World :=
  log_event (EvSleep d)
    (mkWorld (Qred (clock w + d + hd 0%Q (lags w))) (tl (lags w))
             (net w) (events w) (files w) (mkdirs w) (opens w)).

(** Time passing between two calls of the program. *)
Definition elapse (d : Q) (w : World) : World :=
  mkWorld (Qred (clock w + d)) (lags w) (net w) (events w) (files w)
          (mkdirs w) (opens w).

(** [requests.post(url, ...)]: the next outcome the network holds; a
    network with nothing left to say refuses the connection. *)
Definition post (svc : Service) (model : string) (w : World)
  : Outcome * World :=
  let w' := log_event (EvPost svc model) w in
  match net w with
  | [] => (ConnectionFails, w')
  | o :: rest =>
      (o, mkWorld (clock w') (lags w') rest (events w') (files w')
                  (mkdirs w') (opens w'))
  end.

Definition write_file (name : string) (bytes : list N) (w : World) : World :=
  mkWorld (clock w) (lags w) (net w) (events w) (files w ++ [(name, bytes)])
          (mkdirs w) (opens w).

(** The file system answers the next request for a directory. *)
Definition ask_mkdir (w : World) : bool * World :=
  (hd true (mkdirs w),
   mkWorld (clock w) (lags w) (net w) (events w) (files w)
           (tl (mkdirs w)) (opens w)).

(** The file system answers the next [open] for writing. *)
Definition ask_open (w : World) : bool * World :=
  (hd true (opens w),
   mkWorld (clock w) (lags w) (net w) (events w) (files w)
           (mkdirs w) (tl (opens w))).

Definition count_posts (es : list Event) : nat :=
  length (List.filter (fun e => match e with EvPost _ _ => true | _ => false end) es).

(** ** RateLimiter *)

Definition Qltb (a b : Q) : bool := negb (Qle_bool b a).

(** [min(l)]; [None] stands for the [ValueError] on an empty list. *)
Fixpoint Qmin_list (l : list Q) : option Q :=
  match l with
  | [] => None
  | x :: r => match Qmin_list r with
              | None => Some x
              | Some m => Some (if Qltb m x then m else x)
              end
  end.

Module RateLimiter.

Record t : Type := mk {
  requests_per_minute : Z;
  request_times : list Q;
  min_interval : Q;
}.

(** [RateLimiter(requests_per_minute)]; dividing by zero raises.  The
    interval is the exact quotient, where the code has the binary64
    [60.0 / requests_per_minute]. *)
Definition make (rpm : Z) : t :=
  mk rpm [] (60 / inject_Z rpm)%Q.

Definition init (rpm : Z) : option t :=
  if (rpm =? 0)%Z then None else Some (make rpm).

Definition set_times (r : t) (ts : list Q) : t :=
  mk (requests_per_minute r) ts (min_interval r).

(** [t for t in request_times if current_time - t < 60.0] *)
Definition prune (current_time : Q) (ts : list Q) : list Q :=
  List.filter (fun t => Qltb (current_time - t) 60) ts.

(** The tail of [wait_if_needed], from "Add current request" on. *)
Definition record_and_space (current_time : Q) : M (t * World) unit :=
  fun '(r, w) =>
    let r := set_times r (request_times r ++ [current_time]) in
    if (1 <? Z.of_nat (length (request_times r)))%Z then
      match rev (request_times r) !! 1%nat with
      | Some before_last =>
          let time_since_last := (current_time - before_last)%Q in
          if Qltb time_since_last (min_interval r) then
            let wait_time := (min_interval r - time_since_last)%Q in
            (Ok tt, (r, sleep wait_time w))
          else (Ok tt, (r, w))
      | None => (Ok tt, (r, w))
      end
    else (Ok tt, (r, w)).

Definition wait_if_needed : M (t * World) unit :=
  fun '(r, w) =>
    let current_time := clock w in
    let r := set_times r (prune current_time (request_times r)) in
    if (Z.of_nat (length (request_times r)) >=? requests_per_minute r)%Z
    then
      match Qmin_list (request_times r) with
      | None => (Raise (ValueError "min() arg is an empty sequence"), (r, w))
      | Some oldest_request =>
          let wait_time := (60 - (current_time - oldest_request) + 1)%Q in
          if Qltb 0 wait_time then
            let w := sleep wait_time w in
            record_and_space (clock w) (r, w)
          else record_and_space current_time (r, w)
      end
    else record_and_space current_time (r, w).

End RateLimiter.

(** A client of one limiter: it acquires, or lets time pass. *)
Inductive LimiterStep : Type :=
| Acquire
| Idle (seconds : Q).

Definition limiter_step (s : LimiterStep) (st : RateLimiter.t * World)
  : RateLimiter.t * World :=
  match s with
  | Acquire => snd (RateLimiter.wait_if_needed st)
  | Idle d => (fst st, elapse d (snd st))
  end.

Definition limiter_run (ss : list LimiterStep) (st : RateLimiter.t * World)
  : RateLimiter.t * World :=
  fold_left (fun st s => limiter_step s st) ss st.

Definition quiet_world (now : Q) : World := mkWorld now [] [] [] [] [] [].


(** ** The data model of [main.py] *)

Record Character : Type := mkCharacter {
  name : string;
  description : string;
  voice_id : string;
  speed : float;
  volume : float;
  pitch : float;
  emotion : string;
}.

Record StorySegment : Type := mkStorySegment {
  character : option Character;
  text : string;
  audio_file : option string;
}.

(** The result of a name analysis, every required field present. *)
Record Analysis : Type := mkAnalysis {
  gender : string;
  age_group : string;
  personality_trait : string;
  voice_type : string;
  confidence : float;
}.

(** What [analyze_character_name_with_ai] hands back and caches: a
    dictionary, or the decoded value of another JSON type that passed
    the test of the required fields. *)
Inductive AnalysisValue : Type :=
| AnObject (a : Analysis)
| NotAnObject (v : Decoded).

(** [self.api_usage_stats] *)
Record UsageStats : Type := mkUsageStats {
  total_calls : Z;
  stats_total_tokens : Z;
  estimated_cost : float;
  calls_by_model : gmap string Z;
  tokens_by_model : gmap string Z;
}.

(** An entry of [MODEL_COSTS]; a key the entry does not have is [None]. *)
Record CostEntry : Type := mkCostEntry {
  cost_input : option float;
  cost_output : option float;
  cost_per_character : option float;
  cost_description : string;
}.

Set Warnings "-inexact-float".

Definition MODELS : list (string * string) :=
  [ ("story_generation", "MiniMax-M1");
    ("name_analysis", "MiniMax-Text-01");
    ("simple_tasks", "MiniMax-Text-01") ].

Definition MODEL_COSTS : list (string * CostEntry) :=
  [ ("MiniMax-M1",
     mkCostEntry (Some 0.4%float) (Some 2.2%float) None
       "Top-Tier Model: 80K CoT Length x 1M Input");
    ("MiniMax-Text-01",
     mkCostEntry (Some 0.2%float) (Some 1.1%float) None
       "Text model, new model architecture, 1000k content length");
    ("speech-02-hd",
     mkCostEntry None None (Some 0.0001%float)
       "HD model with superior rhythm and stability");
    ("speech-02-turbo",
     mkCostEntry None None (Some 0.00006%float)
       "Turbo model with enhanced multilingual capabilities") ].

(** [d.get(k)] / [d[k]] on a dictionary literal. *)
Fixpoint dict_get {V} (k : string) (d : list (string * V)) : option V :=
  match d with
  | [] => None
  | (k', v) :: r => if String.eqb k k' then Some v else dict_get k r
  end.

(** [config.RATE_LIMITS] *)
Definition RATE_LIMITS_chat_rpm : Z := 100.
Definition RATE_LIMITS_tts_rpm : Z := 50.
Definition RATE_LIMITS_retry_delay : Q := 60.
Definition RATE_LIMITS_max_retries : Z := 1.

(** ** The orchestrator instance and the world, as one store

    [name_analysis_cache] and [voice_selection_index] are created empty by
    the first method that needs them ([hasattr] guards); they are empty
    maps from the start here.  [api_usage_stats] is [None] until
    [make_api_call] creates it, because [main] tests for its presence. *)
Record State : Type := mkState {
  world : World;
  chat_limiter : RateLimiter.t;
  tts_limiter : RateLimiter.t;
  retry_delay : Q;
  max_retries : Z;
  characters : gmap string Character;
  story_segments : list StorySegment;
  current_story : string;
  name_voice_cache : gmap string Character;
  name_analysis_cache : gmap string AnalysisValue;
  voice_selection_index : gmap string nat;
  api_usage_stats : option UsageStats;
}.

Definition set_world (w : World) (s : State) : State :=
  mkState w (chat_limiter s) (tts_limiter s) (retry_delay s) (max_retries s)
    (characters s) (story_segments s) (current_story s) (name_voice_cache s)
    (name_analysis_cache s) (voice_selection_index s) (api_usage_stats s).

Definition limiter (svc : Service) (s : State) : RateLimiter.t :=
  match svc with Chat => chat_limiter s | Tts => tts_limiter s end.

Definition set_limiter (svc : Service) (r : RateLimiter.t) (s : State) : State :=
  match svc with
  | Chat =>
      mkState (world s) r (tts_limiter s) (retry_delay s) (max_retries s)
        (characters s) (story_segments s) (current_story s)
        (name_voice_cache s) (name_analysis_cache s)
        (voice_selection_index s) (api_usage_stats s)
  | Tts =>
      mkState (world s) (chat_limiter s) r (retry_delay s) (max_retries s)
        (characters s) (story_segments s) (current_story s)
        (name_voice_cache s) (name_analysis_cache s)
        (voice_selection_index s) (api_usage_stats s)
  end.

Definition set_characters (c : gmap string Character) (s : State) : State :=
  mkState (world s) (chat_limiter s) (tts_limiter s) (retry_delay s)
    (max_retries s) c (story_segments s) (current_story s)
    (name_voice_cache s) (name_analysis_cache s) (voice_selection_index s)
    (api_usage_stats s).

Definition set_story_segments (l : list StorySegment) (s : State) : State :=
  mkState (world s) (chat_limiter s) (tts_limiter s) (retry_delay s)
    (max_retries s) (characters s) l (current_story s) (name_voice_cache s)
    (name_analysis_cache s) (voice_selection_index s) (api_usage_stats s).

Definition set_current_story (t : string) (s : State) : State :=
  mkState (world s) (chat_limiter s) (tts_limiter s) (retry_delay s)
    (max_retries s) (characters s) (story_segments s) t (name_voice_cache s)
    (name_analysis_cache s) (voice_selection_index s) (api_usage_stats s).

Definition set_name_voice_cache (c : gmap string Character) (s : State)
  : State :=
  mkState (world s) (chat_limiter s) (tts_limiter s) (retry_delay s)
    (max_retries s) (characters s) (story_segments s) (current_story s) c
    (name_analysis_cache s) (voice_selection_index s) (api_usage_stats s).

Definition set_name_analysis_cache (c : gmap string AnalysisValue) (s : State)
  : State :=
  mkState (world s) (chat_limiter s) (tts_limiter s) (retry_delay s)
    (max_retries s) (characters s) (story_segments s) (current_story s)
    (name_voice_cache s) c (voice_selection_index s) (api_usage_stats s).

Definition set_voice_selection_index (i : gmap string nat) (s : State)
  : State :=
  mkState (world s) (chat_limiter s) (tts_limiter s) (retry_delay s)
    (max_retries s) (characters s) (story_segments s) (current_story s)
    (name_voice_cache s) (name_analysis_cache s) i (api_usage_stats s).

Definition set_api_usage_stats (u : option UsageStats) (s : State) : State :=
  mkState (world s) (chat_limiter s) (tts_limiter s) (retry_delay s)
    (max_retries s) (characters s) (story_segments s) (current_story s)
    (name_voice_cache s) (name_analysis_cache s) (voice_selection_index s) u.

(** [MiniMaxStoryTeller.__init__]: the instance a session starts with, in
    a given world. *)
Definition default_characters : gmap string Character :=
  list_to_map
    [ ("narrator",
       mkCharacter "Narrator"
         "A wise storyteller with a warm, engaging voice who brings the world to life with vivid descriptions"
         "English_expressive_narrator" 1.0 1.0 0.0 "calm");
      ("hero",
       mkCharacter "Hero"
         "A courageous protagonist with a heart of gold, facing inner doubts and external challenges with determination and growth"
         "English_magnetic_voiced_man" 1.0 1.0 0.0 "brave");
      ("villain",
       mkCharacter "Villain"
         "A complex antagonist with layers of motivation, not purely evil but driven by pain, fear, or misguided beliefs"
         "English_ManWithDeepVoice" 0.8 1.0 (-0.3) "sinister");
      ("friend",
       mkCharacter "Friend"
         "A loyal companion who provides emotional support, wisdom, and sometimes tough love when needed"
         "English_radiant_girl" 1.1 1.0 0.2 "friendly") ].

Definition init (w : World) : State :=
  mkState w
    (RateLimiter.make RATE_LIMITS_chat_rpm)
    (RateLimiter.make RATE_LIMITS_tts_rpm)
    RATE_LIMITS_retry_delay RATE_LIMITS_max_retries
    default_characters [] "" ∅ ∅ ∅ None.

(** [add_character] *)
Definition add_character (c : Character) : M State unit :=
  modify (fun s => set_characters (<[Py.lower (name c) := c]> (characters s)) s).

(** ** Effects lifted to the store *)

(** [self.chat_limiter.wait_if_needed()] / [self.tts_limiter.…] *)
Definition acquire (svc : Service) : M State unit :=
  fun s =>
    match RateLimiter.wait_if_needed (limiter svc s, world s) with
    | (res, (r, w)) => (res, set_limiter svc r (set_world w s))
    end.

(** [time.sleep(d)] *)
Definition time_sleep (d : Q) : M State unit :=
  modify (fun s => set_world (sleep d (world s)) s).

(** [requests.post(url, headers=…, json=payload)]; the payload reaches
    only the service, whose answer is the world's to choose. *)
Definition requests_post (svc : Service) (model : string) : M State Response :=
  fun s =>
    match post svc model (world s) with
    | (ConnectionFails, w) => (Raise ConnectionError, set_world w s)
    | (Responds r, w) => (Ok r, set_world w s)
    end.

(** [response.raise_for_status()] *)
Definition raise_for_status (r : Response) : M State unit :=
  if ((400 <=? status_code r) && (status_code r <? 600))%Z
  then raise (HTTPError (status_code r))
  else ret tt.

(** [if not os.path.exists(d): os.makedirs(d)]: the empty path never
    exists and cannot be created; for any other path the file system
    decides. *)
Definition ensure_dir (d : string) : M State unit :=
  if Py.is_empty d then raise (OSError d)
  else fun s =>
    match ask_mkdir (world s) with
    | (true, w) => (Ok tt, set_world w s)
    | (false, w) => (Raise (OSError d), set_world w s)
    end.

(** [with open(filename, "wb") as f: f.write(audio_bytes)] *)
Definition write_bytes (filename : string) (audio_bytes : list N)
  : M State unit :=
  fun s =>
    match ask_open (world s) with
    | (true, w) => (Ok tt, set_world (write_file filename audio_bytes w) s)
    | (false, w) => (Raise (OSError filename), set_world w s)
    end.

(** [int(x * 100)] where only the conversion's failure matters: the
    value goes into the request payload. *)
Definition int_percent (x : float) : M State unit :=
  match int_error (x * 100)%float with
  | Some e => raise e
  | None => ret tt
  end.

(** [response.json()] *)
Definition response_json (r : Response) : M State Json :=
  match body r with
  | Some j => ret j
  | None => raise JSONDecodeError
  end.

(** ** Usage ledger and [make_api_call] *)

Definition empty_usage_stats : UsageStats :=
  mkUsageStats 0 0 0%float ∅ ∅.

(** Lines 354-372: the estimated cost of one call. *)
Definition estimate_cost (model : string)
    (prompt_tokens completion_tokens total_tokens : Z) : float :=
  match dict_get model MODEL_COSTS with
  | Some model_costs =>
      match cost_input model_costs, cost_output model_costs with
      | Some input, Some output =>
          let input_cost :=
            (Py.truediv prompt_tokens 1000000 * input)%float in
          let output_cost :=
            (Py.truediv completion_tokens 1000000 * output)%float in
          (input_cost + output_cost)%float
      | _, _ =>
          match cost_per_character model_costs with
          | Some per_character =>
              (Py.float_of_int total_tokens * per_character)%float
          | None => 0%float
          end
      end
  | None => (Py.truediv total_tokens 1000000 * 0.5)%float
  end.

(** Lines 339-342. *)
Definition track_call (model : string) (u : UsageStats) : UsageStats :=
  mkUsageStats (total_calls u + 1) (stats_total_tokens u) (estimated_cost u)
    (<[model := default 0 (calls_by_model u !! model) + 1]> (calls_by_model u))
    (tokens_by_model u).

Definition update_stats (f : UsageStats -> UsageStats) : M State unit :=
  modify (fun s =>
    set_api_usage_stats
      (Some (f (default empty_usage_stats (api_usage_stats s)))) s).

(** Lines 348-351: the tokens of one call. *)
Definition track_tokens (model : string) (total : Z) (u : UsageStats)
  : UsageStats :=
  mkUsageStats (total_calls u) (stats_total_tokens u + total)
    (estimated_cost u) (calls_by_model u)
    (<[model := default 0 (tokens_by_model u !! model) + total]>
       (tokens_by_model u)).

(** Line 374: the cost of one call. *)
Definition track_cost (cost : float) (u : UsageStats) : UsageStats :=
  mkUsageStats (total_calls u) (stats_total_tokens u)
    (estimated_cost u + cost)%float (calls_by_model u) (tokens_by_model u).

(** Lines 344-374 when the three counts are integers. *)
Definition track_usage (model : string) (prompt completion total : Z)
    (u : UsageStats) : UsageStats :=
  track_cost (estimate_cost model prompt completion total)
             (track_tokens model total u).

(** Arithmetic on a count raises [TypeError] when it is not a number. *)
Definition number (c : Count) : M State Z :=
  match c with
  | CountInt n => ret n
  | CountOther => raise (TypeError "unsupported operand type(s)")
  end.

(** [result["usage"].get]: only a dictionary has [get]. *)
Definition usage_object (v : UsageValue) : M State Usage :=
  match v with
  | UsageObject g => ret g
  | UsageOther => raise (AttributeError "get")
  end.

(** The models whose entry of [MODEL_COSTS] has ["input"] and
    ["output"] (line 357): only for them are [prompt_tokens] and
    [completion_tokens] used in arithmetic. *)
Definition priced_by_tokens (model : string) : bool :=
  match dict_get model MODEL_COSTS with
  | Some model_costs =>
      match cost_input model_costs, cost_output model_costs with
      | Some _, Some _ => true
      | _, _ => false
      end
  | None => false
  end.

(** Lines 344-374: the usage block of a decoded body. *)
Definition record_usage (model : string) (v : UsageValue) : M State unit :=
  let* g := usage_object v in
  let prompt_tokens := default (CountInt 0) (prompt_tokens g) in
  let completion_tokens := default (CountInt 0) (completion_tokens g) in
  let total_tokens := default (CountInt 0) (total_tokens g) in
  let* total := number total_tokens in
  update_stats (track_tokens model total) ;;
  let* cost :=
    (if priced_by_tokens model then
       let* prompt := number prompt_tokens in
       let* completion := number completion_tokens in
       ret (estimate_cost model prompt completion total)
     else ret (estimate_cost model 0 0 total)) in
  update_stats (track_cost cost).

(** [make_api_call(model_type, messages, temperature, max_tokens)]. *)
Definition make_api_call (model_type : string) : M State Json :=
  let model :=
    default (default "" (dict_get "simple_tasks" MODELS))
            (dict_get model_type MODELS) in
  (* if not hasattr(self, "api_usage_stats"): … *)
  update_stats (fun u => u) ;;
  acquire Chat ;;
  let* response := requests_post Chat model in
  let* response :=
    (if (status_code response =? 429)%Z then
       (let* s := get in time_sleep (retry_delay s)) ;;
       acquire Chat ;;
       requests_post Chat model
     else ret response) in
  raise_for_status response ;;
  let* result := response_json response in
  update_stats (track_call model) ;;
  (match usage result with
   | Some v => record_usage model v
   | None => ret tt
   end) ;;
  ret result.

(** ** [generate_story] *)

Definition Zmax_list (l : list Z) : Z := fold_right Z.max (-1)%Z l.

(** Lines 572-603: the story recovered from [reasoning_content], if any. *)
Definition story_from_reasoning (m : Message) : option string :=
  match reasoning_content m with
  | Some reasoning =>
      if Py.contains "NARRATOR:" reasoning || Py.contains "HERO:" reasoning
      then
        let story_start :=
          Zmax_list [ Py.find "NARRATOR:" reasoning;
                      Py.find "HERO:" reasoning;
                      Py.find "VILLAIN:" reasoning;
                      Py.find "FRIEND:" reasoning;
                      Py.find "WIZARD:" reasoning ] in
        if (story_start =? -1)%Z then None
        else Some (Py.strip (Py.drop (Z.to_nat story_start) reasoning))
      else None
  | None => None
  end.

Definition token_limit_message : string :=
  "Story generation hit token limit - try reducing story length or simplifying prompt".

(** The [try] block of [generate_story], lines 529-625. *)
Definition generate_story_try : M State string :=
  let* result := make_api_call "story_generation" in
  match choices result with
  | Some (choice :: _) =>
      match message choice with
      | Some message =>
          let finish_reason := default "" (finish_reason choice) in
          match content message with
          | Some story =>
              if negb (Py.is_empty (Py.strip story)) then
                modify (set_current_story story) ;; ret story
              else
                match story_from_reasoning message with
                | Some extracted_story =>
                    modify (set_current_story extracted_story) ;;
                    ret extracted_story
                | None =>
                    if String.eqb finish_reason "length"
                    then raise (PyException token_limit_message)
                    else raise (PyException "Story content is empty")
                end
          | None => raise (PyException "No content in message")
          end
      | None => raise (PyException "No message in choice")
      end
  | _ => raise (PyException "No story generated")
  end.

(** [generate_story]: both handlers print the error and return [None]. *)
Definition generate_story : M State (option string) :=
  try_except
    (let* story := generate_story_try in ret (Some story))
    (fun e => if is_request_exception e then ret None else ret None).

(** ** Name analysis *)

(** [fallback_name_analysis] *)
Definition fallback_name_analysis (char_name : string) : Analysis :=
  let char_name_lower := Py.lower char_name in
  let '(gender, voice_type) :=
    if Py.any_in ["a"; "e"; "i"; "o"; "u"] char_name_lower then
      if Py.endswith_any ["a"; "e"; "i"]%char char_name_lower
      then ("female", "feminine")
      else if Py.endswith_any ["o"; "u"; "n"; "r"]%char char_name_lower
           then ("male", "masculine")
           else ("unknown", "neutral")
    else ("unknown", "neutral") in
  let '(personality_trait, voice_type) :=
    if Py.any_in ["shadow"; "dark"; "grim"; "vex"; "mal"] char_name_lower
    then ("villainous", voice_type)
    else if Py.any_in ["light"; "bright"; "sun"; "star"] char_name_lower
         then ("heroic", voice_type)
         else if Py.any_in ["wise"; "sage"; "elder"; "merlin"] char_name_lower
              then ("wise", "wise")
              else ("neutral", voice_type) in
  mkAnalysis gender "adult" personality_trait voice_type 0.3%float.

(** Lines 692-704: missing fields get their defaults. *)
Definition fill_required_fields (p : Payload) : Analysis :=
  mkAnalysis (default "unknown" (p_gender p))
             (default "unknown" (p_age_group p))
             (default "unknown" (p_personality_trait p))
             (default "unknown" (p_voice_type p))
             (default 0.5%float (p_confidence p)).

(** [d[k]] on a response object. *)
Definition subscript {S A} (key : string) (o : option A) : M S A :=
  match o with
  | Some a => ret a
  | None => raise (KeyError key)
  end.

Definition required_fields : list string :=
  ["gender"; "age_group"; "personality_trait"; "voice_type"; "confidence"].

(** Lines 692-704 on what [json.loads] returned.  [field not in
    analysis] is a key test on a dictionary, a membership test on a
    list, a substring test on a string, and a [TypeError] on anything
    else; filling in a missing field succeeds on a dictionary only. *)
Definition validate_fields (v : Decoded) : M State AnalysisValue :=
  match v with
  | DObject payload => ret (AnObject (fill_required_fields payload))
  | DArray strings =>
      if forallb (fun field => Py.str_in field strings) required_fields
      then ret (NotAnObject v)
      else raise (TypeError "list indices must be integers or slices, not str")
  | DString text =>
      if forallb (fun field => Py.contains field text) required_fields
      then ret (NotAnObject v)
      else raise (TypeError "'str' object does not support item assignment")
  | DScalar => raise (TypeError "argument is not iterable")
  end.

(** [analyze_character_name_with_ai] *)
Definition analyze_character_name_with_ai (char_name : string)
  : M State AnalysisValue :=
  let* s := get in
  match name_analysis_cache s !! Py.lower char_name with
  | Some cached => ret cached
  | None =>
      try_except
        (let* result := make_api_call "name_analysis" in
         match choices result with
         | Some (choice :: _) =>
             let* message := subscript "message" (message choice) in
             let* _ := subscript "content" (content message) in
             match content_json message with
             | Some decoded =>
                 let* analysis := validate_fields decoded in
                 modify (fun s =>
                   set_name_analysis_cache
                     (<[Py.lower char_name := analysis]> (name_analysis_cache s))
                     s) ;;
                 ret analysis
             | None => ret (AnObject (fallback_name_analysis char_name))
             end
         | _ => ret (AnObject (fallback_name_analysis char_name))
         end)
        (fun _ => ret (AnObject (fallback_name_analysis char_name)))
  end.

(** ** Voice resolution *)

Definition english_voices : list (string * list string) :=
  [ ("narrator",
     [ "English_expressive_narrator"; "English_CaptivatingStoryteller";
       "English_WiseScholar" ]);
    ("female",
     [ "English_radiant_girl"; "English_compelling_lady1";
       "English_captivating_female1"; "English_Upbeat_Woman";
       "English_CalmWoman"; "English_Graceful_Lady"; "English_PlayfulGirl";
       "English_LovelyGirl"; "English_Wiselady"; "English_SentimentalLady";
       "English_Soft-spokenGirl" ]);
    ("male",
     [ "English_magnetic_voiced_man"; "English_Aussie_Bloke";
       "English_Trustworth_Man"; "English_Gentle-voiced_man";
       "English_Diligent_Man"; "English_ReservedYoungMan";
       "English_ManWithDeepVoice"; "English_FriendlyPerson";
       "English_Debator"; "English_Steadymentor";
       "English_Deep-VoicedGentleman"; "English_DecentYoungMan";
       "English_PassionateWarrior" ]);
    ("villain",
     [ "English_ManWithDeepVoice"; "English_Deep-VoicedGentleman";
       "English_ImposingManner" ]);
    ("child",
     [ "English_radiant_girl"; "English_PlayfulGirl"; "English_LovelyGirl";
       "English_Soft-spokenGirl" ]);
    ("elder",
     [ "English_WiseScholar"; "English_Wiselady"; "English_MaturePartner";
       "English_Steadymentor" ]) ].

(** Lines 848-870: the voice category of an analysis. *)
Definition select_voice_category (analysis : Analysis) : string :=
  let gender := gender analysis in
  let age_group := age_group analysis in
  let personality := personality_trait analysis in
  let voice_category :=
    if String.eqb gender "female" then
      if String.eqb age_group "child" then "child"
      else if String.eqb age_group "elder" then "elder"
           else "female"
    else if String.eqb gender "male" then
           if String.eqb age_group "child" then "child"
           else if String.eqb age_group "elder" then "elder"
                else "male"
         else "male" in
  if Py.str_in personality ["villainous"; "sinister"; "evil"] then "villain"
  else if Py.str_in personality ["wise"; "scholarly"; "mentor"] then "elder"
       else voice_category.

(** [english_voices.get(voice_category, english_voices["male"])] *)
Definition available_voices (voice_category : string) : list string :=
  default (default [] (dict_get "male" english_voices))
          (dict_get voice_category english_voices).

(** [l[i]]; [IndexError] cannot arise where the source indexes modulo the
    length of a non-empty pool. *)
Definition list_item (l : list string) (i : nat) : string :=
  default "" (l !! i).

(** [map_character_name_to_voice] *)
Definition map_character_name_to_voice (char_name : string)
  : M State Character :=
  let* s := get in
  match name_voice_cache s !! char_name with
  | Some cached_voice => ret cached_voice
  | None =>
      let* analysis := analyze_character_name_with_ai char_name in
      (* analysis.get("gender", "unknown") *)
      let* analysis :=
        match analysis with
        | AnObject a => ret a
        | NotAnObject _ => raise (AttributeError "get")
        end in
      let voice_category := select_voice_category analysis in
      let voices := available_voices voice_category in
      let* s := get in
      let index := default 0%nat (voice_selection_index s !! voice_category) in
      let selected_voice := list_item voices (index mod length voices) in
      modify (fun s =>
        set_voice_selection_index
          (<[voice_category := S index]> (voice_selection_index s)) s) ;;
      let character :=
        mkCharacter char_name
          ("AI-generated character with " +:+ gender analysis +:+ " voice, "
           +:+ age_group analysis +:+ " age group, "
           +:+ personality_trait analysis +:+ " personality")
          selected_voice 1.0 1.0 0.0 "neutral" in
      modify (fun s =>
        set_name_voice_cache (<[char_name := character]> (name_voice_cache s)) s) ;;
      ret character
  end.

(** ** [parse_story_into_segments] *)

(** [self.characters["narrator"]] *)
Definition narrator : M State Character :=
  let* s := get in subscript "narrator" (characters s !! "narrator").

(** The body of the loop over the lines. *)
Definition parse_line (segments : list StorySegment) (line : string)
  : M State (list StorySegment) :=
  let line := Py.strip line in
  if Py.is_empty line then ret segments
  else if Py.contains_chr ":" line then
    match Py.split1 ":" line with
    | [part0; part1] =>
        let char_name_part := Py.strip part0 in
        let dialogue := Py.strip part1 in
        let char_name :=
          Py.strip (default "" (head (Py.split "(" char_name_part))) in
        let* mapped_character := map_character_name_to_voice char_name in
        ret (segments ++ [mkStorySegment (Some mapped_character) dialogue None])%list
    | _ =>
        let* n := narrator in
        ret (segments ++ [mkStorySegment (Some n) line None])%list
    end
  else
    let* n := narrator in
    ret (segments ++ [mkStorySegment (Some n) line None])%list.

Fixpoint for_each {S A B} (f : B -> A -> M S B) (acc : B) (l : list A)
  : M S B :=
  match l with
  | [] => ret acc
  | x :: r => let* acc := f acc x in for_each f acc r
  end.

Definition newline : ascii := ascii_of_N 10.

Definition parse_story_into_segments (story : string)
  : M State (list StorySegment) :=
  let lines := Py.split newline story in
  let* segments := for_each parse_line [] lines in
  modify (set_story_segments segments) ;;
  ret segments.

(** ** Synthesis *)

Definition set_audio_file (f : string) (seg : StorySegment) : StorySegment :=
  mkStorySegment (character seg) (text seg) (Some f).

(** [generate_audio_for_segment(segment, output_dir)].  The segment is an
    object the method updates in place: the updated segment is returned
    next to the result.  The output directory, the file name and the
    request payload are prepared before the [try]. *)
Definition generate_audio_for_segment (segment : StorySegment)
    (output_dir : string) : M State (option string * StorySegment) :=
  (* print(segment.character.name) *)
  let* char :=
    match character segment with
    | Some c => ret c
    | None => raise (AttributeError "name")
    end in
  ensure_dir output_dir ;;
  let* s := get in
  let timestamp := Py.int_of_Q (clock (world s)) in
  let filename :=
    output_dir +:+ "/" +:+ name char +:+ "_" +:+ pretty timestamp +:+ ".mp3" in
  (* "speed": int(char.speed * 100), "vol": ..., "pitch": ... *)
  int_percent (speed char) ;;
  int_percent (volume char) ;;
  int_percent (pitch char) ;;
  try_except
    (acquire Tts ;;
     let* response := requests_post Tts "speech-02-hd" in
     let* response :=
       (if (status_code response =? 429)%Z then
          (let* s := get in time_sleep (retry_delay s)) ;;
          acquire Tts ;;
          requests_post Tts "speech-02-hd"
        else ret response) in
     raise_for_status response ;;
     let* result := response_json response in
     match data result with
     | Some d =>
         match audio d with
         | Some audio_hex =>
             match Py.fromhex audio_hex with
             | Some audio_bytes =>
                 write_bytes filename audio_bytes ;;
                 ret (Some filename, set_audio_file filename segment)
             | None => ret (None, segment)
             end
         | None => ret (None, segment)
         end
     | None => ret (None, segment)
     end)
    (fun e =>
       if is_request_exception e then ret (None, segment)
       else ret (None, segment)).

(** [generate_full_story_audio(output_dir)]: the segments of
    [self.story_segments] in order, each updated where it stands. *)
Definition generate_full_story_audio (output_dir : string)
  : M State (list string) :=
  let* s0 := get in
  for_each
    (fun audio_files i =>
       let* s := get in
       match story_segments s !! i with
       | None => ret audio_files
       | Some segment =>
           let* result := generate_audio_for_segment segment output_dir in
           let audio_file := fst result in
           let segment := snd result in
           modify (fun s =>
             set_story_segments (<[i := segment]> (story_segments s)) s) ;;
           match audio_file with
           | Some f => ret (audio_files ++ [f])%list
           | None => ret audio_files
           end
       end)
    [] (seq 0 (length (story_segments s0))).

(** ** Attribute lookup on the orchestrator

    The names an instance of [MiniMaxStoryTeller] answers to: the methods
    and constants of the class body, and the attributes that [__init__]
    and the lazily initialising methods set. *)
Definition MiniMaxStoryTeller_attributes : list string :=
  [ "MODELS"; "MODEL_COSTS";
    "__init__"; "add_character"; "generate_story_prompt"; "make_api_call";
    "get_usage_statistics"; "print_usage_summary"; "generate_story";
    "analyze_character_name_with_ai"; "fallback_name_analysis";
    "map_character_name_to_voice"; "parse_story_into_segments";
    "generate_audio_for_segment"; "generate_full_story_audio";
    "play_audio_file"; "create_story_script";
    "api_key"; "group_id"; "chat_url"; "tts_url"; "ws_url"; "headers";
    "chat_limiter"; "tts_limiter"; "retry_delay"; "max_retries";
    "characters"; "story_segments"; "current_story"; "name_voice_cache";
    "api_usage_stats"; "name_analysis_cache"; "voice_selection_index" ].

(** [getattr(storyteller, attr)]: the lookup succeeds, or raises. *)
Definition getattr_storyteller (attr : string) : M State unit :=
  if Py.str_in attr MiniMaxStoryTeller_attributes then ret tt
  else raise (AttributeError attr).

(** The expression the two callers evaluate first
    ([interactive_storyteller.py] line 547, [example_usage.py] line 190):
    [storyteller.generate_full_story_audio_streaming]. *)
Definition lookup_streaming_operation : M State unit :=
  getattr_storyteller "generate_full_story_audio_streaming".

(** ** Vocabulary of the rate-window properties *)

Definition lags_ok (w : World) : Prop :=
  Forall (fun d => (0 <= d)%Q) (lags w).

Definition steps_ok (ss : list LimiterStep) : Prop :=
  Forall (fun s => match s with
                   | Acquire => True
                   | Idle d => (0 <= d)%Q
                   end) ss.

(** The two most recent timestamps of a window are at least [gap]
    apart. *)
Definition last_two_apart (gap : Q) (ts : list Q) : Prop :=
  forall a b, rev ts !! 0%nat = Some b -> rev ts !! 1%nat = Some a ->
              (gap <= b - a)%Q.

(** The invariant as the specification words it. *)
Definition window_as_stated (r : RateLimiter.t) : Prop :=
  (Z.of_nat (length (RateLimiter.request_times r))
   <= RateLimiter.requests_per_minute r)%Z
  /\ last_two_apart (RateLimiter.min_interval r) (RateLimiter.request_times r).

(** The invariant the window does keep: at most [limit + 1] stamps, at
    most [limit] of them within the trailing minute. *)
Definition window_inv (rpm : Z) (st : RateLimiter.t * World) : Prop :=
  RateLimiter.requests_per_minute (fst st) = rpm
  /\ RateLimiter.min_interval (fst st)
     = RateLimiter.min_interval (RateLimiter.make rpm)
  /\ (Z.of_nat (length (RateLimiter.request_times (fst st))) <= rpm + 1)%Z
  /\ (Z.of_nat (length (RateLimiter.prune (clock (snd st))
                          (RateLimiter.request_times (fst st))))
      <= rpm)%Z
  /\ lags_ok (snd st).

(** ** Vocabulary of the orchestrator properties *)

(** Between two worlds the program only slept: no request went out and no
    file was written. *)
Definition only_sleeps (w w' : World) : Prop :=
  net w' = net w /\ files w' = files w
  /\ (exists sl, events w' = (events w ++ sl)%list /\ count_posts sl = 0%nat)
  /\ mkdirs w' = mkdirs w /\ opens w' = opens w.

(** A computation keeps a relation between the store before and after. *)
Definition preserves {A} (R : State -> State -> Prop) (m : M State A) : Prop :=
  forall st, R st (snd (m st)).

(** A computation never raises. *)
Definition total {A} (m : M State A) : Prop :=
  forall st, exists a, fst (m st) = Ok a.

Definition same_usage (st st' : State) : Prop :=
  api_usage_stats st' = api_usage_stats st.

(** The outcome the next [requests.post] meets, and the one after it. *)
Definition outcome_at (i : nat) (st : State) : Outcome :=
  default ConnectionFails (net (world st) !! i).

Definition is_throttle (o : Outcome) : bool :=
  match o with
  | Responds r => (status_code r =? 429)%Z
  | ConnectionFails => false
  end.

(** The exception a failed attempt ends in. *)
Definition failure_of (o : Outcome) : option Exn :=
  match o with
  | ConnectionFails => Some ConnectionError
  | Responds r =>
      if ((400 <=? status_code r) && (status_code r <? 600))%Z
      then Some (HTTPError (status_code r))
      else match body r with
           | None => Some JSONDecodeError
           | Some _ => None
           end
  end.

(** The requests sent and the sleeps taken between two stores. *)
Definition new_events (st st' : State) : list Event :=
  drop (length (events (world st))) (events (world st')).

Definition attempts (st st' : State) : nat := count_posts (new_events st st').

Definition limiter_ok (svc : Service) (st : State) : Prop :=
  (1 <= RateLimiter.requests_per_minute (limiter svc st))%Z.

(** The outcome is a response that is neither throttled nor an HTTP error
    and carries the JSON body [j]. *)
Definition answers (o : Outcome) (j : Json) : Prop :=
  match o with
  | Responds r =>
      status_code r <> 429%Z
      /\ (status_code r < 400 \/ 600 <= status_code r)%Z
      /\ body r = Some j
  | ConnectionFails => False
  end.

(** The model a call type is routed to. *)
Definition model_of (model_type : string) : string :=
  default (default "" (dict_get "simple_tasks" MODELS))
          (dict_get model_type MODELS).

(** A count as the code reads it: [usage.get(key, 0)]. *)
Definition count_or_zero (c : option Count) : Count :=
  default (CountInt 0) c.

(** The exception the usage block of a decoded body ends lines 344-374
    in, if it does: the block is not an object, or a count the
    arithmetic needs is not a number. *)
Definition usage_error (model : string) (result : Json) : option Exn :=
  match usage result with
  | None => None
  | Some UsageOther => Some (AttributeError "get")
  | Some (UsageObject g) =>
      match count_or_zero (total_tokens g) with
      | CountOther => Some (TypeError "unsupported operand type(s)")
      | CountInt _ =>
          if priced_by_tokens model then
            match count_or_zero (prompt_tokens g),
                  count_or_zero (completion_tokens g) with
            | CountInt _, CountInt _ => None
            | _, _ => Some (TypeError "unsupported operand type(s)")
            end
          else None
      end
  end.

(** The ledger after one call whose deciding attempt was answered with
    the body [result]: the call is counted; the tokens are added when
    [total_tokens] is a number; the cost is added when the counts it is
    computed from are numbers too. *)
Definition ledger_after (model : string) (result : Json) (u : UsageStats)
  : UsageStats :=
  let u1 := track_call model u in
  match usage result with
  | Some (UsageObject g) =>
      match count_or_zero (total_tokens g) with
      | CountInt total =>
          let u2 := track_tokens model total u1 in
          if priced_by_tokens model then
            match count_or_zero (prompt_tokens g),
                  count_or_zero (completion_tokens g) with
            | CountInt prompt, CountInt completion =>
                track_cost (estimate_cost model prompt completion total) u2
            | _, _ => u2
            end
          else track_cost (estimate_cost model 0 0 total) u2
      | CountOther => u1
      end
  | _ => u1
  end.

(** Everything of the orchestrator but its world and its limiters is the
    same. *)
Definition same_self (st st' : State) : Prop :=
  retry_delay st' = retry_delay st
  /\ max_retries st' = max_retries st
  /\ characters st' = characters st
  /\ story_segments st' = story_segments st
  /\ current_story st' = current_story st
  /\ name_voice_cache st' = name_voice_cache st
  /\ name_analysis_cache st' = name_analysis_cache st
  /\ voice_selection_index st' = voice_selection_index st
  /\ api_usage_stats st' = api_usage_stats st.

(** Between [st] and [st'] the program consumed [n] outcomes of the
    network and logged the events [new]; the orchestrator's own data and
    the limits of its limiters are untouched. *)
Definition sent (n : nat) (new : list Event) (st st' : State) : Prop :=
  same_self st st'
  /\ (forall svc, RateLimiter.requests_per_minute (limiter svc st')
                  = RateLimiter.requests_per_minute (limiter svc st))
  /\ net (world st') = drop n (net (world st))
  /\ events (world st') = (events (world st) ++ new)%list
  /\ files (world st') = files (world st)
  /\ mkdirs (world st') = mkdirs (world st)
  /\ opens (world st') = opens (world st).

(** What [requests.post] hands to the program. *)
Definition post_result (o : Outcome) : Res Response :=
  match o with
  | ConnectionFails => Raise ConnectionError
  | Responds r => Ok r
  end.

(** What the program holds after [raise_for_status]. *)
Definition checked_result (o : Outcome) : Res Response :=
  match o with
  | ConnectionFails => Raise ConnectionError
  | Responds r =>
      if ((400 <=? status_code r) && (status_code r <? 600))%Z
      then Raise (HTTPError (status_code r))
      else Ok r
  end.

(** Lines 319-335 and 1010-1035 as one computation: acquire, post, on a
    429 sleep, acquire and post again, then [raise_for_status]. *)
Definition send (svc : Service) (model : string) : M State Response :=
  acquire svc ;;
  let* response := requests_post svc model in
  let* response :=
    (if (status_code response =? 429)%Z then
       (let* s := get in time_sleep (retry_delay s)) ;;
       acquire svc ;;
       requests_post svc model
     else ret response) in
  raise_for_status response ;;
  ret response.

(** The events of one request: sleeps of the limiter, then the post. *)
Definition one_attempt (svc : Service) (model : string) (new : list Event)
  : Prop :=
  exists sl, new = (sl ++ [EvPost svc model])%list /\ count_posts sl = 0%nat.

(** The events of a throttled request and its retry: the post, the sleep
    of the configured delay, the sleeps of the limiter, the second post. *)
Definition two_attempts (svc : Service) (model : string) (delay : Q)
    (new : list Event) : Prop :=
  exists sl1 sl2,
    new = (sl1 ++ [EvPost svc model; EvSleep delay] ++ sl2
               ++ [EvPost svc model])%list
    /\ count_posts sl1 = 0%nat /\ count_posts sl2 = 0%nat.

(** The events one outbound call may log, by what its first attempt
    met. *)
Definition call_events (svc : Service) (model : string) (st : State)
    (new : list Event) : Prop :=
  if is_throttle (outcome_at 0 st)
  then two_attempts svc model (retry_delay st) new
  else one_attempt svc model new.

(** What the limiter of [svc] shows of a call that went from [st] to
    [st']: every attempt was preceded by an acquisition that stamped the
    window.  After one attempt the window ends with the stamp [t1] of
    its acquisition, before it only stamps that were there; after a
    throttled attempt and its retry it ends with the stamp [t2] of the
    second acquisition, a clock reading later than that of the first,
    [t1], when [retry_delay] is positive. *)
Definition stamped (svc : Service) (st st' : State) : Prop :=
  let old := RateLimiter.request_times (limiter svc st) in
  let new := RateLimiter.request_times (limiter svc st') in
  if is_throttle (outcome_at 0 st) then
    exists kept t1 t2,
      new = (kept ++ [t2])%list /\ sublist kept (old ++ [t1])%list
      /\ (clock (world st) <= t1)%Q
      /\ ((0 < retry_delay st)%Q -> (t1 < t2)%Q)
      /\ (t2 <= clock (world st'))%Q
  else
    exists kept t1,
      new = (kept ++ [t1])%list /\ sublist kept old
      /\ (clock (world st) <= t1)%Q /\ (t1 <= clock (world st'))%Q.

(** The attempt whose outcome decides the call. *)
Definition deciding_outcome (st : State) : Outcome :=
  outcome_at (if is_throttle (outcome_at 0 st) then 1 else 0) st.

(** The file name a synthesis call started in store [st] writes to. *)
Definition synthesis_filename (output_dir : string) (char : Character)
    (st : State) : string :=
  output_dir +:+ "/" +:+ name char +:+ "_"
  +:+ pretty (Py.int_of_Q (clock (world st))) +:+ ".mp3".

(** The store once the output directory has been asked for. *)
Definition after_mkdir (st : State) : State :=
  set_world (snd (ask_mkdir (world st))) st.

(** What a synthesis call does with a decoded response body. *)
Definition store_audio (filename : string) (segment : StorySegment)
    (result : Json) : M State (option string * StorySegment) :=
  match data result with
  | Some d =>
      match audio d with
      | Some audio_hex =>
          match Py.fromhex audio_hex with
          | Some audio_bytes =>
              write_bytes filename audio_bytes ;;
              ret (Some filename, set_audio_file filename segment)
          | None => ret (None, segment)
          end
      | None => ret (None, segment)
      end
  | None => ret (None, segment)
  end.

(** ** Sample inputs *)

(** A 200 reply of the chat service with one choice and a usage block. *)
Definition generation_reply (text : string) (reason : string) (g : Usage)
  : Outcome :=
  Responds
    (mkResponse 200
       (Some (mkJson
                (Some [mkChoice (Some (mkMessage (Some text) None None))
                                (Some reason)])
                (Some (UsageObject g)) None))).

(** A 200 reply of the synthesis service carrying hex-encoded audio. *)
Definition synthesis_reply (audio_hex : string) : Outcome :=
  Responds
    (mkResponse 200 (Some (mkJson None None (Some (mkData (Some audio_hex)))))).

(** A reply with only a status code and an empty JSON object. *)
Definition status_reply (status : Z) : Outcome :=
  Responds (mkResponse status (Some (mkJson None None None))).

Definition world_with (replies : list Outcome) : World :=
  mkWorld 0 [] replies [] [] [] [].

Definition kael_segment : StorySegment :=
  mkStorySegment
    (Some (mkCharacter "Kael" "" "English_magnetic_voiced_man" 1 1 0 "neutral"))
    "I must go!" None.

(** A 200 reply whose first choice has the given content, finish reason
    and reasoning content. *)
Definition story_reply (text reason : string) (reasoning : option string)
  : Outcome :=
  Responds
    (mkResponse 200
       (Some (mkJson
                (Some [mkChoice (Some (mkMessage (Some text) None reasoning))
                                (Some reason)])
                (Some (UsageObject (mkUsage (Some (CountInt 10)) (Some (CountInt 0)) (Some (CountInt 10))))) None))).

(** A 200 reply with a usage block and no [choices] entry. *)
Definition no_choices_reply : Outcome :=
  Responds
    (mkResponse 200
       (Some (mkJson None (Some (UsageObject (mkUsage (Some (CountInt 10)) (Some (CountInt 0)) (Some (CountInt 10))))) None))).

(** A 200 reply of the name classifier whose content decodes to
    [decoded]. *)
Definition analysis_reply (text : string) (decoded : Decoded) : Outcome :=
  Responds
    (mkResponse 200
       (Some (mkJson
                (Some [mkChoice
                         (Some (mkMessage (Some text) (Some decoded) None))
                         (Some "stop")])
                None None))).

Fixpoint comma_separated (l : list string) : string :=
  match l with
  | [] => EmptyString
  | [s] => s
  | s :: r => s +:+ ", " +:+ comma_separated r
  end.

(** The JSON text of a list of strings. *)
Definition json_string_list (l : list string) : string :=
  let quote := String (ascii_of_N 34) EmptyString in
  "[" +:+ comma_separated (map (fun s => quote +:+ s +:+ quote) l) +:+ "]".

(** A classifier reply that is valid JSON and no object: the list of the
    five field names. *)
Definition list_analysis_reply : Outcome :=
  analysis_reply (json_string_list required_fields) (DArray required_fields).

(** A 200 reply with a story and the usage block [null]. *)
Definition null_usage_reply (text : string) : Outcome :=
  Responds
    (mkResponse 200
       (Some (mkJson
                (Some [mkChoice (Some (mkMessage (Some text) None None))
                                (Some "stop")])
                (Some UsageOther) None))).

(** ** Vocabulary of the resolver and parser properties *)

(** The resolver's own data is the same. *)
Definition same_voices (st st' : State) : Prop :=
  name_voice_cache st' = name_voice_cache st
  /\ voice_selection_index st' = voice_selection_index st
  /\ characters st' = characters st.

(** What the analysis hands to a resolution of [char_name] started in
    [st]. *)
Definition analysis_value_of (char_name : string) (st : State)
  : AnalysisValue :=
  match fst (analyze_character_name_with_ai char_name st) with
  | Ok v => v
  | Raise _ => AnObject (fallback_name_analysis char_name)
  end.

(** The analysis a resolution of [char_name] started in [st] works with,
    when it is handed a dictionary. *)
Definition analysis_of (char_name : string) (st : State) : Analysis :=
  match analysis_value_of char_name st with
  | AnObject a => a
  | NotAnObject _ => fallback_name_analysis char_name
  end.

Definition category_of (char_name : string) (st : State) : string :=
  select_voice_category (analysis_of char_name st).

(** The description text of a resolved profile. *)
Definition profile_description (a : Analysis) : string :=
  "AI-generated character with " +:+ gender a +:+ " voice, "
  +:+ age_group a +:+ " age group, "
  +:+ personality_trait a +:+ " personality".

(** The profile a first resolution of [char_name] builds in [st]. *)
Definition new_profile (char_name : string) (st : State) : Character :=
  let cat := category_of char_name st in
  let index := default 0%nat (voice_selection_index st !! cat) in
  let voices := available_voices cat in
  mkCharacter char_name (profile_description (analysis_of char_name st))
    (list_item voices (index mod length voices)) 1.0 1.0 0.0 "neutral".

(** A caller resolving a list of names one after the other. *)
Definition resolve_all (names : list string) : M State (list Character) :=
  for_each
    (fun acc n =>
       let* c := map_character_name_to_voice n in ret (acc ++ [c])%list)
    [] names.

(** The store after resolving [names] in order. *)
Definition after_resolving (names : list string) (st : State) : State :=
  fold_left (fun st n => snd (map_character_name_to_voice n st)) names st.

(** The voices handed out to new names of category [cat] while [names]
    are resolved in order from [st]; cache hits hand out nothing, and
    neither does a resolution that raises. *)
Fixpoint assigned_in (cat : string) (names : list string) (st : State)
  : list string :=
  match names with
  | [] => []
  | n :: rest =>
      let st' := snd (map_character_name_to_voice n st) in
      match name_voice_cache st !! n,
            fst (map_character_name_to_voice n st) with
      | None, Ok c =>
          if String.eqb (category_of n st) cat
          then voice_id c :: assigned_in cat rest st'
          else assigned_in cat rest st'
      | _, _ => assigned_in cat rest st'
      end
  end.

(** Every cached profile is filed under its own name. *)
Definition cache_named (st : State) : Prop :=
  forall k c, name_voice_cache st !! k = Some c -> name c = k.

(** The five categories the resolver can choose. *)
Definition resolver_categories : list string :=
  ["male"; "female"; "child"; "elder"; "villain"].

Definition same_analysis_cache (st st' : State) : Prop :=
  name_analysis_cache st' = name_analysis_cache st.

(** A decoded value that is not an object and yet passes the test of
    the required fields: an array or a string holding the five names. *)
Definition passes_as_analysis (v : Decoded) : bool :=
  match v with
  | DArray strings =>
      forallb (fun field => Py.str_in field strings) required_fields
  | DString text =>
      forallb (fun field => Py.contains field text) required_fields
  | DObject _ | DScalar => false
  end.

(** The content of the first choice of a reply, where it decodes at
    all, is no such value. *)
Definition plain_reply (o : Outcome) : Prop :=
  match o with
  | Responds r =>
      forall j choice rest m v,
        body r = Some j -> choices j = Some (choice :: rest) ->
        message choice = Some m -> content_json m = Some v ->
        passes_as_analysis v = false
  | ConnectionFails => True
  end.

(** The analysis cache holds dictionaries only. *)
Definition cache_objects (st : State) : Prop :=
  forall k v, name_analysis_cache st !! k = Some v -> exists a, v = AnObject a.

(** No analysis, cached or still to come from the service, is anything
    but a dictionary. *)
Definition classifier_plain (st : State) : Prop :=
  cache_objects st /\ Forall plain_reply (net (world st)).

(** The outcomes the network still holds are among those it held. *)
Definition net_shrinks (st st' : State) : Prop :=
  forall o, In o (net (world st')) -> In o (net (world st)).

(** The words the fallback analysis takes for a villain. *)
Definition villain_words : list string :=
  ["shadow"; "dark"; "grim"; "vex"; "mal"].

(** The stripped, non-blank lines of a story, in order. *)
Definition nonblank_lines (story : string) : list string :=
  List.filter (fun l => negb (Py.is_empty l))
              (map Py.strip (Py.split newline story)).

(** Speaker label and text of a stripped non-blank line, stated on its
    own: the label is what precedes the first colon, cut at the first
    opening parenthesis and stripped; a line without a colon belongs to
    the narrator whole. *)
Definition line_speaker_text (narrator_name : string) (line : string)
  : string * string :=
  if Py.contains_chr ":" line then
    match Py.split1 ":" line with
    | [label; rest] =>
        (Py.strip (default "" (head (Py.split "(" (Py.strip label)))),
         Py.strip rest)
    | _ => (narrator_name, line)
    end
  else (narrator_name, line).

(** What a caller can read off a segment. *)
Definition segment_view (seg : StorySegment)
  : option string * string * option string :=
  (name <$> character seg, text seg, audio_file seg).

Definition expected_view (narrator_name : string) (line : string)
  : option string * string * option string :=
  (Some (fst (line_speaker_text narrator_name line)),
   snd (line_speaker_text narrator_name line), None).

(** The cache only gains entries. *)
Definition cache_grows (st st' : State) : Prop :=
  forall k c, name_voice_cache st !! k = Some c ->
              name_voice_cache st' !! k = Some c.

(** A segment is spoken by the narrator object or by the profile the
    cache holds under the speaker's name. *)
Definition voiced_by (nar : Character) (st : State) (seg : StorySegment)
  : Prop :=
  exists c, character seg = Some c
            /\ (c = nar \/ name_voice_cache st !! name c = Some c).


(** ** Vocabulary of the further properties *)

(** Every timestamp of a window is a minute old or older. *)
Definition all_stale (now : Q) (ts : list Q) : Prop :=
  Forall (fun t => (60 <= now - t)%Q) ts.

(** The window is in ascending order and holds no stamp of the future. *)
Definition window_ordered (st : RateLimiter.t * World) : Prop :=
  StronglySorted Qle (RateLimiter.request_times (fst st))
  /\ Forall (fun t => (t <= clock (snd st))%Q)
            (RateLimiter.request_times (fst st)).

(** The sum of the counters of a per-model dictionary. *)
Definition counter_sum (m : gmap string Z) : Z :=
  map_fold (fun _ v acc => v + acc) 0 m.

(** The totals of a ledger agree with its per-model counters. *)
Definition ledger_consistent (u : UsageStats) : Prop :=
  total_calls u = counter_sum (calls_by_model u)
  /\ stats_total_tokens u = counter_sum (tokens_by_model u).

Definition ledger_ok (st : State) : Prop :=
  match api_usage_stats st with
  | Some u => ledger_consistent u
  | None => True
  end.

Definition keeps_ledger_ok (st st' : State) : Prop :=
  ledger_ok st -> ledger_ok st'.

Definition same_story (st st' : State) : Prop :=
  current_story st' = current_story st.

(** The tokens a decoded body reports for the call. *)
Definition reported_tokens (result : Json) : Z :=
  match usage result with
  | Some (UsageObject g) =>
      match count_or_zero (total_tokens g) with
      | CountInt total => total
      | CountOther => 0
      end
  | _ => 0
  end.

(** The audio a synthesis call gets out of the outcome that decides it:
    the decoded bytes, or nothing when the attempt failed, the body has no
    [data.audio], or the text is not hexadecimal. *)
Definition decoded_audio (o : Outcome) : option (list N) :=
  match checked_result o with
  | Ok response =>
      match body response with
      | Some result =>
          match data result with
          | Some d =>
              match audio d with
              | Some audio_hex => Py.fromhex audio_hex
              | None => None
              end
          | None => None
          end
      | None => None
      end
  | Raise _ => None
  end.

(** The voice settings of a character convert to integer percentages:
    none of [speed * 100], [volume * 100], [pitch * 100] is a NaN or an
    infinity. *)
Definition castable (c : Character) : Prop :=
  int_error (speed c * 100)%float = None
  /\ int_error (volume c * 100)%float = None
  /\ int_error (pitch c * 100)%float = None.

(** The output directory has a name and is there or can be created when
    the call asks for it. *)
Definition dir_ready (output_dir : string) (st : State) : Prop :=
  output_dir <> "" /\ hd true (mkdirs (world st)) = true.

(** The exception a synthesis call raises before its [try], if it
    does: the output directory has no name or cannot be created, or a
    voice setting does not convert to an integer. *)
Definition setup_error (output_dir : string) (char : Character) (st : State)
  : option Exn :=
  if Py.is_empty output_dir || negb (hd true (mkdirs (world st)))
  then Some (OSError output_dir)
  else match int_error (speed char * 100)%float with
       | Some e => Some e
       | None =>
           match int_error (volume char * 100)%float with
           | Some e => Some e
           | None => int_error (pitch char * 100)%float
           end
       end.

(** A segment whose character is there and has voice settings that
    convert. *)
Definition castable_segment (segment : StorySegment) : Prop :=
  match character segment with
  | Some c => castable c
  | None => False
  end.

(** The file system always finds or creates the directory asked for. *)
Definition mkdirs_granted (st : State) : Prop :=
  Forall (fun b => b = true) (mkdirs (world st)).

(** The bytes a synthesis call started in [st] writes: the audio decoded
    from the deciding outcome, if the file system lets the file be
    opened. *)
Definition written_audio (st : State) : option (list N) :=
  match decoded_audio (deciding_outcome st) with
  | Some bytes =>
      if hd true (opens (world st)) then Some bytes else None
  | None => None
  end.

(** The orchestrator's own data and its limits are the same, and the
    events [new] were logged. *)
Definition progressed (new : list Event) (st st' : State) : Prop :=
  same_self st st'
  /\ (forall svc, RateLimiter.requests_per_minute (limiter svc st')
                  = RateLimiter.requests_per_minute (limiter svc st))
  /\ events (world st') = (events (world st) ++ new)%list.

Definition has_character (seg : StorySegment) : Prop :=
  character seg <> None.

(** The body of the loop of [generate_full_story_audio]. *)
Definition audio_loop_body (output_dir : string) (audio_files : list string)
    (i : nat) : M State (list string) :=
  let* s := get in
  match story_segments s !! i with
  | None => ret audio_files
  | Some segment =>
      let* result := generate_audio_for_segment segment output_dir in
      let audio_file := fst result in
      let segment := snd result in
      modify (fun s =>
        set_story_segments (<[i := segment]> (story_segments s)) s) ;;
      match audio_file with
      | Some f => ret (audio_files ++ [f])%list
      | None => ret audio_files
      end
  end.

(** The limits of both limiters are the same. *)
Definition same_limits (st st' : State) : Prop :=
  forall svc, RateLimiter.requests_per_minute (limiter svc st')
              = RateLimiter.requests_per_minute (limiter svc st).

(** What the operations leave in place: the limits of the limiters, the
    stored segments, a narrator entry once there is one, and a cache
    filed by name once it is. *)
Definition kept (st st' : State) : Prop :=
  same_limits st st'
  /\ story_segments st' = story_segments st
  /\ (is_Some (characters st !! "narrator") ->
      is_Some (characters st' !! "narrator"))
  /\ (cache_named st -> cache_named st').

(** The same with the stored segments allowed to change in everything
    but their characters. *)
Definition kept_cast (st st' : State) : Prop :=
  same_limits st st'
  /\ map character (story_segments st') = map character (story_segments st)
  /\ (is_Some (characters st !! "narrator") ->
      is_Some (characters st' !! "narrator"))
  /\ (cache_named st -> cache_named st').

(** The file system's answers about directories are untouched. *)
Definition same_dirs (st st' : State) : Prop :=
  mkdirs (world st') = mkdirs (world st).

(** Every cached profile has voice settings that convert. *)
Definition cache_castable (st : State) : Prop :=
  forall k c, name_voice_cache st !! k = Some c -> castable c.

(** The cached profiles stay convertible. *)
Definition castable_kept (st st' : State) : Prop :=
  cache_castable st -> cache_castable st'.

(** The narrator entry, if there is one, has voice settings that
    convert. *)
Definition narrator_castable (st : State) : Prop :=
  forall nar, characters st !! "narrator" = Some nar -> castable nar.

(** The calls a user of the orchestrator can make, time passing between
    them included. *)
Inductive ApiCall : Type :=
| CallAddCharacter (c : Character)
| CallGenerateStory
| CallResolve (char_name : string)
| CallParse (story : string)
| CallSynthesize (output_dir : string)
| CallWait (seconds : Q).

Definition run_call (c : ApiCall) (st : State) : State :=
  match c with
  | CallAddCharacter ch => snd (add_character ch st)
  | CallGenerateStory => snd (generate_story st)
  | CallResolve n => snd (map_character_name_to_voice n st)
  | CallParse story => snd (parse_story_into_segments story st)
  | CallSynthesize dir => snd (generate_full_story_audio dir st)
  | CallWait d => set_world (elapse d (world st)) st
  end.

Definition run_calls (cs : list ApiCall) (st : State) : State :=
  fold_left (fun st c => run_call c st) cs st.

(** What the properties above ask of an orchestrator. *)
Definition ready (st : State) : Prop :=
  limiter_ok Chat st /\ limiter_ok Tts st
  /\ is_Some (characters st !! "narrator")
  /\ cache_named st
  /\ Forall has_character (story_segments st).

(** The speaker markers [generate_story] looks for in
    [reasoning_content]. *)
Definition reasoning_markers : list string :=
  ["NARRATOR:"; "HERO:"; "VILLAIN:"; "FRIEND:"; "WIZARD:"].

(** No character of [p] is whitespace. *)
Fixpoint no_space (p : string) : bool :=
  match p with
  | EmptyString => true
  | String c r => negb (Py.isspace c) && no_space r
  end.

(** The orchestrator with its [characters] dictionary changed by [g]. *)
Definition reshelve (g : gmap string Character -> gmap string Character)
    (st : State) : State :=
  set_characters (g (characters st)) st.

(** An operation that neither reads nor writes what [g] changes: run on
    the changed orchestrator it returns the same result and ends in the
    changed final state. *)
Definition oblivious {A} (g : gmap string Character -> gmap string Character)
    (m : M State A) : Prop :=
  forall st, m (reshelve g st) = (fst (m st), reshelve g (snd (m st))).
(** * Properties *)

(** ** Python string operations on examples *)

Example strip_ex : Py.strip "  Kael (angrily) " = "Kael (angrily)".
Proof. reflexivity. Qed.

Example split_ex : Py.split ":" "a:b:c" = ["a"; "b"; "c"].
Proof. reflexivity. Qed.

Example split1_ex : Py.split1 ":" "a:b:c" = ["a"; "b:c"].
Proof. reflexivity. Qed.

Example find_ex : Py.find "HERO:" "xx HERO: hi" = 3.
Proof. reflexivity. Qed.

Example lower_ex : Py.lower "KAEL" = "kael".
Proof. reflexivity. Qed.

(** ** Comparisons of clock readings *)

Lemma Qltb_true a b : Qltb a b = true <-> (a < b)%Q.
Proof.
  unfold Qltb. rewrite negb_true_iff. split.
  - intros H. apply Qnot_le_lt. intros Hle.
    apply Qle_bool_iff in Hle. congruence.
  - intros H. destruct (Qle_bool b a) eqn:E; [|reflexivity].
    apply Qle_bool_iff in E. lra.
Qed.

Lemma Qltb_false a b : Qltb a b = false <-> (b <= a)%Q.
Proof.
  unfold Qltb. rewrite negb_false_iff. apply Qle_bool_iff.
Qed.

(** ** RateLimiter: what the window holds when [wait_if_needed] returns *)

Section RateWindow.

Import RateLimiter.

Lemma prune_length now ts : (length (prune now ts) <= length ts)%nat.
Proof. unfold prune. apply List.filter_length_le. Qed.

Lemma prune_later now now' ts :
  (now <= now')%Q -> (length (prune now' ts) <= length (prune now ts))%nat.
Proof.
  intros Hle. induction ts as [|x ts IH]; simpl; [lia|].
  destruct (Qltb (now' - x) 60) eqn:E'.
  - apply Qltb_true in E'.
    assert (Qltb (now - x) 60 = true) as -> by (apply Qltb_true; lra).
    simpl. lia.
  - destruct (Qltb (now - x) 60); simpl; lia.
Qed.

Lemma prune_stale now x ts :
  In x ts -> (60 <= now - x)%Q -> (length (prune now ts) < length ts)%nat.
Proof.
  intros Hin Hst. induction ts as [|y ts IH]; simpl in *; [tauto|].
  destruct Hin as [->|Hin].
  - assert (Qltb (now - x) 60 = false) as -> by (apply Qltb_false; lra).
    pose proof (prune_length now ts). lia.
  - specialize (IH Hin). destruct (Qltb (now - y) 60); simpl; lia.
Qed.

Lemma prune_fresh now x ts : In x (prune now ts) -> (now - x < 60)%Q.
Proof.
  unfold prune. rewrite List.filter_In. intros [_ H].
  by apply Qltb_true.
Qed.

Lemma Qmin_list_In l m : Qmin_list l = Some m -> In m l.
Proof.
  revert m. induction l as [|x l IH]; simpl; intros m H; [discriminate|].
  destruct (Qmin_list l) as [m'|].
  - destruct (Qltb m' x); inversion H; subst; auto.
  - inversion H; auto.
Qed.

Lemma Qmin_list_None l : Qmin_list l = None -> l = [].
Proof.
  destruct l as [|x l]; simpl; [done|].
  destruct (Qmin_list l); discriminate.
Qed.

Lemma sleep_clock d w :
  lags_ok w -> (clock w + d <= clock (sleep d w))%Q.
Proof.
  intros Hl. unfold lags_ok in Hl.
  unfold sleep, log_event; simpl. rewrite Qred_correct.
  destruct (lags w) as [|x l]; simpl.
  - lra.
  - inversion Hl; subst. lra.
Qed.

Lemma sleep_lags d w : lags_ok w -> lags_ok (sleep d w).
Proof.
  unfold lags_ok, sleep, log_event; simpl. intros Hl.
  destruct (lags w); simpl; [constructor|]. by inversion Hl.
Qed.

Lemma elapse_clock d w : (clock (elapse d w) == clock w + d)%Q.
Proof. unfold elapse; simpl. apply Qred_correct. Qed.

(** What the tail of [wait_if_needed] does: it stamps, and sleeps at
    most once. *)
Lemma record_and_space_spec c r w :
  lags_ok w -> (clock w == c)%Q ->
  exists w',
    record_and_space c (r, w)
      = (Ok tt, (set_times r (request_times r ++ [c]), w'))
    /\ lags_ok w' /\ (c <= clock w')%Q.
Proof.
  intros Hl Hc. unfold record_and_space.
  cbn [set_times request_times min_interval requests_per_minute].
  destruct (1 <? Z.of_nat (length (request_times r ++ [c])))%Z eqn:Elen.
  - destruct (rev (request_times r ++ [c]) !! 1%nat) as [a|] eqn:Ea.
    + destruct (Qltb (c - a) (min_interval r)) eqn:Elt.
      * eexists; split; [reflexivity|].
        pose proof (sleep_clock (min_interval r - (c - a)) w Hl).
        apply Qltb_true in Elt.
        split; [by apply sleep_lags | lra].
      * eexists; split; [reflexivity|]. split; [done | lra].
    + eexists; split; [reflexivity|]. split; [done | lra].
  - eexists; split; [reflexivity|]. split; [done | lra].
Qed.

Lemma window_inv_acquire rpm st :
  (1 <= rpm)%Z -> window_inv rpm st ->
  fst (wait_if_needed st) = Ok tt
  /\ window_inv rpm (snd (wait_if_needed st)).
Proof.
  intros Hrpm (Hr & Hmi & Hlen & Hfresh & Hl).
  destruct st as [r w]; simpl in Hr, Hmi, Hlen, Hfresh, Hl.
  unfold wait_if_needed. cbv zeta.
  cbn [set_times request_times min_interval requests_per_minute].
  set (ts := prune (clock w) (request_times r)) in *.
  set (r1 := set_times r ts).
  destruct (Z.of_nat (length ts) >=? requests_per_minute r)%Z eqn:Efull;
    rewrite Z.geb_leb in Efull.
  - (* the window is full *)
    apply Z.leb_le in Efull.
    destruct (Qmin_list ts) as [oldest|] eqn:Emin.
    2:{ apply Qmin_list_None in Emin. rewrite Emin in Efull.
        simpl in Efull. lia. }
    pose proof (Qmin_list_In _ _ Emin) as Hin.
    pose proof (prune_fresh _ _ _ Hin) as Hyoung.
    set (d := (60 - (clock w - oldest) + 1)%Q).
    assert (Qltb 0 d = true) as -> by (apply Qltb_true; unfold d; lra).
    cbv iota.
    pose proof (sleep_clock d w Hl) as Hslept.
    destruct (record_and_space_spec (clock (sleep d w)) r1 (sleep d w))
      as (w' & -> & Hl' & Hc');
      [by apply sleep_lags | reflexivity |].
    subst r1.
    cbn [fst snd set_times request_times min_interval requests_per_minute].
    split; [reflexivity|].
    unfold window_inv.
    cbn [fst snd set_times request_times min_interval requests_per_minute].
    assert (Z.of_nat (length ts) = rpm) as Hts by lia.
    repeat split; [done | done | rewrite length_app; simpl; lia | | done].
    assert (In oldest (ts ++ [clock (sleep d w)])) as Hin'
      by (apply in_or_app; by left).
    assert (60 <= clock w' - oldest)%Q as Hstale by (unfold d in *; lra).
    pose proof (prune_stale _ _ _ Hin' Hstale) as Hlt.
    rewrite length_app in Hlt. cbn [length] in Hlt. lia.
  - (* room is left *)
    destruct (record_and_space_spec (clock w) r1 w)
      as (w' & -> & Hl' & Hc'); [done | reflexivity |].
    subst r1.
    cbn [fst snd set_times request_times min_interval requests_per_minute].
    split; [reflexivity|].
    unfold window_inv.
    cbn [fst snd set_times request_times min_interval requests_per_minute].
    apply Z.leb_gt in Efull.
    pose proof (prune_length (clock w') (ts ++ [clock w])) as Hp.
    rewrite length_app in *. cbn [length] in *.
    repeat split; [done | done | lia | lia | done].
Qed.

Lemma window_inv_idle rpm d st :
  (0 <= d)%Q -> window_inv rpm st -> window_inv rpm (limiter_step (Idle d) st).
Proof.
  intros Hd (Hr & Hmi & Hlen & Hfresh & Hl). destruct st as [r w].
  unfold window_inv; simpl in *.
  repeat split; [done | done | done | | done].
  assert (clock w <= Qred (clock w + d))%Q as Hlater
    by (rewrite Qred_correct; lra).
  pose proof (prune_later _ _ (request_times r) Hlater). lia.
Qed.

Lemma window_inv_run rpm ss st :
  (1 <= rpm)%Z -> steps_ok ss -> window_inv rpm st ->
  window_inv rpm (limiter_run ss st).
Proof.
  intros Hrpm Hss. revert st.
  induction Hss as [|s ss Hs Hss IH]; intros st Hinv; [done|].
  simpl. apply IH. destruct s as [|d].
  - by apply window_inv_acquire.
  - by apply window_inv_idle.
Qed.

Lemma window_inv_make rpm w :
  (1 <= rpm)%Z -> lags_ok w -> window_inv rpm (make rpm, w).
Proof. intros. unfold window_inv; simpl. repeat split; [lia | lia | done]. Qed.

(** C5 (amended): however acquisitions and idle periods alternate from
    a fresh limiter with a positive limit, every call of
    [wait_if_needed] returns, and on return the window list holds at
    most [limit + 1] timestamps, of which at most [limit] lie within the
    60 seconds before the clock reading at return. *)
Theorem wait_if_needed_window rpm ss w :
  (1 <= rpm)%Z -> lags_ok w -> steps_ok ss ->
  let st := limiter_run ss (make rpm, w) in
  let st' := snd (wait_if_needed st) in
  fst (wait_if_needed st) = Ok tt
  /\ (Z.of_nat (length (request_times (fst st'))) <= rpm + 1)%Z
  /\ (Z.of_nat (length (prune (clock (snd st')) (request_times (fst st'))))
      <= rpm)%Z.
Proof.
  intros Hrpm Hw Hss st st'.
  assert (window_inv rpm st) as Hinv
    by (apply window_inv_run; auto using window_inv_make).
  destruct (window_inv_acquire rpm st Hrpm Hinv) as (Hok & Hinv').
  destruct Hinv' as (_ & _ & Hlen & Hfresh & _).
  split; [exact Hok|]. split; [exact Hlen | exact Hfresh].
Qed.

Lemma wait_if_needed_window_witness :
  let st := limiter_run [Acquire] (make 50, quiet_world 0) in
  let st' := snd (wait_if_needed st) in
  fst (wait_if_needed st) = Ok tt
  /\ (Z.of_nat (length (request_times (fst st'))) <= 50 + 1)%Z
  /\ (Z.of_nat (length (prune (clock (snd st')) (request_times (fst st'))))
      <= 50)%Z.
Proof.
  apply (wait_if_needed_window 50 [Acquire] (quiet_world 0)).
  - lia.
  - constructor.
  - repeat constructor.
Defined.

(** C5 as stated fails on the configured synthesis limiter (50 per
    minute): two acquisitions at the same clock reading store the same
    timestamp twice, and the 51st acquisition in a row leaves 51
    timestamps in the list. *)
Lemma window_as_stated_fails :
  let two := fst (limiter_run [Acquire; Acquire] (make 50, quiet_world 0)) in
  let many := fst (limiter_run (repeat Acquire 51) (make 50, quiet_world 0)) in
  request_times two = [0%Q; 0%Q]
  /\ ~ last_two_apart (min_interval two) (request_times two)
  /\ length (request_times many) = 51%nat
  /\ ~ window_as_stated two
  /\ ~ window_as_stated many.
Proof.
  intros two many.
  assert (request_times two = [0%Q; 0%Q]) as Htwo by (vm_compute; reflexivity).
  assert (min_interval two = (60 / inject_Z 50)%Q) as Hmi by reflexivity.
  assert (length (request_times many) = 51%nat) as Hmany
    by (vm_compute; reflexivity).
  assert (requests_per_minute many = 50%Z) as Hrpm by (vm_compute; reflexivity).
  assert (~ last_two_apart (min_interval two) (request_times two)) as Hgap.
  { rewrite Htwo, Hmi. intros H.
    specialize (H 0%Q 0%Q eq_refl eq_refl). vm_compute in H. by apply H. }
  split; [exact Htwo|]. split; [exact Hgap|]. split; [exact Hmany|]. split.
  - intros [_ H]. by apply Hgap.
  - intros [H _]. rewrite Hmany, Hrpm in H. lia.
Qed.

End RateWindow.

(** ** The monad, and what the effects leave alone *)

Section Monad.

Context {S A B : Type}.

Lemma bind_ok (m : M S A) (k : A -> M S B) s a s' :
  m s = (Ok a, s') -> bind m k s = k a s'.
Proof. unfold bind. by intros ->. Qed.

Lemma bind_raise (m : M S A) (k : A -> M S B) s e s' :
  m s = (Raise e, s') -> bind m k s = (Raise e, s').
Proof. unfold bind. by intros ->. Qed.

Lemma try_ok (m : M S A) h s a s' :
  m s = (Ok a, s') -> try_except m h s = (Ok a, s').
Proof. unfold try_except. by intros ->. Qed.


End Monad.

Section Preserves.

Variable R : State -> State -> Prop.
Hypothesis R_refl : forall st, R st st.
Hypothesis R_trans : forall a b c, R a b -> R b c -> R a c.

Lemma preserves_ret {A} (a : A) : preserves R (ret a).
Proof. intros st. apply R_refl. Qed.

Lemma preserves_raise {A} e : preserves R (@raise State A e).
Proof. intros st. apply R_refl. Qed.

Lemma preserves_get : preserves R get.
Proof. intros st. apply R_refl. Qed.

Lemma preserves_bind {A B} (m : M State A) (k : A -> M State B) :
  preserves R m -> (forall a, preserves R (k a)) -> preserves R (bind m k).
Proof.
  intros Hm Hk st. unfold bind. specialize (Hm st).
  destruct (m st) as [[a|e] st1]; simpl in *; [|done].
  eapply R_trans; [exact Hm | apply Hk].
Qed.

Lemma preserves_try {A} (m : M State A) h :
  preserves R m -> (forall e, preserves R (h e)) ->
  preserves R (try_except m h).
Proof.
  intros Hm Hh st. unfold try_except. specialize (Hm st).
  destruct (m st) as [[a|e] st1]; simpl in *; [done|].
  eapply R_trans; [exact Hm | apply Hh].
Qed.

Lemma preserves_modify f : (forall st, R st (f st)) -> preserves R (modify f).
Proof. intros Hf st. apply Hf. Qed.

Lemma preserves_if {A} (b : bool) (m1 m2 : M State A) :
  preserves R m1 -> preserves R m2 -> preserves R (if b then m1 else m2).
Proof. by destruct b. Qed.

Lemma preserves_for_each {A B} (f : B -> A -> M State B) l acc :
  (forall b a, preserves R (f b a)) -> preserves R (for_each f acc l).
Proof.
  intros Hf. revert acc. induction l as [|x l IH]; intros acc; simpl.
  - apply preserves_ret.
  - apply preserves_bind; [apply Hf | intros b; apply IH].
Qed.

Lemma preserves_subscript {A} key (o : option A) :
  preserves R (subscript key o).
Proof. destruct o; [apply preserves_ret | apply preserves_raise]. Qed.

(** The effects on the world and on a limiter. *)
Hypothesis R_world : forall st w, R st (set_world w st).
Hypothesis R_limiter : forall st svc r, R st (set_limiter svc r st).

Lemma preserves_acquire svc : preserves R (acquire svc).
Proof.
  intros st. unfold acquire.
  destruct (RateLimiter.wait_if_needed (limiter svc st, world st))
    as [res [r w]]; simpl.
  eapply R_trans; [apply R_world | apply R_limiter].
Qed.

Lemma preserves_time_sleep d : preserves R (time_sleep d).
Proof. apply preserves_modify; intros st; apply R_world. Qed.

Lemma preserves_requests_post svc model :
  preserves R (requests_post svc model).
Proof.
  intros st. unfold requests_post.
  destruct (post svc model (world st)) as [[|r] w]; simpl; apply R_world.
Qed.

Lemma preserves_raise_for_status r : preserves R (raise_for_status r).
Proof.
  unfold raise_for_status.
  apply preserves_if; [apply preserves_raise | apply preserves_ret].
Qed.

Lemma preserves_response_json r : preserves R (response_json r).
Proof.
  unfold response_json.
  destruct (body r); [apply preserves_ret | apply preserves_raise].
Qed.

Lemma preserves_ensure_dir d : preserves R (ensure_dir d).
Proof.
  unfold ensure_dir. destruct (Py.is_empty d); [apply preserves_raise|].
  intros st. destruct (ask_mkdir (world st)) as [[|] w]; apply R_world.
Qed.

Lemma preserves_write_bytes f bytes : preserves R (write_bytes f bytes).
Proof.
  intros st. unfold write_bytes.
  destruct (ask_open (world st)) as [[|] w]; apply R_world.
Qed.

Lemma preserves_int_percent x : preserves R (int_percent x).
Proof.
  unfold int_percent.
  destruct (int_error _); [apply preserves_raise | apply preserves_ret].
Qed.

Lemma preserves_validate_fields v : preserves R (validate_fields v).
Proof.
  destruct v; simpl;
    repeat match goal with
           | |- context [if ?b then _ else _] => destruct b
           end; first [apply preserves_ret | apply preserves_raise].
Qed.

Lemma preserves_number c : preserves R (number c).
Proof. destruct c; [apply preserves_ret | apply preserves_raise]. Qed.

Lemma preserves_usage_object v : preserves R (usage_object v).
Proof. destruct v; [apply preserves_ret | apply preserves_raise]. Qed.

(** The usage block, for a relation the ledger updates keep. *)
Lemma preserves_record_usage model v :
  (forall f, preserves R (update_stats f)) ->
  preserves R (record_usage model v).
Proof.
  intros Hu. unfold record_usage.
  apply preserves_bind; [apply preserves_usage_object | intros g].
  apply preserves_bind; [apply preserves_number | intros total].
  apply preserves_bind; [apply Hu | intros _].
  apply preserves_bind; [|intros cost; apply Hu].
  apply preserves_if; [|apply preserves_ret].
  apply preserves_bind; [apply preserves_number | intros prompt].
  apply preserves_bind; [apply preserves_number | intros completion].
  apply preserves_ret.
Qed.

(** The request-and-retry text shared by lines 319-335 and 1010-1035. *)
Lemma preserves_retry svc model (response : Response) :
  preserves R
    (if (status_code response =? 429)%Z then
       (let* s := get in time_sleep (retry_delay s)) ;;
       acquire svc ;;
       requests_post svc model
     else ret response).
Proof.
  apply preserves_if; [|apply preserves_ret].
  apply preserves_bind.
  - apply preserves_bind; [apply preserves_get|].
    intros s. apply preserves_time_sleep.
  - intros _. apply preserves_bind; [apply preserves_acquire|].
    intros _. apply preserves_requests_post.
Qed.

End Preserves.

(** One step through a computation, for a relation whose four closure
    facts are given. *)
Ltac preserves_step Hrefl Htrans Hworld Hlimiter :=
  first
    [ apply preserves_ret | apply preserves_raise | apply preserves_get
    | apply preserves_acquire | apply preserves_requests_post
    | apply preserves_retry | apply preserves_raise_for_status
    | apply preserves_response_json | apply preserves_time_sleep
    | apply preserves_subscript | apply preserves_ensure_dir
    | apply preserves_write_bytes | apply preserves_int_percent
    | apply preserves_number | apply preserves_usage_object
    | apply preserves_validate_fields
    | apply preserves_bind; [..|intros ?] ];
  try exact Hrefl; try exact Htrans; try exact Hworld; try exact Hlimiter.

(** ** Synthesis and the usage ledger *)

Section SynthesisUsage.

Lemma same_usage_refl st : same_usage st st.
Proof. reflexivity. Qed.

Lemma same_usage_trans a b c :
  same_usage a b -> same_usage b c -> same_usage a c.
Proof. unfold same_usage. congruence. Qed.

Lemma same_usage_world st w : same_usage st (set_world w st).
Proof. reflexivity. Qed.

Lemma same_usage_limiter st svc r : same_usage st (set_limiter svc r st).
Proof. by destruct svc. Qed.

Local Ltac usage_step :=
  preserves_step same_usage_refl same_usage_trans
                 same_usage_world same_usage_limiter.

Lemma synthesis_keeps_usage segment output_dir :
  preserves same_usage (generate_audio_for_segment segment output_dir).
Proof.
  unfold generate_audio_for_segment.
  usage_step; [destruct (character segment); usage_step|].
  repeat usage_step.
  apply preserves_try; [exact same_usage_trans | |].
  - repeat usage_step.
    repeat match goal with
           | |- context [match ?x with Some _ => _ | None => _ end] =>
               destruct x
           end; repeat usage_step.
  - intros e. destruct (is_request_exception e); usage_step.
Qed.

End SynthesisUsage.

(** ** Acquiring a limiter, seen from the orchestrator *)

Section Acquire.

Lemma only_sleeps_refl w : only_sleeps w w.
Proof.
  split; [done|]. split; [done|]. split; [|done].
  exists []. split; [by rewrite app_nil_r | done].
Qed.

Lemma count_posts_app a b :
  count_posts (a ++ b) = (count_posts a + count_posts b)%nat.
Proof. unfold count_posts. by rewrite List.filter_app, length_app. Qed.

Lemma only_sleeps_trans a b c :
  only_sleeps a b -> only_sleeps b c -> only_sleeps a c.
Proof.
  intros (Hn1 & Hf1 & (s1 & He1 & Hc1) & Hm1 & Ho1)
         (Hn2 & Hf2 & (s2 & He2 & Hc2) & Hm2 & Ho2).
  split; [congruence|]. split; [congruence|].
  split; [|split; congruence].
  exists (s1 ++ s2)%list. split.
  - rewrite He2, He1. by rewrite <- app_assoc.
  - rewrite count_posts_app. lia.
Qed.

Lemma only_sleeps_sleep d w : only_sleeps w (sleep d w).
Proof.
  split; [done|]. split; [done|]. split; [|done]. by exists [EvSleep d].
Qed.

Lemma record_and_space_frame c r w :
  exists r' w',
    RateLimiter.record_and_space c (r, w) = (Ok tt, (r', w'))
    /\ RateLimiter.requests_per_minute r' = RateLimiter.requests_per_minute r
    /\ only_sleeps w w'.
Proof.
  unfold RateLimiter.record_and_space. cbv zeta.
  repeat match goal with
         | |- context [if ?b then _ else _] => destruct b
         | |- context [match ?x with Some _ => _ | None => _ end] => destruct x
         end;
    do 2 eexists; (split; [reflexivity|]); split; try reflexivity;
    auto using only_sleeps_refl, only_sleeps_sleep.
Qed.

Lemma wait_if_needed_frame r w :
  exists res r' w',
    RateLimiter.wait_if_needed (r, w) = (res, (r', w'))
    /\ RateLimiter.requests_per_minute r' = RateLimiter.requests_per_minute r
    /\ only_sleeps w w'
    /\ ((1 <= RateLimiter.requests_per_minute r)%Z -> res = Ok tt).
Proof.
  unfold RateLimiter.wait_if_needed. cbv zeta.
  set (r1 := RateLimiter.set_times r _).
  destruct (Z.of_nat (length (RateLimiter.request_times r1))
            >=? RateLimiter.requests_per_minute r1)%Z eqn:Efull.
  - destruct (Qmin_list (RateLimiter.request_times r1)) as [oldest|] eqn:Emin.
    + destruct (Qltb 0 _).
      * destruct (record_and_space_frame
                    (clock (sleep (60 - (clock w - oldest) + 1) w)) r1
                    (sleep (60 - (clock w - oldest) + 1) w))
          as (r' & w' & -> & Hr & Hs).
        exists (Ok tt), r', w'.
        split; [reflexivity|]. split; [exact Hr|]. split; [|done].
        eapply only_sleeps_trans; [apply only_sleeps_sleep | exact Hs].
      * destruct (record_and_space_frame (clock w) r1 w)
          as (r' & w' & -> & Hr & Hs).
        exists (Ok tt), r', w'.
    split; [reflexivity|]. split; [exact Hr|]. split; [exact Hs|done].
    + do 3 eexists. split; [reflexivity|].
      split; [reflexivity|]. split; [apply only_sleeps_refl|].
      intros Hrpm. apply Qmin_list_None in Emin. rewrite Emin in Efull.
      rewrite Z.geb_leb in Efull. apply Z.leb_le in Efull.
      simpl in Efull. lia.
  - destruct (record_and_space_frame (clock w) r1 w)
      as (r' & w' & -> & Hr & Hs).
    exists (Ok tt), r', w'.
    split; [reflexivity|]. split; [exact Hr|]. split; [exact Hs|done].
Qed.

Lemma acquire_spec svc st :
  exists res r' w',
    acquire svc st = (res, set_limiter svc r' (set_world w' st))
    /\ RateLimiter.requests_per_minute r'
       = RateLimiter.requests_per_minute (limiter svc st)
    /\ only_sleeps (world st) w'
    /\ (limiter_ok svc st -> res = Ok tt).
Proof.
  unfold acquire.
  destruct (wait_if_needed_frame (limiter svc st) (world st))
    as (res & r' & w' & -> & Hr & Hs & Hok).
  by exists res, r', w'.
Qed.

Lemma prune_sublist now ts : sublist (RateLimiter.prune now ts) ts.
Proof.
  unfold RateLimiter.prune. induction ts as [|x ts IH]; simpl; [constructor|].
  destruct (Qltb (now - x) 60); by constructor.
Qed.

(** An acquisition on a limiter with a positive limit returns; it leaves
    on the window what the pruning at entry kept, followed by one new
    stamp, a clock reading taken between entry and return. *)
Lemma wait_if_needed_stamp r w :
  (1 <= RateLimiter.requests_per_minute r)%Z -> lags_ok w ->
  exists t r' w',
    RateLimiter.wait_if_needed (r, w) = (Ok tt, (r', w'))
    /\ RateLimiter.request_times r'
       = (RateLimiter.prune (clock w) (RateLimiter.request_times r) ++ [t])%list
    /\ (clock w <= t)%Q /\ (t <= clock w')%Q /\ lags_ok w'.
Proof.
  intros Hrpm Hl. unfold RateLimiter.wait_if_needed. cbv zeta.
  set (r1 := RateLimiter.set_times r _).
  destruct (Z.of_nat (length (RateLimiter.request_times r1))
            >=? RateLimiter.requests_per_minute r1)%Z eqn:Efull.
  - destruct (Qmin_list (RateLimiter.request_times r1)) as [oldest|] eqn:Emin.
    + destruct (Qltb 0 (60 - (clock w - oldest) + 1)) eqn:Ewait.
      * apply Qltb_true in Ewait.
        pose proof (sleep_clock (60 - (clock w - oldest) + 1) w Hl) as Hc.
        destruct (record_and_space_spec
                    (clock (sleep (60 - (clock w - oldest) + 1) w)) r1
                    (sleep (60 - (clock w - oldest) + 1) w))
          as (w' & -> & Hl' & Hc'); [by apply sleep_lags | reflexivity |].
        do 3 eexists. split; [reflexivity|].
        split; [reflexivity|]. split; [lra|]. split; [exact Hc' | exact Hl'].
      * destruct (record_and_space_spec (clock w) r1 w)
          as (w' & -> & Hl' & Hc'); [done | reflexivity |].
        do 3 eexists. split; [reflexivity|].
        split; [reflexivity|]. split; [lra|]. split; [exact Hc' | exact Hl'].
    + apply Qmin_list_None in Emin. rewrite Emin in Efull.
      rewrite Z.geb_leb in Efull. apply Z.leb_le in Efull.
      subst r1. simpl in Efull. lia.
  - destruct (record_and_space_spec (clock w) r1 w)
      as (w' & -> & Hl' & Hc'); [done | reflexivity |].
    do 3 eexists. split; [reflexivity|].
    split; [reflexivity|]. split; [lra|]. split; [exact Hc' | exact Hl'].
Qed.

End Acquire.

(** ** One request, retried at most once *)

Section Send.

Lemma same_self_refl st : same_self st st.
Proof. by repeat split. Qed.

Lemma same_self_trans a b c : same_self a b -> same_self b c -> same_self a c.
Proof.
  unfold same_self. intros H1 H2.
  destruct_and!. repeat split; congruence.
Qed.

Lemma same_self_world st w : same_self st (set_world w st).
Proof. by repeat split. Qed.

Lemma same_self_limiter st svc r : same_self st (set_limiter svc r st).
Proof. destruct svc; by repeat split. Qed.

Lemma sent_refl st : sent 0 [] st st.
Proof.
  split; [apply same_self_refl|]. split; [done|].
  split; [done|]. split; [by rewrite app_nil_r | done].
Qed.

Lemma sent_trans n m a b st st1 st2 :
  sent n a st st1 -> sent m b st1 st2 -> sent (n + m) (a ++ b) st st2.
Proof.
  intros (Hs1 & Hl1 & Hn1 & He1 & Hf1 & Hm1 & Ho1)
         (Hs2 & Hl2 & Hn2 & He2 & Hf2 & Hm2 & Ho2).
  split; [by eapply same_self_trans|].
  split; [intros svc; by rewrite Hl2, Hl1|].
  split; [by rewrite Hn2, Hn1, drop_drop|].
  split; [by rewrite He2, He1, app_assoc|].
  split; [congruence|]. split; congruence.
Qed.

Lemma sent_outcome n new st st' i :
  sent n new st st' -> outcome_at i st' = outcome_at (n + i) st.
Proof.
  intros (_ & _ & Hn & _). unfold outcome_at. by rewrite Hn, lookup_drop.
Qed.

Lemma sent_limiter_ok n new st st' svc :
  sent n new st st' -> limiter_ok svc st -> limiter_ok svc st'.
Proof. intros (_ & Hl & _). unfold limiter_ok. by rewrite Hl. Qed.

Lemma sent_new_events n new st st' :
  sent n new st st' -> new_events st st' = new.
Proof.
  intros (_ & _ & _ & He & _). unfold new_events.
  by rewrite He, drop_app_length.
Qed.

Lemma world_set_limiter svc r st : world (set_limiter svc r st) = world st.
Proof. by destruct svc. Qed.

Lemma limiter_set_limiter svc svc' r st :
  RateLimiter.requests_per_minute (limiter svc' (set_limiter svc r st))
  = if bool_decide (svc' = svc) then RateLimiter.requests_per_minute r
    else RateLimiter.requests_per_minute (limiter svc' st).
Proof. by destruct svc, svc'. Qed.

Lemma limiter_set_same svc r st : limiter svc (set_limiter svc r st) = r.
Proof. by destruct svc. Qed.

Lemma acquire_sent svc st :
  limiter_ok svc st ->
  exists sl st',
    acquire svc st = (Ok tt, st') /\ sent 0 sl st st' /\ count_posts sl = 0%nat.
Proof.
  intros Hok.
  destruct (acquire_spec svc st)
    as (res & r' & w' & Heq & Hr & (Hn & Hf & (sl & He & Hc) & Hm & Ho) & Hres).
  rewrite (Hres Hok) in Heq. exists sl. eexists. split; [exact Heq|].
  split; [|exact Hc].
  split; [eapply same_self_trans;
          [apply same_self_world | apply same_self_limiter]|].
  split.
  { intros svc'. rewrite limiter_set_limiter.
    case_bool_decide as E; [by rewrite E, Hr | by destruct svc']. }
  rewrite world_set_limiter. simpl. by rewrite drop_0.
Qed.

Lemma acquire_stamp svc st :
  limiter_ok svc st -> lags_ok (world st) ->
  exists t st',
    acquire svc st = (Ok tt, st')
    /\ RateLimiter.request_times (limiter svc st')
       = (RateLimiter.prune (clock (world st))
            (RateLimiter.request_times (limiter svc st)) ++ [t])%list
    /\ (clock (world st) <= t)%Q /\ (t <= clock (world st'))%Q
    /\ lags_ok (world st').
Proof.
  intros Hok Hl. unfold acquire.
  destruct (wait_if_needed_stamp (limiter svc st) (world st) Hok Hl)
    as (t & r' & w' & -> & Ht & H1 & H2 & Hl').
  exists t. eexists. split; [reflexivity|].
  rewrite limiter_set_same, world_set_limiter. simpl. by repeat split.
Qed.

Lemma post_sent svc model st :
  exists st',
    requests_post svc model st = (post_result (outcome_at 0 st), st')
    /\ sent 1 [EvPost svc model] st st'.
Proof.
  unfold requests_post, post, outcome_at.
  destruct (net (world st)) as [|o rest] eqn:En; simpl.
  - eexists. split; [reflexivity|].
    split; [apply same_self_world|]. split; [by intros []|].
    simpl. by rewrite En.
  - destruct o as [|r]; simpl; (eexists; split; [reflexivity|]);
      (split; [apply same_self_world|]); (split; [by intros []|]);
      simpl; by rewrite ?En, ?drop_0.
Qed.

(** A post moves neither the clock nor a limiter. *)
Lemma post_keeps svc model st :
  let st' := snd (requests_post svc model st) in
  clock (world st') = clock (world st)
  /\ lags (world st') = lags (world st)
  /\ forall svc', limiter svc' st' = limiter svc' st.
Proof.
  unfold requests_post, post.
  destruct (net (world st)) as [|[|r] rest]; simpl;
    (split; [reflexivity|]); (split; [reflexivity|]); by intros [].
Qed.

Lemma sleep_sent d st :
  exists st', time_sleep d st = (Ok tt, st') /\ sent 0 [EvSleep d] st st'.
Proof.
  eexists. split; [reflexivity|].
  split; [apply same_self_world|]. split; [by intros []|].
  simpl. by rewrite drop_0.
Qed.

Lemma sleep_keeps d st :
  lags_ok (world st) ->
  let st' := snd (time_sleep d st) in
  (clock (world st) + d <= clock (world st'))%Q
  /\ lags_ok (world st')
  /\ forall svc', limiter svc' st' = limiter svc' st.
Proof.
  intros Hl. simpl. split; [by apply sleep_clock|].
  split; [by apply sleep_lags | by intros []].
Qed.

Lemma stamped_one svc model st st1 st2 res :
  limiter_ok svc st -> lags_ok (world st) ->
  is_throttle (outcome_at 0 st) = false ->
  acquire svc st = (Ok tt, st1) ->
  requests_post svc model st1 = (res, st2) ->
  stamped svc st st2.
Proof.
  intros Hok Hl Hthr Ha Hp. unfold stamped. rewrite Hthr.
  destruct (acquire_stamp svc st Hok Hl) as (t & st1' & Ha' & Ht & H1 & H2 & _).
  assert (st1' = st1) as -> by congruence.
  destruct (post_keeps svc model st1) as (Hc & _ & Hlim).
  rewrite Hp in Hc, Hlim. simpl in Hc, Hlim.
  eexists _, t. rewrite Hlim, Hc. split; [exact Ht|].
  split; [apply prune_sublist|]. by split.
Qed.

Lemma stamped_two svc model st st1 st2 st3 st4 st5 res1 res2 :
  limiter_ok svc st -> limiter_ok svc st3 -> lags_ok (world st) ->
  is_throttle (outcome_at 0 st) = true ->
  acquire svc st = (Ok tt, st1) ->
  requests_post svc model st1 = (res1, st2) ->
  time_sleep (retry_delay st) st2 = (Ok tt, st3) ->
  acquire svc st3 = (Ok tt, st4) ->
  requests_post svc model st4 = (res2, st5) ->
  stamped svc st st5.
Proof.
  intros Hok Hok3 Hl Hthr Ha1 Hp1 Hs Ha2 Hp2. unfold stamped. rewrite Hthr.
  destruct (acquire_stamp svc st Hok Hl)
    as (t1 & st1' & Ha1' & Ht1 & H11 & H12 & Hl1).
  assert (st1' = st1) as -> by congruence.
  destruct (post_keeps svc model st1) as (Hc2 & Hlag2 & Hlim2).
  rewrite Hp1 in Hc2, Hlag2, Hlim2. simpl in Hc2, Hlag2, Hlim2.
  assert (lags_ok (world st2)) as Hl2 by (unfold lags_ok; by rewrite Hlag2).
  destruct (sleep_keeps (retry_delay st) st2 Hl2) as (Hc3 & Hl3 & Hlim3).
  rewrite Hs in Hc3, Hl3, Hlim3. simpl in Hc3, Hl3, Hlim3.
  destruct (acquire_stamp svc st3 Hok3 Hl3)
    as (t2 & st4' & Ha2' & Ht2 & H21 & H22 & _).
  assert (st4' = st4) as -> by congruence.
  destruct (post_keeps svc model st4) as (Hc5 & _ & Hlim5).
  rewrite Hp2 in Hc5, Hlim5. simpl in Hc5, Hlim5.
  eexists _, t1, t2. rewrite Hlim5, Hc5. split; [exact Ht2|].
  rewrite Hlim3, Hlim2, Ht1.
  split; [etrans; [apply prune_sublist|];
          apply sublist_app; [apply prune_sublist | reflexivity]|].
  split; [exact H11|]. split; [|exact H22].
  rewrite Hc2 in Hc3. intros Hpos. lra.
Qed.

Lemma send_spec svc model st :
  limiter_ok svc st ->
  exists new st',
    snd (send svc model st) = st'
    /\ (lags_ok (world st) -> stamped svc st st')
    /\ if is_throttle (outcome_at 0 st) then
         fst (send svc model st) = checked_result (outcome_at 1 st)
         /\ sent 2 new st st'
         /\ two_attempts svc model (retry_delay st) new
       else
         fst (send svc model st) = checked_result (outcome_at 0 st)
         /\ sent 1 new st st'
         /\ one_attempt svc model new.
Proof.
  intros Hok. unfold send.
  destruct (acquire_sent svc st Hok) as (sl1 & st1 & Ha1 & Hs1 & Hc1).
  rewrite (bind_ok _ _ _ _ _ Ha1).
  destruct (post_sent svc model st1) as (st2 & Hp1 & Hs2).
  rewrite (sent_outcome _ _ _ _ _ Hs1) in Hp1. simpl in Hp1.
  pose proof (sent_trans _ _ _ _ _ _ _ Hs1 Hs2) as Hs12. simpl in Hs12.
  destruct (is_throttle (outcome_at 0 st)) eqn:Ethr.
  - (* throttled: sleep, acquire, post again *)
    destruct (outcome_at 0 st) as [|r] eqn:Eo; [discriminate|].
    simpl in Ethr, Hp1. rewrite (bind_ok _ _ _ _ _ Hp1). simpl. rewrite Ethr.
    destruct (sleep_sent (retry_delay st2) st2) as (st3 & Hsl & Hs3).
    assert (retry_delay st2 = retry_delay st) as Hrd
      by (destruct Hs12 as ((-> & _) & _); done).
    pose proof (sent_trans _ _ _ _ _ _ _ Hs12 Hs3) as Hs123. simpl in Hs123.
    assert (limiter_ok svc st3) as Hok3
      by (eapply sent_limiter_ok; [exact Hs123 | exact Hok]).
    destruct (acquire_sent svc st3 Hok3) as (sl2 & st4 & Ha2 & Hs4 & Hc2).
    pose proof (sent_trans _ _ _ _ _ _ _ Hs123 Hs4) as Hs1234.
    simpl in Hs1234.
    destruct (post_sent svc model st4) as (st5 & Hp2 & Hs5).
    rewrite (sent_outcome _ _ _ _ _ Hs1234) in Hp2. simpl in Hp2.
    pose proof (sent_trans _ _ _ _ _ _ _ Hs1234 Hs5) as Hall.
    simpl in Hall.
    assert (((let* s := get in time_sleep (retry_delay s));;
             acquire svc;; requests_post svc model) st2
            = (post_result (outcome_at 1 st), st5)) as Hretry.
    { unfold bind at 1. unfold bind at 1. unfold get at 1.
      rewrite Hsl. rewrite (bind_ok _ _ _ _ _ Ha2). exact Hp2. }
    assert (lags_ok (world st) -> stamped svc st st5) as Hstamp.
    { intros Hl. rewrite Hrd in Hsl.
      eapply (stamped_two svc model st st1 st2 st3 st4 st5); eauto.
      by rewrite Eo. }
    exists ((((sl1 ++ [EvPost svc model]) ++ [EvSleep (retry_delay st2)])
              ++ sl2) ++ [EvPost svc model])%list.
    destruct (outcome_at 1 st) as [|r2] eqn:Eo1; simpl in Hretry.
    + rewrite (bind_raise _ _ _ _ _ Hretry). simpl.
      eexists. split; [reflexivity|]. split; [exact Hstamp|].
      split; [reflexivity|]. split; [exact Hall|].
      exists sl1, sl2. rewrite Hrd, <- !app_assoc. by simpl.
    + rewrite (bind_ok _ _ _ _ _ Hretry).
      unfold raise_for_status, checked_result.
      destruct ((400 <=? status_code r2) && (status_code r2 <? 600))%Z;
        simpl; (eexists; split; [reflexivity|]); (split; [exact Hstamp|]);
        (split; [reflexivity|]); (split; [exact Hall|]);
        exists sl1, sl2; rewrite Hrd, <- !app_assoc; by simpl.
  - (* not throttled *)
    assert (lags_ok (world st) -> stamped svc st st2) as Hstamp.
    { intros Hl. eapply (stamped_one svc model st st1 st2); eauto. }
    destruct (outcome_at 0 st) as [|r] eqn:Eo; simpl in Hp1, Ethr.
    { rewrite (bind_raise _ _ _ _ _ Hp1). simpl.
      do 2 eexists. split; [reflexivity|]. split; [exact Hstamp|].
      split; [reflexivity|]. split; [exact Hs12|]. by exists sl1. }
    rewrite (bind_ok _ _ _ _ _ Hp1). simpl. rewrite Ethr.
    unfold bind, ret, raise, raise_for_status, checked_result.
    destruct ((400 <=? status_code r) && (status_code r <? 600))%Z;
      simpl; do 2 eexists; (split; [reflexivity|]); (split; [exact Hstamp|]);
      (split; [reflexivity|]); (split; [exact Hs12|]); by exists sl1.
Qed.

End Send.

(** ** [make_api_call] through [send] *)

Section MakeApiCall.

(** Case analysis on the next stage of a pipeline of [bind]s. *)
Ltac next_stage :=
  cbv beta;
  match goal with
  | |- context [match ?m ?s with pair _ _ => _ end] =>
      destruct (m s) as [[?|?] ?]
  end.

Lemma make_api_call_send model_type st :
  make_api_call model_type st
  = (update_stats (fun u => u) ;;
     let* response := send Chat (model_of model_type) in
     let* result := response_json response in
     update_stats (track_call (model_of model_type)) ;;
     (match usage result with
      | Some v => record_usage (model_of model_type) v
      | None => ret tt
      end) ;;
     ret result) st.
Proof.
  unfold make_api_call, send, model_of. unfold bind.
  repeat (next_stage; try reflexivity).
Qed.

Lemma send_decides svc model st :
  limiter_ok svc st ->
  exists n new st',
    send svc model st = (checked_result (deciding_outcome st), st')
    /\ sent n new st st' /\ call_events svc model st new
    /\ (lags_ok (world st) -> stamped svc st st').
Proof.
  intros Hok.
  destruct (send_spec svc model st Hok) as (new & st' & Hsnd & Hst & H).
  unfold deciding_outcome, call_events.
  destruct (send svc model st) as [res st2]. simpl in *. subst st2.
  destruct (is_throttle (outcome_at 0 st));
    destruct H as (-> & Hsent & Hev); eauto 8.
Qed.

(** Lines 339-374 on a decoded body: what they raise, and the ledger
    they leave. *)
Lemma track_result_spec model j st u0 :
  api_usage_stats st = Some u0 ->
  let run :=
    (update_stats (track_call model) ;;
     (match usage j with
      | Some v => record_usage model v
      | None => ret tt
      end) ;;
     ret j) st in
  fst run = match usage_error model j with
            | Some e => Raise e
            | None => Ok j
            end
  /\ snd run = set_api_usage_stats (Some (ledger_after model j u0)) st.
Proof.
  intros Hu. destruct st; simpl in Hu; subst.
  unfold record_usage, usage_object, number, usage_error, ledger_after,
    count_or_zero, update_stats, modify, bind, ret, raise. cbv beta.
  destruct (usage j) as [[[[[p|]|] [[c|]|] [[t|]|]]|]|];
    cbn [prompt_tokens completion_tokens total_tokens default fst snd
         api_usage_stats set_api_usage_stats];
    try (split; reflexivity);
    destruct (priced_by_tokens model); split; reflexivity.
Qed.

Lemma make_api_call_spec model_type st :
  limiter_ok Chat st ->
  let u0 := default empty_usage_stats (api_usage_stats st) in
  let model := model_of model_type in
  let st' := snd (make_api_call model_type st) in
  (exists new, events (world st') = (events (world st) ++ new)%list
               /\ call_events Chat model st new)
  /\ match failure_of (deciding_outcome st) with
     | Some e =>
         fst (make_api_call model_type st) = Raise e
         /\ api_usage_stats st' = Some u0
     | None =>
         exists r j,
           deciding_outcome st = Responds r /\ body r = Some j
           /\ fst (make_api_call model_type st)
              = match usage_error model j with
                | Some e => Raise e
                | None => Ok j
                end
           /\ api_usage_stats st' = Some (ledger_after model j u0)
     end.
Proof.
  intros Hok u0 model st'. subst st'. rewrite make_api_call_send.
  set (st0 := set_api_usage_stats (Some u0) st).
  assert (update_stats (fun u => u) st = (Ok tt, st0)) as H0 by reflexivity.
  rewrite (bind_ok _ _ _ _ _ H0).
  destruct (send_decides Chat (model_of model_type) st0 Hok)
    as (n & new & st2 & Hsend & Hsent & Hev & _).
  change (deciding_outcome st0) with (deciding_outcome st) in Hsend.
  change (call_events Chat (model_of model_type) st0 new)
    with (call_events Chat model st new) in Hev.
  destruct Hsent as (Hself & _ & _ & Hevents & _).
  assert (api_usage_stats st2 = Some u0) as Hu
    by (destruct Hself as (_ & _ & _ & _ & _ & _ & _ & _ & ->); done).
  change (events (world st0)) with (events (world st)) in Hevents.
  destruct (deciding_outcome st) as [|r] eqn:Eo; simpl in Hsend |- *.
  { rewrite (bind_raise _ _ _ _ _ Hsend). simpl. eauto. }
  destruct ((400 <=? status_code r) && (status_code r <? 600))%Z.
  { rewrite (bind_raise _ _ _ _ _ Hsend). simpl. eauto. }
  rewrite (bind_ok _ _ _ _ _ Hsend). unfold response_json.
  destruct (body r) as [j|] eqn:Ebody.
  - destruct (track_result_spec (model_of model_type) j st2 u0 Hu)
      as [Hres Hst].
    rewrite (bind_ok (ret j) _ st2 j st2 eq_refl).
    split.
    + exists new. split; [|exact Hev]. rewrite Hst. exact Hevents.
    + exists r, j. split; [reflexivity|]. split; [exact Ebody|].
      split; [exact Hres|]. by rewrite Hst.
  - unfold bind, raise. simpl. eauto.
Qed.

(** The world and the limiters after the call are those [send] leaves. *)
Lemma make_api_call_stamped model_type st :
  limiter_ok Chat st -> lags_ok (world st) ->
  stamped Chat st (snd (make_api_call model_type st)).
Proof.
  intros Hok Hl. rewrite make_api_call_send.
  set (u0 := default empty_usage_stats (api_usage_stats st)).
  set (st0 := set_api_usage_stats (Some u0) st).
  assert (update_stats (fun u => u) st = (Ok tt, st0)) as H0 by reflexivity.
  rewrite (bind_ok _ _ _ _ _ H0).
  destruct (send_decides Chat (model_of model_type) st0 Hok)
    as (n & new & st2 & Hsend & Hsent & _ & Hstamp).
  specialize (Hstamp Hl).
  assert (forall st3, world st3 = world st2 ->
                      (forall svc, limiter svc st3 = limiter svc st2) ->
                      stamped Chat st st3) as Hsame.
  { intros st3 Hw Hlim. unfold stamped in *.
    change (outcome_at 0 st0) with (outcome_at 0 st) in Hstamp.
    rewrite Hw, Hlim. exact Hstamp. }
  destruct (checked_result (deciding_outcome st0)) as [response|e].
  2:{ rewrite (bind_raise _ _ _ _ _ Hsend). by apply Hsame. }
  rewrite (bind_ok _ _ _ _ _ Hsend). unfold response_json.
  destruct (body response) as [j|].
  2:{ rewrite (bind_raise (raise _) _ st2 _ st2 eq_refl). by apply Hsame. }
  rewrite (bind_ok (ret j) _ st2 j st2 eq_refl).
  assert (api_usage_stats st2 = Some u0) as Hu
    by (destruct Hsent as ((_ & _ & _ & _ & _ & _ & _ & _ & ->) & _); done).
  destruct (track_result_spec (model_of model_type) j st2 u0 Hu) as [_ ->].
  apply Hsame; [reflexivity | by intros []].
Qed.

End MakeApiCall.

(** ** [generate_audio_for_segment] through [send] *)

Section Synthesis.

Ltac next_stage :=
  cbv beta;
  match goal with
  | |- context [match ?m ?s with pair _ _ => _ end] =>
      destruct (m s) as [[?|?] ?]
  end.

Lemma setup_error_none output_dir char st :
  dir_ready output_dir st -> castable char ->
  setup_error output_dir char st = None.
Proof.
  intros [Hne Hdir] (Hs & Hv & Hp). unfold setup_error.
  destruct output_dir; [done|]. simpl. by rewrite Hdir, Hs, Hv, Hp.
Qed.

Lemma setup_error_ready output_dir char st :
  setup_error output_dir char st = None ->
  dir_ready output_dir st /\ castable char.
Proof.
  unfold setup_error, dir_ready, castable.
  destruct output_dir; [done|]. simpl.
  destruct (hd true (mkdirs (world st))); [|done]. simpl.
  destruct (int_error (speed char * 100)); [done|].
  destruct (int_error (volume char * 100)); [done|].
  intros ->. by repeat split.
Qed.

(** What precedes the [try]: it raises and nothing is sent, or it only
    consumes the file system's answer for the directory. *)
Lemma synthesis_send segment char output_dir st :
  character segment = Some char ->
  generate_audio_for_segment segment output_dir st
  = match setup_error output_dir char st with
    | Some e => (Raise e, if Py.is_empty output_dir then st else after_mkdir st)
    | None =>
        try_except
          (let* response := send Tts "speech-02-hd" in
           let* result := response_json response in
           store_audio (synthesis_filename output_dir char st) segment result)
          (fun _ => ret (None, segment)) (after_mkdir st)
    end.
Proof.
  intros Hc. unfold generate_audio_for_segment, setup_error.
  rewrite Hc. rewrite (bind_ok (ret char) _ st char st eq_refl).
  unfold ensure_dir, after_mkdir.
  destruct (Py.is_empty output_dir); [reflexivity|]. simpl orb.
  unfold bind at 1. unfold ask_mkdir. cbn [fst snd]. cbv beta iota.
  destruct (hd true (mkdirs (world st))); [|reflexivity].
  cbn [negb].
  set (sm := set_world _ st).
  unfold bind at 1, get at 1. cbv beta iota.
  unfold int_percent.
  destruct (int_error (speed char * 100)); [reflexivity|].
  rewrite (bind_ok (ret tt) _ sm tt sm eq_refl).
  destruct (int_error (volume char * 100)); [reflexivity|].
  rewrite (bind_ok (ret tt) _ sm tt sm eq_refl).
  destruct (int_error (pitch char * 100)); [reflexivity|].
  rewrite (bind_ok (ret tt) _ sm tt sm eq_refl).
  change (clock (world sm)) with (clock (world st)).
  unfold send, store_audio, synthesis_filename.
  unfold try_except, bind, get, ret. cbv beta.
  repeat (next_stage; try reflexivity);
    try match goal with
        | |- context [is_request_exception ?e] =>
            destruct (is_request_exception e); reflexivity
        end.
Qed.

Lemma synthesis_setup_raise segment char output_dir st e :
  character segment = Some char ->
  setup_error output_dir char st = Some e ->
  let run := generate_audio_for_segment segment output_dir st in
  fst run = Raise e
  /\ same_self st (snd run)
  /\ (forall svc, limiter svc (snd run) = limiter svc st)
  /\ events (world (snd run)) = events (world st)
  /\ files (world (snd run)) = files (world st)
  /\ net (world (snd run)) = net (world st).
Proof.
  intros Hc He run. subst run. rewrite (synthesis_send _ _ _ _ Hc), He.
  destruct (Py.is_empty output_dir); simpl;
    (split; [reflexivity|]);
    (split; [first [apply same_self_refl | apply same_self_world]|]);
    (split; [by intros []|]); by repeat split.
Qed.

Lemma progressed_of_sent n new st st' :
  sent n new st st' -> progressed new st st'.
Proof.
  intros (Hs & Hl & _ & He & _). split; [exact Hs|]. split; [exact Hl|exact He].
Qed.

(** A synthesis call that gets past its preparations: result, file,
    events and limiter. *)
Lemma synthesis_outcome_spec segment char output_dir st :
  limiter_ok Tts st -> character segment = Some char ->
  setup_error output_dir char st = None ->
  let f := synthesis_filename output_dir char st in
  exists st' new,
    generate_audio_for_segment segment output_dir st
    = (Ok (match written_audio st with
           | Some _ => (Some f, set_audio_file f segment)
           | None => (None, segment)
           end), st')
    /\ files (world st')
       = (files (world st)
          ++ match written_audio st with
             | Some bytes => [(f, bytes)]
             | None => []
             end)%list
    /\ progressed new st st'
    /\ call_events Tts "speech-02-hd" st new
    /\ (lags_ok (world st) -> stamped Tts st st')
    /\ mkdirs (world st') = tl (mkdirs (world st)).
Proof.
  intros Hok Hc Hsetup f. rewrite (synthesis_send _ _ _ _ Hc), Hsetup. fold f.
  set (sm := after_mkdir st).
  assert (limiter_ok Tts sm) as Hokm by exact Hok.
  destruct (send_decides Tts "speech-02-hd" sm Hokm)
    as (n & new & st2 & Hsend & Hsent & Hev & Hstamp).
  change (deciding_outcome sm) with (deciding_outcome st) in Hsend.
  change (call_events Tts "speech-02-hd" sm new)
    with (call_events Tts "speech-02-hd" st new) in Hev.
  assert (progressed new st st2) as Hprog.
  { destruct (progressed_of_sent _ _ _ _ Hsent) as (Hs & Hl & He).
    split; [exact Hs|]. split; [exact Hl | exact He]. }
  destruct Hsent as (_ & _ & _ & _ & Hfiles & Hmk & Hop).
  change (files (world sm)) with (files (world st)) in Hfiles.
  change (mkdirs (world sm)) with (tl (mkdirs (world st))) in Hmk.
  change (opens (world sm)) with (opens (world st)) in Hop.
  assert (forall st3, world st3 = world st2 ->
                      (forall svc, limiter svc st3 = limiter svc st2) ->
                      lags_ok (world st) -> stamped Tts st st3) as Hsame.
  { intros st3 Hw Hlim Hl. specialize (Hstamp Hl). unfold stamped in *.
    change (outcome_at 0 sm) with (outcome_at 0 st) in Hstamp.
    rewrite Hw, Hlim. exact Hstamp. }
  assert (forall st3, clock (world st3) = clock (world st2) ->
                      (forall svc, limiter svc st3 = limiter svc st2) ->
                      lags_ok (world st) -> stamped Tts st st3) as Hsame'.
  { intros st3 Hw Hlim Hl. specialize (Hstamp Hl). unfold stamped in *.
    change (outcome_at 0 sm) with (outcome_at 0 st) in Hstamp.
    rewrite Hw, Hlim. exact Hstamp. }
  unfold try_except, written_audio, decoded_audio.
  destruct (checked_result (deciding_outcome st)) as [response|e].
  2:{ rewrite (bind_raise _ _ _ _ _ Hsend). simpl.
      exists st2, new. rewrite Hfiles, app_nil_r.
      split; [reflexivity|]. split; [reflexivity|]. split; [exact Hprog|].
      split; [exact Hev|]. split; [by apply Hsame | exact Hmk]. }
  rewrite (bind_ok _ _ _ _ _ Hsend). unfold response_json.
  destruct (body response) as [result|].
  2:{ unfold bind, raise. simpl.
      exists st2, new. rewrite Hfiles, app_nil_r.
      split; [reflexivity|]. split; [reflexivity|]. split; [exact Hprog|].
      split; [exact Hev|]. split; [by apply Hsame | exact Hmk]. }
  rewrite (bind_ok (ret result) _ st2 result st2 eq_refl). unfold store_audio.
  destruct (data result) as [d|];
    [|simpl; exists st2, new; rewrite Hfiles, app_nil_r;
      split; [reflexivity|]; split; [reflexivity|]; split; [exact Hprog|];
      split; [exact Hev|]; split; [by apply Hsame | exact Hmk]].
  destruct (audio d) as [hex|];
    [|simpl; exists st2, new; rewrite Hfiles, app_nil_r;
      split; [reflexivity|]; split; [reflexivity|]; split; [exact Hprog|];
      split; [exact Hev|]; split; [by apply Hsame | exact Hmk]].
  destruct (Py.fromhex hex) as [bytes|];
    [|simpl; exists st2, new; rewrite Hfiles, app_nil_r;
      split; [reflexivity|]; split; [reflexivity|]; split; [exact Hprog|];
      split; [exact Hev|]; split; [by apply Hsame | exact Hmk]].
  unfold write_bytes, bind, ret, ask_open. cbv beta iota.
  rewrite Hop. destruct Hprog as (Hs & Hl & He).
  destruct (hd true (opens (world st))); cbv beta iota;
    eexists; exists new; (split; [reflexivity|]); cbn [fst snd];
    (split; [simpl; by rewrite ?Hfiles, ?app_nil_r|]);
    (split; [split; [eapply same_self_trans;
                       [exact Hs | apply same_self_world]|];
             split; [intros svc; rewrite <- Hl; by destruct svc | exact He]|]);
    (split; [exact Hev|]);
    (split; [apply Hsame'; [reflexivity | by intros []] | exact Hmk]).
Qed.

End Synthesis.

(** ** The resolver *)

Section Resolver.

Lemma same_voices_refl st : same_voices st st.
Proof. by repeat split. Qed.

Lemma same_voices_trans a b c :
  same_voices a b -> same_voices b c -> same_voices a c.
Proof. unfold same_voices. intros. destruct_and!. repeat split; congruence. Qed.

Lemma same_voices_world st w : same_voices st (set_world w st).
Proof. by repeat split. Qed.

Lemma same_voices_limiter st svc r : same_voices st (set_limiter svc r st).
Proof. destruct svc; by repeat split. Qed.

Local Ltac voices_step :=
  preserves_step same_voices_refl same_voices_trans
                 same_voices_world same_voices_limiter.

Lemma update_stats_voices f : preserves same_voices (update_stats f).
Proof. intros st. by repeat split. Qed.

Lemma make_api_call_voices model_type :
  preserves same_voices (make_api_call model_type).
Proof.
  unfold make_api_call.
  repeat voices_step; try apply update_stats_voices.
  match goal with
  | |- context [usage ?j] => destruct (usage j)
  end; [|voices_step].
  apply (preserves_record_usage _ same_voices_refl same_voices_trans).
  apply update_stats_voices.
Qed.

Lemma analyze_voices char_name :
  preserves same_voices (analyze_character_name_with_ai char_name).
Proof.
  unfold analyze_character_name_with_ai.
  repeat voices_step.
  match goal with
  | |- context [name_analysis_cache ?s !! ?k] =>
      destruct (name_analysis_cache s !! k)
  end; [voices_step|].
  apply preserves_try; [exact same_voices_trans | | intros e; voices_step].
  voices_step; [apply make_api_call_voices|].
  match goal with
  | |- context [choices ?j] => destruct (choices j) as [[|choice l]|]
  end; try voices_step.
  repeat voices_step.
  match goal with
  | |- context [content_json ?m] => destruct (content_json m)
  end; repeat voices_step.
Qed.

Lemma try_except_default {S A} (m : M S A) (x : A) st :
  exists a, fst (try_except m (fun _ => ret x) st) = Ok a.
Proof.
  unfold try_except. destruct (m st) as [[a|e] st1]; simpl; eauto.
Qed.

(** The analysis itself never raises. *)
Lemma analyze_ok char_name st :
  fst (analyze_character_name_with_ai char_name st)
  = Ok (analysis_value_of char_name st).
Proof.
  unfold analysis_value_of.
  assert (exists a, fst (analyze_character_name_with_ai char_name st) = Ok a)
    as [a ->]; [|reflexivity].
  unfold analyze_character_name_with_ai. unfold bind at 1, get at 1. cbv beta.
  destruct (name_analysis_cache st !! Py.lower char_name); [by eexists|].
  apply try_except_default.
Qed.

Lemma map_hit char_name st c :
  name_voice_cache st !! char_name = Some c ->
  map_character_name_to_voice char_name st = (Ok c, st).
Proof.
  intros H. unfold map_character_name_to_voice, bind, get. cbv beta.
  by rewrite H.
Qed.

(** A resolution that misses the cache: handed a dictionary it builds
    the profile, advances the index of the category and caches the
    profile; handed anything else it raises and touches neither. *)
Lemma map_miss char_name st :
  name_voice_cache st !! char_name = None ->
  let st1 := snd (analyze_character_name_with_ai char_name st) in
  let c := new_profile char_name st in
  map_character_name_to_voice char_name st
  = match analysis_value_of char_name st with
    | AnObject _ =>
        (Ok c,
         set_name_voice_cache (<[char_name := c]> (name_voice_cache st))
           (set_voice_selection_index
              (<[category_of char_name st
                 := S (default 0%nat
                         (voice_selection_index st
                            !! category_of char_name st))]>
                 (voice_selection_index st))
              st1))
    | NotAnObject _ => (Raise (AttributeError "get"), st1)
    end.
Proof.
  intros H st1 c. subst st1 c.
  pose proof (analyze_voices char_name st) as (Hc & Hi & _).
  assert (analyze_character_name_with_ai char_name st
          = (Ok (analysis_value_of char_name st),
             snd (analyze_character_name_with_ai char_name st))) as Heq
    by (rewrite <- analyze_ok; apply surjective_pairing).
  unfold map_character_name_to_voice, bind at 1, get at 1. cbv beta.
  rewrite H, (bind_ok _ _ _ _ _ Heq).
  unfold new_profile, category_of, profile_description, analysis_of.
  destruct (analysis_value_of char_name st) as [a|v]; [|reflexivity].
  unfold bind, get, modify, ret. cbv beta. simpl.
  rewrite Hi, Hc. reflexivity.
Qed.

Lemma map_keeps_cache char_name st k c :
  name_voice_cache st !! k = Some c ->
  name_voice_cache (snd (map_character_name_to_voice char_name st)) !! k
  = Some c.
Proof.
  intros Hk. destruct (name_voice_cache st !! char_name) as [c'|] eqn:E.
  - by rewrite (map_hit _ _ _ E).
  - rewrite (map_miss _ _ E).
    pose proof (analyze_voices char_name st) as (Hc & _).
    destruct (analysis_value_of char_name st); simpl.
    + rewrite lookup_insert_ne; [done|]. congruence.
    + by rewrite Hc.
Qed.

(** What a resolution returns is what the cache then holds for the
    name. *)
Lemma map_ok_cached char_name st c :
  fst (map_character_name_to_voice char_name st) = Ok c ->
  name_voice_cache (snd (map_character_name_to_voice char_name st))
    !! char_name = Some c.
Proof.
  destruct (name_voice_cache st !! char_name) as [c'|] eqn:E.
  - rewrite (map_hit _ _ _ E). simpl. congruence.
  - rewrite (map_miss _ _ E).
    destruct (analysis_value_of char_name st); simpl; [|discriminate].
    intros [= <-]. apply lookup_insert_eq.
Qed.

Lemma make_api_call_analysis_keep model_type st :
  name_analysis_cache (snd (make_api_call model_type st))
  = name_analysis_cache st.
Proof.
  revert st.
  change (preserves same_analysis_cache (make_api_call model_type)).
  assert (forall st, same_analysis_cache st st) as Hr by done.
  assert (forall a b c, same_analysis_cache a b -> same_analysis_cache b c ->
                        same_analysis_cache a c) as Ht
    by (unfold same_analysis_cache; congruence).
  assert (forall st w, same_analysis_cache st (set_world w st)) as Hw by done.
  assert (forall st svc r, same_analysis_cache st (set_limiter svc r st))
    as Hl by (by intros ? []).
  assert (forall f, preserves same_analysis_cache (update_stats f)) as Hu
    by (intros f st; reflexivity).
  unfold make_api_call.
  repeat (preserves_step Hr Ht Hw Hl); try apply Hu.
  match goal with
  | |- context [usage ?j] => destruct (usage j)
  end; [|preserves_step Hr Ht Hw Hl].
  apply (preserves_record_usage _ Hr Ht). exact Hu.
Qed.

End Resolver.

(** ** Where an analysis comes from *)

Section Plain.

Lemma net_shrinks_refl st : net_shrinks st st.
Proof. by intros o. Qed.

Lemma net_shrinks_trans a b c :
  net_shrinks a b -> net_shrinks b c -> net_shrinks a c.
Proof. unfold net_shrinks. auto. Qed.

Lemma net_shrinks_same st st' :
  net (world st') = net (world st) -> net_shrinks st st'.
Proof. intros H o. by rewrite H. Qed.

Lemma net_shrinks_acquire svc : preserves net_shrinks (acquire svc).
Proof.
  intros st. destruct (acquire_spec svc st)
    as (res & r' & w' & -> & _ & (Hn & _) & _).
  apply net_shrinks_same. simpl. rewrite world_set_limiter. exact Hn.
Qed.

Lemma net_shrinks_post svc model :
  preserves net_shrinks (requests_post svc model).
Proof.
  intros st o. unfold requests_post, post.
  destruct (net (world st)) as [|[|r] rest] eqn:E; simpl; rewrite ?E;
    simpl; tauto.
Qed.

Lemma net_shrinks_sleep d : preserves net_shrinks (time_sleep d).
Proof. intros st. by apply net_shrinks_same. Qed.

Lemma net_shrinks_update f : preserves net_shrinks (update_stats f).
Proof. intros st. by apply net_shrinks_same. Qed.

Local Ltac net_bind :=
  apply preserves_bind; [exact net_shrinks_trans | | intros ?].

Local Ltac net_leaf :=
  first [ apply preserves_ret | apply preserves_raise | apply preserves_get
        | apply preserves_raise_for_status | apply preserves_response_json
        | apply preserves_subscript | apply preserves_validate_fields
        | apply preserves_number | apply preserves_usage_object ];
  try exact net_shrinks_refl.

Lemma net_shrinks_send svc model : preserves net_shrinks (send svc model).
Proof.
  unfold send.
  net_bind; [apply net_shrinks_acquire|].
  net_bind; [apply net_shrinks_post|].
  net_bind; [|net_bind; net_leaf].
  apply preserves_if; [|net_leaf].
  net_bind.
  - net_bind; [net_leaf | apply net_shrinks_sleep].
  - net_bind; [apply net_shrinks_acquire | apply net_shrinks_post].
Qed.

Lemma net_shrinks_make_api_call model_type :
  preserves net_shrinks (make_api_call model_type).
Proof.
  intros st. rewrite make_api_call_send. revert st.
  change (preserves net_shrinks
            (update_stats (fun u => u) ;;
             let* response := send Chat (model_of model_type) in
             let* result := response_json response in
             update_stats (track_call (model_of model_type)) ;;
             (match usage result with
              | Some v => record_usage (model_of model_type) v
              | None => ret tt
              end) ;;
             ret result)).
  net_bind; [apply net_shrinks_update|].
  net_bind; [apply net_shrinks_send|].
  net_bind; [net_leaf|].
  net_bind; [apply net_shrinks_update|].
  net_bind; [|net_leaf].
  match goal with
  | |- context [usage ?j] => destruct (usage j)
  end; [|net_leaf].
  apply (preserves_record_usage _ net_shrinks_refl net_shrinks_trans).
  apply net_shrinks_update.
Qed.

(** The response [send] returns is one the network held. *)
Lemma send_response svc model st response st' :
  send svc model st = (Ok response, st') ->
  In (Responds response) (net (world st)).
Proof.
  unfold send. unfold bind at 1.
  pose proof (net_shrinks_acquire svc st) as Hn1.
  destruct (acquire svc st) as [[[]|e] s1]; [|discriminate].
  simpl in Hn1. unfold bind at 1.
  pose proof (net_shrinks_post svc model s1) as Hn2.
  assert (forall r s2, requests_post svc model s1 = (Ok r, s2) ->
                       In (Responds r) (net (world s1))) as Hpost.
  { intros r s2. unfold requests_post, post.
    destruct (net (world s1)) as [|[|r0] rest]; simpl; [done|done|].
    intros [= <- _]. by left. }
  destruct (requests_post svc model s1) as [[r|e] s2] eqn:Ep; [|discriminate].
  simpl in Hn2. specialize (Hpost r s2 eq_refl).
  unfold bind at 1.
  destruct (status_code r =? 429)%Z.
  - unfold bind at 1. unfold bind at 1, get at 1. cbv beta iota.
    unfold time_sleep at 1, modify at 1. cbv beta iota.
    set (s3 := set_world _ s2).
    unfold bind at 1.
    pose proof (net_shrinks_acquire svc s3) as Hn4.
    destruct (acquire svc s3) as [[[]|e] s4]; [|discriminate].
    simpl in Hn4.
    assert (forall r' s5, requests_post svc model s4 = (Ok r', s5) ->
                          In (Responds r') (net (world s4))) as Hpost'.
    { intros r' s5. unfold requests_post, post.
      destruct (net (world s4)) as [|[|r0] rest]; simpl; [done|done|].
      intros [= <- _]. by left. }
    destruct (requests_post svc model s4) as [[r'|e] s5] eqn:Ep';
      [|discriminate].
    specialize (Hpost' r' s5 eq_refl).
    unfold bind, raise_for_status, ret, raise.
    destruct (_ && _); [discriminate|].
    intros [= <- _]. apply Hn1, Hn2. apply Hn4 in Hpost'. exact Hpost'.
  - unfold bind, raise_for_status, ret, raise. cbv beta iota.
    destruct (_ && _); [discriminate|].
    intros [= <- _]. by apply Hn1.
Qed.

Lemma bind2_ret_result {S A B C} (m1 : M S A) (m2 : M S B) (x : C) s y s' :
  (m1 ;; m2 ;; ret x) s = (Ok y, s') -> y = x.
Proof.
  unfold bind, ret. destruct (m1 s) as [[a|e] s1]; [|discriminate].
  destruct (m2 s1) as [[b|e] s2]; [|discriminate]. congruence.
Qed.

(** The body [make_api_call] returns is the body of a response the
    network held. *)
Lemma make_api_call_body model_type st j st' :
  make_api_call model_type st = (Ok j, st') ->
  exists r, In (Responds r) (net (world st)) /\ body r = Some j.
Proof.
  rewrite make_api_call_send. unfold bind at 1.
  unfold update_stats at 1, modify at 1. cbv beta iota.
  set (st0 := set_api_usage_stats _ st).
  unfold bind at 1.
  destruct (send Chat (model_of model_type) st0) as [[response|e] s2] eqn:Es;
    [|discriminate].
  apply send_response in Es. change (net (world st0)) with (net (world st)) in Es.
  unfold bind at 1, response_json.
  destruct (body response) as [j'|] eqn:Eb; [|discriminate].
  unfold ret at 1. cbv beta iota.
  intros H. apply bind2_ret_result in H. subst j'. eauto.
Qed.

Lemma validate_plain v st :
  passes_as_analysis v = false ->
  match fst (validate_fields v st) with
  | Ok a => exists x, a = AnObject x
  | Raise _ => True
  end.
Proof.
  destruct v; simpl; [eauto| | |done].
  - intros ->. done.
  - intros ->. done.
Qed.

Lemma classifier_plain_shrinks st st' :
  Forall plain_reply (net (world st)) -> net_shrinks st st' ->
  Forall plain_reply (net (world st')).
Proof.
  rewrite !List.Forall_forall. auto.
Qed.

(** With a plain classifier the analysis is a dictionary, and the
    classifier stays plain. *)
Lemma analyze_plain char_name st :
  classifier_plain st ->
  (exists a, analysis_value_of char_name st = AnObject a)
  /\ classifier_plain (snd (analyze_character_name_with_ai char_name st)).
Proof.
  intros [Hcache Hnet]. unfold analysis_value_of.
  destruct (analyze_character_name_with_ai char_name st) as [res st1] eqn:E.
  cbn [fst snd].
  unfold analyze_character_name_with_ai in E.
  unfold bind at 1, get at 1 in E. cbv beta iota in E.
  destruct (name_analysis_cache st !! Py.lower char_name) as [cached|] eqn:Ec.
  { inversion E; subst. split; [exact (Hcache _ _ Ec) | by split]. }
  unfold try_except, bind, subscript, modify, ret, raise in E.
  pose proof (net_shrinks_make_api_call "name_analysis" st) as Hshr.
  pose proof (make_api_call_analysis_keep "name_analysis" st) as Hkeep.
  pose proof (make_api_call_body "name_analysis" st) as Hbody.
  destruct (make_api_call "name_analysis" st) as [[result|e] s1];
    cbn [fst snd] in Hshr, Hkeep.
  2:{ inversion E; subst. split; [eauto|]. split.
      - intros k v. rewrite Hkeep. apply Hcache.
      - by eapply classifier_plain_shrinks. }
  assert (classifier_plain s1) as Hplain1.
  { split; [intros k v; rewrite Hkeep; apply Hcache|].
    by eapply classifier_plain_shrinks. }
  destruct (Hbody result s1 eq_refl) as (r & Hin & Hb).
  assert (plain_reply (Responds r)) as Hr
    by (rewrite List.Forall_forall in Hnet; by apply Hnet).
  simpl in Hr.
  destruct (choices result) as [[|choice rest]|] eqn:Ech;
    [inversion E; subst; eauto | | inversion E; subst; eauto].
  destruct (message choice) as [m|] eqn:Em; [|inversion E; subst; eauto].
  destruct (content m) as [txt|]; [|inversion E; subst; eauto].
  destruct (content_json m) as [v|] eqn:Ev; [|inversion E; subst; eauto].
  specialize (Hr result choice rest m v Hb Ech Em Ev).
  pose proof (validate_plain v s1 Hr) as Hv.
  assert (snd (validate_fields v s1) = s1) as Hs1.
  { destruct v; simpl;
      repeat match goal with
             | |- context [if ?b then _ else _] => destruct b
             end; reflexivity. }
  destruct (validate_fields v s1) as [[a|e] s2]; cbn [fst snd] in Hv, Hs1;
    subst s2; [|inversion E; subst; eauto].
  destruct Hv as [x ->]. inversion E; subst. split; [eauto|].
  destruct Hplain1 as [Hc1 Hn1]. split; [|exact Hn1].
  intros k v'. simpl. intros Hk.
  apply lookup_insert_Some in Hk as [[_ <-]|[_ Hk]];
    [eauto | exact (Hc1 _ _ Hk)].
Qed.

Lemma map_plain char_name st :
  classifier_plain st ->
  (exists c, fst (map_character_name_to_voice char_name st) = Ok c)
  /\ classifier_plain (snd (map_character_name_to_voice char_name st)).
Proof.
  intros Hp. destruct (name_voice_cache st !! char_name) as [c|] eqn:E.
  - rewrite (map_hit _ _ _ E). simpl. eauto.
  - rewrite (map_miss _ _ E).
    destruct (analyze_plain char_name st Hp) as [[a ->] Hp1].
    simpl. split; [eauto|]. exact Hp1.
Qed.

End Plain.

(** ** Cost of a recorded generation call *)

Section Cost.

Lemma estimate_cost_M1 total :
  estimate_cost "MiniMax-M1" 1000 500 total
  = (Py.truediv 1000 1000000 * 0.4 + Py.truediv 500 1000000 * 2.2)%float.
Proof. reflexivity. Qed.

Lemma answers_decides st result :
  answers (deciding_outcome st) result ->
  failure_of (deciding_outcome st) = None
  /\ exists r, deciding_outcome st = Responds r /\ body r = Some result.
Proof.
  destruct (deciding_outcome st) as [|r]; simpl; [done|].
  intros (_ & Hst & Hb). rewrite Hb.
  assert ((400 <=? status_code r) && (status_code r <? 600) = false)%Z as ->
    by (apply andb_false_iff; rewrite Z.leb_gt, Z.ltb_ge; lia).
  eauto.
Qed.

(** C1 (amended): a generation call on MiniMax-M1 (input $0.4 and output
    $2.2 per million tokens) that is answered with usage
    prompt_tokens = 1000 and completion_tokens = 500 returns the body and
    adds 1000/1e6*0.4 + 500/1e6*2.2 to the estimated cost of the ledger;
    in binary64 the two terms are 0.0004 and 0.0011000000000000001 and
    their sum is 0.0015 dollars. *)
Theorem token_tiered_cost st result (total : option Z) :
  limiter_ok Chat st ->
  answers (deciding_outcome st) result ->
  usage result
  = Some (UsageObject (mkUsage (Some (CountInt 1000)) (Some (CountInt 500))
                               (CountInt <$> total))) ->
  let before :=
    estimated_cost (default empty_usage_stats (api_usage_stats st)) in
  let st' := snd (make_api_call "story_generation" st) in
  fst (make_api_call "story_generation" st) = Ok result
  /\ option_map estimated_cost (api_usage_stats st')
     = Some (before + (Py.truediv 1000 1000000 * 0.4
                       + Py.truediv 500 1000000 * 2.2))%float
  /\ (Py.truediv 1000 1000000 * 0.4)%float = 0.0004%float
  /\ (Py.truediv 500 1000000 * 2.2)%float = 0.0011000000000000001%float
  /\ (Py.truediv 1000 1000000 * 0.4 + Py.truediv 500 1000000 * 2.2)%float
     = 0.0015%float.
Proof.
  intros Hok Hans Husage before st'.
  destruct (answers_decides _ _ Hans) as (Hnone & r & Hr & Hb).
  destruct (make_api_call_spec "story_generation" st Hok) as [_ Hspec].
  rewrite Hnone in Hspec. destruct Hspec as (r' & j & Hr' & Hb' & Hres & Hu).
  assert (j = result) as -> by congruence.
  assert (priced_by_tokens (model_of "story_generation") = true) as Hpriced
    by reflexivity.
  split; [|split].
  - rewrite Hres. unfold usage_error. rewrite Husage, Hpriced.
    by destruct total.
  - subst st'. rewrite Hu. unfold ledger_after. rewrite Husage, Hpriced.
    by destruct total.
  - repeat split; vm_compute; reflexivity.
Qed.

Lemma token_tiered_cost_witness :
  let st :=
    init (world_with
            [generation_reply "Narrator: Once."
               "stop" (mkUsage (Some (CountInt 1000)) (Some (CountInt 500))
                               (Some (CountInt 1500)))]) in
  let st' := snd (make_api_call "story_generation" st) in
  option_map estimated_cost (api_usage_stats st')
  = Some (0 + (Py.truediv 1000 1000000 * 0.4
               + Py.truediv 500 1000000 * 2.2))%float.
Proof.
  intros st st'.
  refine (proj1 (proj2
    (token_tiered_cost st
       (mkJson
          (Some [mkChoice (Some (mkMessage (Some "Narrator: Once.") None None))
                          (Some "stop")])
          (Some (UsageObject
                   (mkUsage (Some (CountInt 1000)) (Some (CountInt 500))
                            (Some (CountInt 1500))))) None)
       (Some 1500) _ _ eq_refl))).
  - subst st. unfold limiter_ok. simpl. unfold RATE_LIMITS_chat_rpm. lia.
  - split; [discriminate|]. split; [left; reflexivity | reflexivity].
Defined.

(** C1 as stated fails: the recorded cost of that call is 0.0015, not
    the 0.0000026 the specification computes, and neither term has the
    value the specification gives it. *)
Lemma spec_cost_figure_fails :
  let st :=
    init (world_with
            [generation_reply "Narrator: Once."
               "stop" (mkUsage (Some (CountInt 1000)) (Some (CountInt 500))
                               (Some (CountInt 1500)))]) in
  let st' := snd (make_api_call "story_generation" st) in
  option_map estimated_cost (api_usage_stats st') = Some 0.0015%float
  /\ 0.0015%float <> 0.0000026%float
  /\ (Py.truediv 1000 1000000 * 0.4)%float <> 0.0000011%float
  /\ (Py.truediv 500 1000000 * 2.2)%float <> 0.0000015%float.
Proof.
  split; [vm_compute; reflexivity|].
  repeat split; intros H;
    apply (f_equal (fun x => PrimFloat.ltb x 0.0001%float)) in H;
    vm_compute in H; discriminate.
Qed.

End Cost.

(** ** Retry on throttle *)

Section Retry.

Lemma count_posts_one svc model new :
  one_attempt svc model new -> count_posts new = 1%nat.
Proof.
  intros (sl & -> & Hc). rewrite count_posts_app, Hc. reflexivity.
Qed.

Lemma count_posts_two svc model d new :
  two_attempts svc model d new -> count_posts new = 2%nat.
Proof.
  intros (sl1 & sl2 & -> & Hc1 & Hc2).
  rewrite !count_posts_app, Hc1, Hc2. reflexivity.
Qed.

Lemma call_events_attempts svc model st st' new :
  events (world st') = (events (world st) ++ new)%list ->
  call_events svc model st new ->
  call_events svc model st (new_events st st')
  /\ attempts st st' = if is_throttle (outcome_at 0 st) then 2%nat else 1%nat.
Proof.
  intros He Hc. unfold attempts, new_events.
  rewrite He, drop_app_length. split; [exact Hc|].
  unfold call_events in Hc. destruct (is_throttle (outcome_at 0 st)).
  - by eapply count_posts_two.
  - by eapply count_posts_one.
Qed.

(** C3: an outbound generation call ([make_api_call]) and an outbound
    synthesis call ([generate_audio_for_segment], once its output
    directory is there and the voice settings convert, so that it
    reaches the network at all) each acquire the rate limiter and post
    once; only if that first attempt is answered 429 do they sleep the
    configured [retry_delay], acquire the limiter again and post a
    second time.  So the attempts number exactly 2 after a throttle and
    exactly 1 otherwise, never 3, and each attempt has left its stamp on
    the limiter's window: the window ends with the stamp of the last
    acquisition, which after a retry is a later clock reading than the
    stamp of the first.  The outcome of the last attempt made
    is final.  If it is a failure, generation raises it and synthesis
    reports [None] for the segment; if it is an answer, generation
    returns its body (or raises what an ill-typed usage block makes the
    bookkeeping raise) and synthesis returns what the audio of that body
    and the file system give. *)
Theorem retry_at_most_once st model_type segment char output_dir :
  limiter_ok Chat st -> limiter_ok Tts st -> lags_ok (world st) ->
  character segment = Some char ->
  dir_ready output_dir st -> castable char ->
  let gen := make_api_call model_type st in
  let syn := generate_audio_for_segment segment output_dir st in
  let tries := if is_throttle (outcome_at 0 st) then 2%nat else 1%nat in
  let f := synthesis_filename output_dir char st in
  (call_events Chat (model_of model_type) st (new_events st (snd gen))
   /\ attempts st (snd gen) = tries
   /\ stamped Chat st (snd gen)
   /\ (forall e, failure_of (deciding_outcome st) = Some e ->
                 fst gen = Raise e)
   /\ (forall result, answers (deciding_outcome st) result ->
          fst gen = match usage_error (model_of model_type) result with
                    | Some e => Raise e
                    | None => Ok result
                    end))
  /\ (call_events Tts "speech-02-hd" st (new_events st (snd syn))
      /\ attempts st (snd syn) = tries
      /\ stamped Tts st (snd syn)
      /\ (forall e, failure_of (deciding_outcome st) = Some e ->
                    fst syn = Ok (None, segment))
      /\ fst syn = Ok (match written_audio st with
                       | Some _ => (Some f, set_audio_file f segment)
                       | None => (None, segment)
                       end)).
Proof.
  intros Hchat Htts Hlags Hchar Hdir Hcast gen syn tries f. split.
  - destruct (make_api_call_spec model_type st Hchat)
      as [(new & He & Hc) Hres].
    destruct (call_events_attempts _ _ _ _ _ He Hc) as [H1 H2].
    split; [exact H1|]. split; [exact H2|].
    split; [by apply make_api_call_stamped|]. split.
    + intros e Hf. rewrite Hf in Hres. apply Hres.
    + intros result Hans.
      destruct (answers_decides _ _ Hans) as (Hnone & r & Hr & Hb).
      rewrite Hnone in Hres. destruct Hres as (r' & j & Hr' & Hb' & Hfst & _).
      assert (j = result) as -> by congruence. exact Hfst.
  - pose proof (setup_error_none _ _ _ Hdir Hcast) as Hsetup.
    destruct (synthesis_outcome_spec segment char output_dir st
                Htts Hchar Hsetup)
      as (st' & new & Heq & _ & (_ & _ & He) & Hc & Hstamp & _).
    fold f in Heq. subst syn. rewrite Heq. cbn [fst snd].
    destruct (call_events_attempts _ _ _ _ _ He Hc) as [H1 H2].
    split; [exact H1|]. split; [exact H2|].
    split; [by apply Hstamp|]. split; [|reflexivity].
    intros e Hf. unfold written_audio, decoded_audio.
    destruct (deciding_outcome st) as [|r]; simpl in Hf |- *; [reflexivity|].
    destruct ((400 <=? status_code r) && (status_code r <? 600))%Z;
      [reflexivity|].
    destruct (body r); [discriminate | reflexivity].
Qed.

(** A throttle followed by an HTTP 500 on the retry: two attempts, and
    the failure of the second is what the caller gets. *)
Lemma retry_at_most_once_witness :
  let st := init (world_with [status_reply 429; status_reply 500;
                              status_reply 200]) in
  let gen := make_api_call "story_generation" st in
  let syn := generate_audio_for_segment kael_segment "audio_output" st in
  attempts st (snd gen) = 2%nat
  /\ stamped Chat st (snd gen)
  /\ fst gen = Raise (HTTPError 500)
  /\ attempts st (snd syn) = 2%nat
  /\ stamped Tts st (snd syn)
  /\ fst syn = Ok (None, kael_segment).
Proof.
  intros st gen syn.
  assert (limiter_ok Chat st) as Hchat
    by (subst st; unfold limiter_ok; simpl; unfold RATE_LIMITS_chat_rpm; lia).
  assert (limiter_ok Tts st) as Htts
    by (subst st; unfold limiter_ok; simpl; unfold RATE_LIMITS_tts_rpm; lia).
  assert (lags_ok (world st)) as Hlags by constructor.
  assert (dir_ready "audio_output" st) as Hdir by (split; [discriminate|reflexivity]).
  assert (castable (mkCharacter "Kael" "" "English_magnetic_voiced_man"
                      1 1 0 "neutral")) as Hcast
    by (repeat split; reflexivity).
  destruct (retry_at_most_once st "story_generation" kael_segment _
              "audio_output" Hchat Htts Hlags eq_refl Hdir Hcast)
    as ((_ & Ha & Hs & Hf & _) & (_ & Ha' & Hs' & Hf' & _)).
  split; [exact Ha|]. split; [exact Hs|].
  split; [exact (Hf (HTTPError 500) eq_refl)|].
  split; [exact Ha'|]. split; [exact Hs'|].
  exact (Hf' (HTTPError 500) eq_refl).
Defined.

Example retry_then_failure :
  let st := init (world_with [status_reply 429; status_reply 500;
                              status_reply 200]) in
  fst (make_api_call "story_generation" st) = Raise (HTTPError 500)
  /\ events (world (snd (make_api_call "story_generation" st)))
     = [EvPost Chat "MiniMax-M1"; EvSleep 60; EvPost Chat "MiniMax-M1"]
  /\ length (net (world (snd (make_api_call "story_generation" st)))) = 1%nat.
Proof. vm_compute. repeat split. Qed.

Example failure_without_retry :
  let st := init (world_with [status_reply 500; status_reply 200]) in
  fst (make_api_call "story_generation" st) = Raise (HTTPError 500)
  /\ events (world (snd (make_api_call "story_generation" st)))
     = [EvPost Chat "MiniMax-M1"].
Proof. vm_compute. repeat split. Qed.

End Retry.

(** ** Synthesis and the ledger *)

Section SynthesisLedger.

Lemma synthesis_never_records segment output_dir st :
  api_usage_stats (snd (generate_audio_for_segment segment output_dir st))
  = api_usage_stats st.
Proof. apply synthesis_keeps_usage. Qed.

(** C8 fails on the code: a synthesis call that succeeds (the audio
    file is written and its name returned) leaves the usage ledger
    as it was; here the ledger does not even exist afterwards, so no
    call, no character and no cost was recorded for speech-02-hd. *)
Theorem synthesis_not_recorded :
  let st := init (world_with [synthesis_reply "00ff1a"]) in
  let run := generate_audio_for_segment kael_segment "audio_output" st in
  fst run = Ok (Some "audio_output/Kael_0.mp3",
                set_audio_file "audio_output/Kael_0.mp3" kael_segment)
  /\ files (world (snd run)) = [("audio_output/Kael_0.mp3", [0; 255; 26]%N)]
  /\ events (world (snd run)) = [EvPost Tts "speech-02-hd"]
  /\ api_usage_stats (snd run) = None.
Proof. vm_compute. repeat split. Qed.

End SynthesisLedger.

(** ** The streaming operation *)

Section Streaming.

(** C9 fails on the code: the class defines no attribute named
    [generate_full_story_audio_streaming]; evaluating the call the two
    front ends make raises [AttributeError] before any channel is
    opened or any frame is sent. *)
Theorem streaming_operation_missing st :
  lookup_streaming_operation st
  = (Raise (AttributeError "generate_full_story_audio_streaming"), st).
Proof. reflexivity. Qed.

End Streaming.

(** ** Failures of story generation *)

Section StoryFailures.

Lemma generate_story_total st : exists r, fst (generate_story st) = Ok r.
Proof.
  unfold generate_story, try_except, bind.
  destruct (generate_story_try st) as [[s|e] st1]; simpl; [eauto|].
  destruct (is_request_exception e); simpl; eauto.
Qed.

Lemma generate_story_swallows st e :
  fst (generate_story_try st) = Raise e ->
  fst (generate_story st) = Ok None.
Proof.
  unfold generate_story, try_except, bind.
  destruct (generate_story_try st) as [[s|e'] st1]; simpl; [discriminate|].
  intros _. by destruct (is_request_exception e').
Qed.

Lemma make_api_call_answered model_type st result :
  limiter_ok Chat st -> answers (deciding_outcome st) result ->
  usage_error (model_of model_type) result = None ->
  make_api_call model_type st = (Ok result, snd (make_api_call model_type st)).
Proof.
  intros Hok Hans Husage.
  destruct (answers_decides _ _ Hans) as (Hnone & r & Hr & Hb).
  destruct (make_api_call_spec model_type st Hok) as [_ Hspec].
  rewrite Hnone in Hspec. destruct Hspec as (r' & j & Hr' & Hb' & Hres & _).
  assert (j = result) as -> by congruence.
  rewrite Husage in Hres.
  destruct (make_api_call model_type st) as [res st1]. simpl in *.
  by subst res.
Qed.

(** C6 (amended): when the generation call is answered and
    [choices[0].message.content] is empty or whitespace with nothing
    recoverable from [reasoning_content], the [try] block of
    [generate_story] raises an exception whose message is the
    token-limit message exactly when [choices[0].finish_reason] is
    "length", and "Story content is empty" otherwise; a reply without
    choices raises "No story generated"; the three messages differ.
    This is so for a body whose usage block is absent or an object with
    numeric counts; on any other usage block the bookkeeping of the
    call raises first, and that exception is what the [try] block
    raises.  [generate_story] itself never raises: it turns every
    exception of its [try] block into the result [None]. *)
Theorem generation_failures st result :
  limiter_ok Chat st ->
  answers (deciding_outcome st) result ->
  (usage_error (model_of "story_generation") result = None ->
   (forall choice rest m story,
       choices result = Some (choice :: rest) ->
       message choice = Some m -> content m = Some story ->
       Py.strip story = "" -> story_from_reasoning m = None ->
       (finish_reason choice = Some "length" ->
        fst (generate_story_try st) = Raise (PyException token_limit_message))
       /\ (finish_reason choice <> Some "length" ->
           fst (generate_story_try st)
           = Raise (PyException "Story content is empty")))
   /\ (choices result = None \/ choices result = Some [] ->
       fst (generate_story_try st)
       = Raise (PyException "No story generated")))
  /\ (forall e, usage_error (model_of "story_generation") result = Some e ->
                fst (generate_story_try st) = Raise e)
  /\ (forall e, fst (generate_story_try st) = Raise e ->
                fst (generate_story st) = Ok None)
  /\ (exists r, fst (generate_story st) = Ok r)
  /\ token_limit_message <> "Story content is empty"
  /\ token_limit_message <> "No story generated"
  /\ "Story content is empty" <> "No story generated".
Proof.
  intros Hok Hans.
  split; [|split; [|split; [|split]]].
  - intros Husage.
    pose proof (make_api_call_answered "story_generation" st result
                  Hok Hans Husage) as Hcall.
    split.
    + intros choice rest m story Hch Hm Hc Hempty Hreason.
      unfold generate_story_try. rewrite (bind_ok _ _ _ _ _ Hcall).
      rewrite Hch, Hm, Hc, Hempty, Hreason. simpl. split.
      * intros ->. reflexivity.
      * intros Hfr. destruct (finish_reason choice) as [fr|]; simpl.
        -- destruct (String.eqb fr "length") eqn:E; [|reflexivity].
           apply String.eqb_eq in E. congruence.
        -- reflexivity.
    + intros Hch. unfold generate_story_try.
      rewrite (bind_ok _ _ _ _ _ Hcall). by destruct Hch as [-> | ->].
  - intros e Husage.
    destruct (answers_decides _ _ Hans) as (Hnone & r & Hr & Hb).
    destruct (make_api_call_spec "story_generation" st Hok) as [_ Hspec].
    rewrite Hnone in Hspec.
    destruct Hspec as (r' & j & Hr' & Hb' & Hres & _).
    assert (j = result) as -> by congruence. rewrite Husage in Hres.
    assert (make_api_call "story_generation" st
            = (Raise e, snd (make_api_call "story_generation" st))) as Hcall
      by (rewrite <- Hres; apply surjective_pairing).
    unfold generate_story_try. by rewrite (bind_raise _ _ _ _ _ Hcall).
  - apply generate_story_swallows.
  - apply generate_story_total.
  - repeat split; discriminate.
Qed.

Lemma generation_failures_witness :
  let st := init (world_with [story_reply "" "length" None]) in
  fst (generate_story_try st) = Raise (PyException token_limit_message)
  /\ fst (generate_story st) = Ok None.
Proof.
  intros st.
  set (result :=
         mkJson (Some [mkChoice (Some (mkMessage (Some "") None None))
                                (Some "length")])
                (Some (UsageObject
                         (mkUsage (Some (CountInt 10)) (Some (CountInt 0))
                                  (Some (CountInt 10))))) None).
  assert (limiter_ok Chat st) as Hok
    by (subst st; unfold limiter_ok; simpl;
        unfold RATE_LIMITS_chat_rpm; lia).
  assert (answers (deciding_outcome st) result) as Hans.
  { subst st result. unfold deciding_outcome, outcome_at. simpl.
    split; [discriminate|]. split; [left; reflexivity | reflexivity]. }
  destruct (generation_failures st result Hok Hans)
    as (H0 & _ & H3 & _).
  destruct (H0 eq_refl) as [H1 _].
  destruct (H1 (mkChoice (Some (mkMessage (Some "") None None)) (Some "length"))
               [] (mkMessage (Some "") None None) ""
               eq_refl eq_refl eq_refl eq_refl eq_refl) as [Hlen _].
  split; [exact (Hlen eq_refl) | exact (H3 _ (Hlen eq_refl))].
Defined.

(** C6 as stated fails: the caller of [generate_story] receives the
    same result, [None], and the same store whether the reply had empty
    content with finish reason "length", empty content with finish
    reason "stop", or no choices at all; and an empty content with
    finish reason "length" is no failure at all when a story can be cut
    out of [reasoning_content]. *)
Lemma token_limit_not_distinguishable :
  let token_limit := init (world_with [story_reply "" "length" None]) in
  let generic := init (world_with [story_reply "" "stop" None]) in
  let malformed := init (world_with [no_choices_reply]) in
  let recovered :=
    init (world_with
            [story_reply "" "length" (Some "Plan. NARRATOR: The end.")]) in
  fst (generate_story token_limit) = Ok None
  /\ generate_story token_limit = generate_story generic
  /\ generate_story token_limit = generate_story malformed
  /\ fst (generate_story recovered) = Ok (Some "NARRATOR: The end.").
Proof. vm_compute. repeat split. Qed.

End StoryFailures.

(** ** Properties of the resolver *)

Section ResolverProperties.

Lemma after_resolving_keeps_cache names st k c :
  name_voice_cache st !! k = Some c ->
  name_voice_cache (after_resolving names st) !! k = Some c.
Proof.
  revert st. induction names as [|n names IH]; intros st Hk; [done|].
  simpl. apply IH. by apply map_keeps_cache.
Qed.

(** Once a name is resolved, every later resolution of the same string
    is a cache hit: it returns the same profile and changes nothing, no
    matter which other names were resolved in between, successfully or
    not.  The first resolution does return when no analysis, cached or
    still to come, is anything but a dictionary. *)
Theorem resolution_is_stable char_name between st :
  let st1 := snd (map_character_name_to_voice char_name st) in
  let st2 := after_resolving between st1 in
  (classifier_plain st ->
   exists c, fst (map_character_name_to_voice char_name st) = Ok c)
  /\ (forall c,
        fst (map_character_name_to_voice char_name st) = Ok c ->
        map_character_name_to_voice char_name st2 = (Ok c, st2)).
Proof.
  intros st1 st2. split.
  - intros Hp. apply (map_plain char_name st Hp).
  - intros c Hc. apply map_hit. subst st2 st1.
    apply after_resolving_keeps_cache. by apply map_ok_cached.
Qed.

Lemma category_in_range a : In (select_voice_category a) resolver_categories.
Proof.
  unfold select_voice_category, resolver_categories.
  repeat match goal with
         | |- context [if ?b then _ else _] => destruct b
         end; simpl; tauto.
Qed.

Lemma pools_of_categories cat :
  In cat resolver_categories ->
  dict_get cat english_voices = Some (available_voices cat)
  /\ available_voices cat <> [] /\ NoDup (available_voices cat).
Proof.
  unfold resolver_categories. simpl.
  intros [<-|[<-|[<-|[<-|[<-|[]]]]]];
    (split; [reflexivity|]); (split; [discriminate|]);
    apply (@bool_decide_unpack _ (NoDup_dec _)); vm_compute; reflexivity.
Qed.

Lemma list_item_lookup (l : list string) i :
  (i < length l)%nat -> l !! i = Some (list_item l i).
Proof.
  intros Hi. unfold list_item.
  destruct (lookup_lt_is_Some_2 l i Hi) as [x ->]. reflexivity.
Qed.

Lemma pool_index_lt cat i :
  In cat resolver_categories ->
  (i mod length (available_voices cat) < length (available_voices cat))%nat.
Proof.
  intros Hc. destruct (pools_of_categories cat Hc) as (_ & Hne & _).
  apply Nat.mod_upper_bound. by destruct (available_voices cat).
Qed.

(** What a first resolution builds when the analysis is a dictionary. *)
Lemma new_profile_spec char_name st :
  let c := new_profile char_name st in
  name c = char_name
  /\ In (category_of char_name st) resolver_categories
  /\ In (voice_id c) (available_voices (category_of char_name st))
  /\ (speed c, volume c, pitch c, emotion c)
     = (1.0%float, 1.0%float, 0.0%float, "neutral").
Proof.
  pose proof (category_in_range (analysis_of char_name st)) as Hcat.
  split; [reflexivity|]. split; [exact Hcat|]. split; [|reflexivity].
  apply list_elem_of_In. eapply list_elem_of_lookup_2.
  apply list_item_lookup. by apply pool_index_lt.
Qed.

(** The first resolution of a name, whatever the classifier call does.
    When the analysis it is handed is a dictionary (always so when no
    analysis, cached or still to come, is anything else) it returns a
    profile: the name as presented, a voice of the pool of one of the
    five resolver categories (never the narrator pool), the fixed speed
    1.0, volume 1.0, pitch 0.0 and emotion "neutral"; and that is the
    profile the cache then holds for the name.  When the analysis is a
    list or a string that passed the test of the required fields, it
    raises [AttributeError] and leaves the voice cache and the indices
    untouched. *)
Theorem first_resolution_profile char_name st :
  name_voice_cache st !! char_name = None ->
  let run := map_character_name_to_voice char_name st in
  match analysis_value_of char_name st with
  | AnObject _ =>
      exists c,
        fst run = Ok c
        /\ name c = char_name
        /\ In (category_of char_name st) resolver_categories
        /\ In (voice_id c) (available_voices (category_of char_name st))
        /\ (speed c, volume c, pitch c, emotion c)
           = (1.0%float, 1.0%float, 0.0%float, "neutral")
        /\ name_voice_cache (snd run) !! char_name = Some c
  | NotAnObject _ =>
      fst run = Raise (AttributeError "get")
      /\ name_voice_cache (snd run) = name_voice_cache st
      /\ voice_selection_index (snd run) = voice_selection_index st
  end
  /\ (classifier_plain st ->
      exists a, analysis_value_of char_name st = AnObject a).
Proof.
  intros Hnew run. subst run. rewrite (map_miss _ _ Hnew). split.
  - destruct (analysis_value_of char_name st) as [a|v]; simpl.
    + destruct (new_profile_spec char_name st) as (H1 & H2 & H3 & H4).
      eexists. split; [reflexivity|]. split; [exact H1|]. split; [exact H2|].
      split; [exact H3|]. split; [exact H4 | apply lookup_insert_eq].
    + pose proof (analyze_voices char_name st) as (Hc & Hi & _).
      by repeat split.
  - intros Hp. apply (analyze_plain char_name st Hp).
Qed.

Lemma first_resolution_profile_witness :
  exists c,
    fst (map_character_name_to_voice "Kael" (init (quiet_world 0))) = Ok c
    /\ name c = "Kael"
    /\ In (voice_id c)
          (available_voices (category_of "Kael" (init (quiet_world 0))))
    /\ name_voice_cache
         (snd (map_character_name_to_voice "Kael" (init (quiet_world 0))))
       !! "Kael" = Some c.
Proof.
  destruct (first_resolution_profile "Kael" (init (quiet_world 0)) eq_refl)
    as [H _].
  change (analysis_value_of "Kael" (init (quiet_world 0)))
    with (AnObject (fallback_name_analysis "Kael")) in H.
  destruct H as (c & H1 & H2 & _ & H4 & _ & H6).
  exists c. by repeat split.
Defined.

Lemma assigned_in_cycle cat names st :
  In cat resolver_categories ->
  let pool := available_voices cat in
  let i0 := default 0%nat (voice_selection_index st !! cat) in
  (forall k, (k < length (assigned_in cat names st))%nat ->
             assigned_in cat names st !! k
             = pool !! ((i0 + k) mod length pool)%nat)
  /\ default 0%nat (voice_selection_index (after_resolving names st) !! cat)
     = (i0 + length (assigned_in cat names st))%nat.
Proof.
  intros Hcat pool. revert st.
  induction names as [|n names IH]; intros st i0.
  { simpl. split; [intros k Hk; lia | subst i0; lia]. }
  simpl. destruct (name_voice_cache st !! n) as [c|] eqn:E.
  - rewrite (map_hit _ _ _ E). simpl. apply IH.
  - rewrite (map_miss _ _ E).
    destruct (analysis_value_of n st) as [a|v] eqn:Ea; cbn [fst snd].
    2:{ pose proof (analyze_voices n st) as (_ & Hi & _).
        destruct (IH (snd (analyze_character_name_with_ai n st)))
          as [IH1 IH2].
        rewrite Hi in IH1, IH2. by split. }
    set (st' := set_name_voice_cache _ _).
    destruct (String.eqb (category_of n st) cat) eqn:Ecat.
    + apply String.eqb_eq in Ecat.
      destruct (IH st') as [IH1 IH2].
      assert (default 0%nat (voice_selection_index st' !! cat) = S i0) as Hi.
      { subst st'. simpl. rewrite Ecat, lookup_insert_eq. reflexivity. }
      rewrite Hi in IH1, IH2. split.
      * intros [|k] Hk; simpl in *.
        -- unfold new_profile. simpl. rewrite Ecat. fold pool. fold i0.
           rewrite Nat.add_0_r. symmetry. apply list_item_lookup.
           by apply pool_index_lt.
        -- rewrite IH1 by lia. f_equal. f_equal. lia.
      * rewrite IH2. simpl. lia.
    + apply String.eqb_neq in Ecat.
      destruct (IH st') as [IH1 IH2].
      assert (default 0%nat (voice_selection_index st' !! cat) = i0) as Hi.
      { subst st'. simpl. by rewrite lookup_insert_ne. }
      rewrite Hi in IH1, IH2. by split.
Qed.

(** In a fresh session the new names of one category get the voices of
    its pool in pool order, cyclically: the k-th new name gets voice
    [k mod P].  So the first [P] new names get pairwise distinct voices,
    the whole pool once each, and the per-category index counts the new
    names only: a cache hit does not advance it. *)
Theorem round_robin_assignment w names cat :
  In cat resolver_categories ->
  let pool := available_voices cat in
  let ids := assigned_in cat names (init w) in
  (forall k, (k < length ids)%nat -> ids !! k = pool !! (k mod length pool)%nat)
  /\ NoDup (take (length pool) ids)
  /\ ((length pool <= length ids)%nat -> take (length pool) ids = pool)
  /\ default 0%nat
       (voice_selection_index (after_resolving names (init w)) !! cat)
     = length ids.
Proof.
  intros Hcat pool ids.
  destruct (assigned_in_cycle cat names (init w) Hcat) as [Hk Hidx].
  destruct (pools_of_categories cat Hcat) as (_ & Hne & Hnd).
  fold pool in Hk, Hne, Hnd. fold ids in Hk, Hidx. simpl in Hk, Hidx.
  rewrite lookup_empty in Hidx. simpl in Hidx.
  assert (forall k, (k < length ids)%nat ->
                    ids !! k = pool !! (k mod length pool)%nat) as Hk'
    by (intros k Hlt; rewrite (Hk k Hlt), lookup_empty; reflexivity).
  clear Hk. rename Hk' into Hk.
  assert (forall k, (k < length ids)%nat -> (k < length pool)%nat ->
                    ids !! k = pool !! k) as Hsame.
  { intros k H1 H2. rewrite (Hk k H1). by rewrite Nat.mod_small. }
  assert (take (length pool) ids = take (length ids) pool) as Htake.
  { apply list_eq. intros k.
    destruct (decide (k < length pool)%nat) as [H1|H1];
      destruct (decide (k < length ids)%nat) as [H2|H2].
    - rewrite !lookup_take_lt by done. by apply Hsame.
    - rewrite lookup_take_lt by done. rewrite lookup_take_ge by lia.
      apply lookup_ge_None_2. lia.
    - rewrite lookup_take_ge by lia. rewrite lookup_take_lt by done.
      symmetry. apply lookup_ge_None_2. lia.
    - rewrite !lookup_take_ge by lia. reflexivity. }
  split; [exact Hk|]. split; [|split].
  - rewrite Htake. eapply sublist_NoDup; [exact Hnd | apply sublist_take].
  - intros Hlen. rewrite Htake. apply take_ge. lia.
  - exact Hidx.
Qed.

Lemma round_robin_assignment_witness :
  let w := quiet_world 0 in
  let names := ["Bran"; "Tomas"; "Bran"; "Ulric"] in
  let pool := available_voices "male" in
  let ids := assigned_in "male" names (init w) in
  (forall k, (k < length ids)%nat -> ids !! k = pool !! (k mod length pool)%nat)
  /\ NoDup (take (length pool) ids)
  /\ ((length pool <= length ids)%nat -> take (length pool) ids = pool)
  /\ default 0%nat
       (voice_selection_index (after_resolving names (init w)) !! "male")
     = length ids.
Proof.
  apply (round_robin_assignment (quiet_world 0)
           ["Bran"; "Tomas"; "Bran"; "Ulric"] "male").
  simpl. tauto.
Defined.

Example round_robin_three_names :
  assigned_in "male" ["Bran"; "Tomas"; "Bran"; "Ulric"] (init (quiet_world 0))
  = ["English_magnetic_voiced_man"; "English_Aussie_Bloke";
     "English_Trustworth_Man"].
Proof. vm_compute. reflexivity. Qed.

Lemma analyze_miss_cases char_name st :
  name_analysis_cache st !! Py.lower char_name = None ->
  let r := analyze_character_name_with_ai char_name st in
  (fst r = Ok (AnObject (fallback_name_analysis char_name))
   /\ name_analysis_cache (snd r) = name_analysis_cache st)
  \/ (exists a, fst r = Ok a
                /\ name_analysis_cache (snd r)
                   = <[Py.lower char_name := a]> (name_analysis_cache st)).
Proof.
  intros Hnone r. subst r.
  destruct (analyze_character_name_with_ai char_name st) as [res st1] eqn:E.
  unfold analyze_character_name_with_ai in E.
  unfold bind at 1, get at 1 in E. cbv beta in E. rewrite Hnone in E.
  unfold try_except, bind, subscript, modify, ret, raise in E.
  pose proof (make_api_call_analysis_keep "name_analysis" st) as Hc.
  destruct (make_api_call "name_analysis" st) as [[result|e] s1]; simpl in Hc.
  - destruct (choices result) as [[|choice l]|].
    + inversion E; subst. by left.
    + destruct (message choice) as [m|].
      * destruct (content m) as [txt|].
        -- destruct (content_json m) as [v|].
           ++ assert (snd (validate_fields v s1) = s1) as Hs1.
              { destruct v; simpl;
                  repeat match goal with
                         | |- context [if ?b then _ else _] => destruct b
                         end; reflexivity. }
              destruct (validate_fields v s1) as [[a|e] s2];
                cbn [snd] in Hs1; subst s2.
              ** inversion E; subst. right. simpl. rewrite Hc. eauto.
              ** inversion E; subst. by left.
           ++ inversion E; subst. by left.
        -- inversion E; subst. by left.
      * inversion E; subst. by left.
    + inversion E; subst. by left.
  - inversion E; subst. by left.
Qed.

(** A first analysis of a name either stores the classifier's answer
    under the lowercase name, after which every spelling of the name in
    another letter case is answered from the cache with no effect on the
    store, or it returns the fallback analysis and stores nothing, so
    that the classifier is asked again next time. *)
Theorem analysis_cache_by_lowercase char_name variant st :
  Py.lower variant = Py.lower char_name ->
  name_analysis_cache st !! Py.lower char_name = None ->
  let st1 := snd (analyze_character_name_with_ai char_name st) in
  match name_analysis_cache st1 !! Py.lower char_name with
  | Some a =>
      fst (analyze_character_name_with_ai char_name st) = Ok a
      /\ analyze_character_name_with_ai variant st1 = (Ok a, st1)
  | None =>
      fst (analyze_character_name_with_ai char_name st)
      = Ok (AnObject (fallback_name_analysis char_name))
      /\ name_analysis_cache st1 = name_analysis_cache st
  end.
Proof.
  intros Hvar Hnone st1.
  destruct (analyze_miss_cases char_name st Hnone)
    as [[Hres Hcache] | (a & Hres & Hcache)]; fold st1 in Hcache.
  - rewrite Hcache, Hnone. by split.
  - rewrite Hcache, lookup_insert_eq. split; [exact Hres|].
    unfold analyze_character_name_with_ai.
    unfold bind at 1, get at 1. cbv beta.
    by rewrite Hvar, Hcache, lookup_insert_eq.
Qed.

Lemma analysis_cache_by_lowercase_witness :
  let st := init (quiet_world 0) in
  let st1 := snd (analyze_character_name_with_ai "Kael" st) in
  match name_analysis_cache st1 !! Py.lower "Kael" with
  | Some a =>
      fst (analyze_character_name_with_ai "Kael" st) = Ok a
      /\ analyze_character_name_with_ai "KAEL" st1 = (Ok a, st1)
  | None =>
      fst (analyze_character_name_with_ai "Kael" st)
      = Ok (AnObject (fallback_name_analysis "Kael"))
      /\ name_analysis_cache st1 = name_analysis_cache st
  end.
Proof.
  apply (analysis_cache_by_lowercase "Kael" "KAEL" (init (quiet_world 0)));
    reflexivity.
Defined.

Lemma fallback_villain char_name :
  Py.any_in villain_words (Py.lower char_name) = true ->
  select_voice_category (fallback_name_analysis char_name) = "villain".
Proof.
  intros H. unfold fallback_name_analysis, villain_words in *. rewrite H.
  repeat match goal with
         | |- context [if ?b then _ else _] => destruct b
         end; reflexivity.
Qed.

(** When the classifier call fails (the deciding attempt ends in an
    exception) and nothing is cached for the name, the analysis is the
    local fallback; a new name whose lowercase form contains one of
    "shadow", "dark", "grim", "vex", "mal" then gets a voice of the
    villain pool. *)
Theorem classifier_unavailable char_name st e :
  limiter_ok Chat st ->
  name_analysis_cache st !! Py.lower char_name = None ->
  failure_of (deciding_outcome st) = Some e ->
  analysis_of char_name st = fallback_name_analysis char_name
  /\ (name_voice_cache st !! char_name = None ->
      Py.any_in villain_words (Py.lower char_name) = true ->
      exists c,
        fst (map_character_name_to_voice char_name st) = Ok c
        /\ In (voice_id c)
              ["English_ManWithDeepVoice"; "English_Deep-VoicedGentleman";
               "English_ImposingManner"]).
Proof.
  intros Hok Hnone Hfail.
  assert (analysis_value_of char_name st
          = AnObject (fallback_name_analysis char_name)) as Hv.
  { unfold analysis_value_of, analyze_character_name_with_ai.
    unfold bind at 1, get at 1. cbv beta. rewrite Hnone. unfold try_except.
    destruct (make_api_call_spec "name_analysis" st Hok) as [_ Hspec].
    rewrite Hfail in Hspec. destruct Hspec as [Hraise _].
    unfold bind at 1.
    destruct (make_api_call "name_analysis" st) as [res s1].
    simpl in Hraise. subst res. reflexivity. }
  assert (analysis_of char_name st = fallback_name_analysis char_name) as Ha
    by (unfold analysis_of; by rewrite Hv).
  split; [exact Ha|]. intros Hnew Hvillain.
  rewrite (map_miss _ _ Hnew), Hv. cbn [fst].
  exists (new_profile char_name st). split; [reflexivity|].
  destruct (new_profile_spec char_name st) as (_ & _ & Hin & _).
  unfold category_of in Hin. rewrite Ha, (fallback_villain _ Hvillain) in Hin.
  exact Hin.
Qed.

Lemma classifier_unavailable_witness :
  analysis_of "Malvex" (init (world_with [status_reply 500]))
  = fallback_name_analysis "Malvex"
  /\ (name_voice_cache (init (world_with [status_reply 500])) !! "Malvex"
      = None ->
      Py.any_in villain_words (Py.lower "Malvex") = true ->
      exists c,
        fst (map_character_name_to_voice "Malvex"
               (init (world_with [status_reply 500]))) = Ok c
        /\ In (voice_id c)
              ["English_ManWithDeepVoice"; "English_Deep-VoicedGentleman";
               "English_ImposingManner"]).
Proof.
  apply (classifier_unavailable "Malvex" (init (world_with [status_reply 500]))
           (HTTPError 500)).
  - unfold limiter_ok. simpl. unfold RATE_LIMITS_chat_rpm. lia.
  - reflexivity.
  - reflexivity.
Defined.

(** A classifier that answers with the JSON list of the five field
    names: the list passes the test of the required fields and is
    cached, the resolver raises on it, and so does the parser on a line
    with that speaker; asked again, the resolver raises again, now
    without a call. *)
Example list_analysis_breaks_resolution :
  let st := init (world_with [list_analysis_reply]) in
  let st1 := snd (map_character_name_to_voice "Kael" st) in
  fst (map_character_name_to_voice "Kael" st) = Raise (AttributeError "get")
  /\ name_analysis_cache st1 !! "kael"
     = Some (NotAnObject (DArray required_fields))
  /\ name_voice_cache st1 !! "Kael" = None
  /\ fst (parse_story_into_segments "Kael: Go." st)
     = Raise (AttributeError "get")
  /\ fst (map_character_name_to_voice "Kael" st1)
     = Raise (AttributeError "get")
  /\ attempts st1 (snd (map_character_name_to_voice "Kael" st1)) = 0%nat.
Proof. vm_compute. repeat split. Qed.

(** The same classifier answering with a dictionary. *)
Example dictionary_analysis_resolves :
  let reply :=
    analysis_reply "{...}"
      (DObject (mkPayload (Some "female") (Some "elder") None None None)) in
  let st := init (world_with [reply]) in
  exists c,
    fst (map_character_name_to_voice "Mara" st) = Ok c
    /\ voice_id c = "English_WiseScholar"
    /\ description c
       = "AI-generated character with female voice, elder age group, unknown personality".
Proof. eexists. vm_compute. repeat split. Qed.

End ResolverProperties.

(** ** Properties of the parser *)

Section Parser.

Lemma map_spec char_name st :
  cache_named st ->
  let run := map_character_name_to_voice char_name st in
  cache_named (snd run) /\ characters (snd run) = characters st
  /\ cache_grows st (snd run)
  /\ match fst run with
     | Ok c =>
         name c = char_name
         /\ name_voice_cache (snd run) !! char_name = Some c
     | Raise e => e = AttributeError "get"
     end.
Proof.
  intros Hnamed run. subst run.
  destruct (name_voice_cache st !! char_name) as [c|] eqn:E.
  - rewrite (map_hit _ _ _ E). simpl.
    split; [done|]. split; [done|]. split; [by intros ???|].
    split; [by apply Hnamed | done].
  - rewrite (map_miss _ _ E).
    pose proof (analyze_voices char_name st) as (Hc & _ & Hch).
    destruct (analysis_value_of char_name st); simpl.
    + split; [|split; [exact Hch|split]].
      * intros k c. simpl. destruct (decide (k = char_name)) as [->|Hne].
        -- rewrite lookup_insert_eq. by intros [= <-].
        -- rewrite lookup_insert_ne by done. apply Hnamed.
      * intros k c Hk. simpl. rewrite lookup_insert_ne; [done|]. congruence.
      * split; [reflexivity | apply lookup_insert_eq].
    + split; [intros k c; rewrite Hc; apply Hnamed|].
      split; [exact Hch|]. split; [|reflexivity].
      intros k c. by rewrite Hc.
Qed.

Lemma narrator_ok st nar :
  characters st !! "narrator" = Some nar -> narrator st = (Ok nar, st).
Proof.
  intros H. unfold narrator, bind, get, subscript. cbv beta. by rewrite H.
Qed.

(** One line: where the parser returns, the segment it adds is the one
    the line describes; it raises only what a resolution raises. *)
Lemma parse_line_spec acc line st nar :
  cache_named st -> characters st !! "narrator" = Some nar ->
  let run := parse_line acc line st in
  cache_named (snd run) /\ characters (snd run) = characters st
  /\ cache_grows st (snd run)
  /\ match fst run with
     | Ok segs =>
         if Py.is_empty (Py.strip line) then segs = acc
         else exists seg,
             segs = (acc ++ [seg])%list
             /\ segment_view seg = expected_view (name nar) (Py.strip line)
             /\ voiced_by nar (snd run) seg
     | Raise e => e = AttributeError "get"
     end.
Proof.
  intros Hnamed Hnar run. subst run. unfold parse_line. cbv zeta.
  destruct (Py.is_empty (Py.strip line)).
  { simpl. split; [done|]. split; [done|]. by split; [intros ???|]. }
  assert (let run :=
            (let* n := narrator in
             ret (acc ++ [mkStorySegment (Some n) (Py.strip line) None])%list)
              st in
          cache_named (snd run) /\ characters (snd run) = characters st
          /\ cache_grows st (snd run)
          /\ match fst run with
             | Ok segs =>
                 exists seg,
                   segs = (acc ++ [seg])%list
                   /\ segment_view seg
                      = (Some (name nar), Py.strip line, None)
                   /\ voiced_by nar (snd run) seg
             | Raise e => e = AttributeError "get"
             end) as Hnarrated.
  { rewrite (bind_ok _ _ _ _ _ (narrator_ok _ _ Hnar)). simpl.
    split; [done|]. split; [done|]. split; [by intros ???|].
    eexists. split; [reflexivity|]. split; [reflexivity|].
    exists nar. by split; [|left]. }
  unfold expected_view, line_speaker_text.
  destruct (Py.contains_chr ":" (Py.strip line)); [|exact Hnarrated].
  destruct (Py.split1 ":" (Py.strip line)) as [|p0 [|p1 [|p2 ps]]];
    try exact Hnarrated.
  set (n := Py.strip (default "" (head (Py.split "(" (Py.strip p0))))).
  destruct (map_spec n st Hnamed) as (Hn' & Hch & Hgrow & Hres).
  unfold bind.
  destruct (map_character_name_to_voice n st) as [[c|e] st'];
    cbn [fst snd] in *.
  - destruct Hres as [Hname Hc].
    split; [exact Hn'|]. split; [exact Hch|]. split; [exact Hgrow|].
    eexists. split; [reflexivity|].
    split; [unfold segment_view; simpl; by rewrite Hname|].
    exists c. split; [reflexivity|]. right. by rewrite Hname.
  - by repeat split.
Qed.

Lemma voiced_by_grows nar st st' seg :
  cache_grows st st' -> voiced_by nar st seg -> voiced_by nar st' seg.
Proof.
  intros Hg (c & Hc & [Hnar|H]); exists c; split; auto.
Qed.

Lemma parse_lines_spec lines acc st nar :
  cache_named st -> characters st !! "narrator" = Some nar ->
  let run := for_each parse_line acc lines st in
  cache_named (snd run) /\ characters (snd run) = characters st
  /\ cache_grows st (snd run)
  /\ match fst run with
     | Ok segs =>
         exists new,
           segs = (acc ++ new)%list
           /\ map segment_view new
              = map (expected_view (name nar))
                  (List.filter (fun l => negb (Py.is_empty l))
                               (map Py.strip lines))
           /\ Forall (voiced_by nar (snd run)) new
     | Raise e => e = AttributeError "get"
     end.
Proof.
  revert acc st. induction lines as [|line lines IH]; intros acc st Hn Hnar.
  { simpl. split; [done|]. split; [done|]. split; [by intros ???|].
    exists []. rewrite app_nil_r. by repeat split. }
  simpl. pose proof (parse_line_spec acc line st nar Hn Hnar) as Hline.
  unfold bind.
  destruct (parse_line acc line st) as [[segs|e] st1]; cbn [fst snd] in *.
  2:{ exact Hline. }
  destruct Hline as (Hn1 & Hch1 & Hg1 & Hseg).
  assert (characters st1 !! "narrator" = Some nar) as Hnar1
    by (by rewrite Hch1).
  specialize (IH segs st1 Hn1 Hnar1). cbv zeta in IH.
  destruct IH as (Hn' & Hch' & Hg' & Hres).
  split; [exact Hn'|]. split; [congruence|].
  split; [intros k c Hk; by apply Hg', Hg1|].
  destruct (for_each parse_line segs lines st1) as [[segs'|e] st'];
    cbn [fst snd] in *; [|exact Hres].
  destruct Hres as (new & -> & Hviews & Hv).
  destruct (Py.is_empty (Py.strip line)); simpl.
  - subst segs. exists new. by repeat split.
  - destruct Hseg as (seg & -> & Hview & Hv1).
    exists (seg :: new). rewrite <- app_assoc. simpl.
    split; [done|]. split; [by rewrite Hview, Hviews|].
    constructor; [|done]. by eapply voiced_by_grows.
Qed.

(** With a plain classifier no line makes the parser raise. *)
Lemma parse_lines_plain lines acc st nar :
  cache_named st -> characters st !! "narrator" = Some nar ->
  classifier_plain st ->
  exists segs, fst (for_each parse_line acc lines st) = Ok segs.
Proof.
  revert acc st. induction lines as [|line lines IH];
    intros acc st Hn Hnar Hp; [simpl; eauto|].
  simpl. pose proof (parse_line_spec acc line st nar Hn Hnar) as Hline.
  assert (exists segs, fst (parse_line acc line st) = Ok segs
                       /\ classifier_plain (snd (parse_line acc line st)))
    as (segs & Hok & Hp1).
  { unfold parse_line. cbv zeta.
    destruct (Py.is_empty (Py.strip line)); [simpl; eauto|].
    assert (exists segs,
              fst ((let* n := narrator in
                    ret (acc ++ [mkStorySegment (Some n) (Py.strip line) None])%list)
                     st) = Ok segs
              /\ classifier_plain
                   (snd ((let* n := narrator in
                          ret (acc ++ [mkStorySegment (Some n) (Py.strip line)
                                         None])%list) st))) as Hnarrated
      by (rewrite (bind_ok _ _ _ _ _ (narrator_ok _ _ Hnar)); simpl; eauto).
    destruct (Py.contains_chr ":" (Py.strip line)); [|exact Hnarrated].
    destruct (Py.split1 ":" (Py.strip line)) as [|p0 [|p1 [|p2 ps]]];
      try exact Hnarrated.
    set (n := Py.strip (default "" (head (Py.split "(" (Py.strip p0))))).
    destruct (map_plain n st Hp) as [[c Hc] Hp1].
    unfold bind.
    destruct (map_character_name_to_voice n st) as [[c'|e] st'];
      cbn [fst snd] in *; [|discriminate].
    simpl. eauto. }
  unfold bind.
  destruct (parse_line acc line st) as [[segs'|e] st1]; cbn [fst snd] in *;
    [|discriminate].
  destruct Hline as (Hn1 & Hch1 & _).
  apply IH; [exact Hn1 | by rewrite Hch1 | exact Hp1].
Qed.

(** What parsing yields with a plain classifier. *)
Lemma parse_plain_spec story st nar :
  cache_named st -> characters st !! "narrator" = Some nar ->
  classifier_plain st ->
  let run := parse_story_into_segments story st in
  exists segs,
    fst run = Ok segs
    /\ story_segments (snd run) = segs
    /\ map segment_view segs
       = map (expected_view (name nar)) (nonblank_lines story)
    /\ Forall (voiced_by nar (snd run)) segs.
Proof.
  intros Hn Hnar Hp. unfold parse_story_into_segments. cbv zeta.
  destruct (parse_lines_plain (Py.split newline story) [] st nar Hn Hnar Hp)
    as [segs Hok].
  destruct (parse_lines_spec (Py.split newline story) [] st nar Hn Hnar)
    as (_ & _ & _ & Hres).
  destruct (for_each parse_line [] (Py.split newline story) st)
    as [[segs'|e] st'] eqn:Hrun; cbn [fst snd] in *; [|discriminate].
  rewrite (bind_ok _ _ _ _ _ Hrun).
  destruct Hres as (new & -> & Hviews & Hv).
  simpl. exists new. split; [done|]. split; [done|]. split; [done|].
  exact Hv.
Qed.

(** For an orchestrator that has a narrator, a voice cache filed by
    name and a classifier from which no analysis is anything but a
    dictionary, parsing does not fail and yields one segment per
    non-blank line, in line order: a line with a colon is spoken by the
    label before its first colon (cut at the first parenthesis,
    stripped) and says the stripped rest; a line without a colon is
    spoken by the narrator and says the whole stripped line.  Every
    segment has a character and no audio file yet, and the list is
    stored in [story_segments]. *)
Theorem parse_in_line_order story st nar :
  cache_named st -> characters st !! "narrator" = Some nar ->
  classifier_plain st ->
  exists segs,
    fst (parse_story_into_segments story st) = Ok segs
    /\ story_segments (snd (parse_story_into_segments story st)) = segs
    /\ map segment_view segs
       = map (expected_view (name nar)) (nonblank_lines story).
Proof.
  intros Hn Hnar Hp.
  destruct (parse_plain_spec story st nar Hn Hnar Hp)
    as (segs & Hok & Hstored & Hviews & _).
  exists segs. by repeat split.
Qed.

Lemma cache_named_init w : cache_named (init w).
Proof. intros k c. simpl. by rewrite lookup_empty. Qed.

Lemma classifier_plain_quiet now : classifier_plain (init (quiet_world now)).
Proof.
  split; [|constructor]. intros k v. simpl. by rewrite lookup_empty.
Qed.

Lemma parse_in_line_order_witness :
  exists segs,
    fst (parse_story_into_segments "Kael (softly): Go. " (init (quiet_world 0)))
    = Ok segs
    /\ story_segments
         (snd (parse_story_into_segments "Kael (softly): Go. "
                 (init (quiet_world 0)))) = segs
    /\ map segment_view segs
       = map (expected_view "Narrator") (nonblank_lines "Kael (softly): Go. ").
Proof.
  apply (parse_in_line_order "Kael (softly): Go. " (init (quiet_world 0))
           (mkCharacter "Narrator"
              "A wise storyteller with a warm, engaging voice who brings the world to life with vivid descriptions"
              "English_expressive_narrator" 1.0 1.0 0.0 "calm")).
  - apply cache_named_init.
  - reflexivity.
  - apply classifier_plain_quiet.
Defined.

Example parse_three_lines :
  let story :=
    "Narrator: The sun rose." +:+ String newline
      ("Kael: I must go!" +:+ String newline "just text") in
  map (expected_view "Narrator") (nonblank_lines story)
  = [ (Some "Narrator", "The sun rose.", None);
      (Some "Kael", "I must go!", None);
      (Some "Narrator", "just text", None) ].
Proof. reflexivity. Qed.

(** Within one parsed story, two segments whose speakers carry the same
    name have the very same profile, hence the same voice, unless one of
    them is the built-in narrator object used for lines without a
    colon. *)
Theorem same_speaker_same_voice story st nar segs s1 s2 c1 c2 :
  cache_named st -> characters st !! "narrator" = Some nar ->
  fst (parse_story_into_segments story st) = Ok segs ->
  In s1 segs -> In s2 segs ->
  character s1 = Some c1 -> character s2 = Some c2 ->
  name c1 = name c2 -> c1 <> nar -> c2 <> nar ->
  c1 = c2.
Proof.
  intros Hn Hnar Hres H1 H2 Hc1 Hc2 Hname Hn1 Hn2.
  unfold parse_story_into_segments in Hres. cbv zeta in Hres.
  destruct (parse_lines_spec (Py.split newline story) [] st nar Hn Hnar)
    as (_ & _ & _ & Hspec).
  unfold bind at 1 in Hres.
  destruct (for_each parse_line [] (Py.split newline story) st)
    as [[segs'|e] st']; cbn [fst snd] in *; [|discriminate].
  destruct Hspec as (new & -> & _ & Hv). simpl in Hres.
  injection Hres as <-.
  rewrite Forall_forall in Hv.
  destruct (Hv s1 (proj2 (list_elem_of_In _ _) H1)) as (d1 & Hd1 & [->|Hk1]);
    [congruence|].
  destruct (Hv s2 (proj2 (list_elem_of_In _ _) H2)) as (d2 & Hd2 & [->|Hk2]);
    [congruence|].
  assert (d1 = c1) as -> by congruence.
  assert (d2 = c2) as -> by congruence.
  rewrite Hname in Hk1. congruence.
Qed.

Lemma same_speaker_same_voice_witness :
  let kael :=
    mkCharacter "Kael"
      "AI-generated character with unknown voice, adult age group, neutral personality"
      "English_magnetic_voiced_man" 1.0 1.0 0.0 "neutral" in
  kael = kael.
Proof.
  intros kael.
  pose (nar :=
    mkCharacter "Narrator"
      "A wise storyteller with a warm, engaging voice who brings the world to life with vivid descriptions"
      "English_expressive_narrator" 1.0 1.0 0.0 "calm").
  pose (s1 := mkStorySegment (Some kael) "One." None).
  pose (s2 := mkStorySegment (Some kael) "Two." None).
  apply (same_speaker_same_voice
           ("Kael: One." +:+ String newline "Kael: Two.")
           (init (quiet_world 0)) nar [s1; s2] s1 s2 kael kael).
  - apply cache_named_init.
  - reflexivity.
  - vm_compute. reflexivity.
  - simpl. tauto.
  - simpl. tauto.
  - reflexivity.
  - reflexivity.
  - reflexivity.
  - discriminate.
  - discriminate.
Defined.

End Parser.

(** ** Further properties of the rate limiter *)

Section LimiterEdges.

Import RateLimiter.

Lemma prune_all_stale now ts : all_stale now ts -> prune now ts = [].
Proof.
  induction 1 as [|t ts Ht _ IH]; [reflexivity|].
  simpl. assert (Qltb (now - t) 60 = false) as ->
    by (apply Qltb_false; exact Ht).
  exact IH.
Qed.

(** When every recorded request is a minute old or older (in particular
    on a fresh limiter), a limiter with a positive limit lets the caller
    through at once: no sleep, no event, and the window is exactly the
    current clock reading. *)
Theorem idle_limiter_does_not_wait r w :
  (1 <= requests_per_minute r)%Z ->
  all_stale (clock w) (request_times r) ->
  wait_if_needed (r, w) = (Ok tt, (set_times r [clock w], w)).
Proof.
  intros Hrpm Hstale. unfold wait_if_needed. cbv zeta.
  rewrite (prune_all_stale _ _ Hstale). simpl.
  destruct (Z.of_nat 0 >=? requests_per_minute r)%Z eqn:E.
  - rewrite Z.geb_leb in E. apply Z.leb_le in E. simpl in E. lia.
  - reflexivity.
Qed.

Lemma idle_limiter_does_not_wait_witness :
  wait_if_needed (make 50, quiet_world 7)
  = (Ok tt, (set_times (make 50) [clock (quiet_world 7)], quiet_world 7)).
Proof.
  apply (idle_limiter_does_not_wait (make 50) (quiet_world 7)).
  - simpl. lia.
  - constructor.
Defined.

(** A limiter whose limit is zero or negative cannot serve a request once
    its window is empty or stale: [min()] of the pruned, empty window
    raises [ValueError]; the window is left empty and nothing is
    recorded. *)
Theorem nonpositive_limit_raises r w :
  (requests_per_minute r <= 0)%Z ->
  all_stale (clock w) (request_times r) ->
  wait_if_needed (r, w)
  = (Raise (ValueError "min() arg is an empty sequence"),
     (set_times r [], w)).
Proof.
  intros Hrpm Hstale. unfold wait_if_needed. cbv zeta.
  rewrite (prune_all_stale _ _ Hstale). simpl.
  destruct (Z.of_nat 0 >=? requests_per_minute r)%Z eqn:E; [reflexivity|].
  rewrite Z.geb_leb in E. apply Z.leb_gt in E. simpl in E. lia.
Qed.

Lemma nonpositive_limit_raises_witness :
  wait_if_needed (make (-1), quiet_world 0)
  = (Raise (ValueError "min() arg is an empty sequence"),
     (set_times (make (-1)) [], quiet_world 0)).
Proof.
  apply (nonpositive_limit_raises (make (-1)) (quiet_world 0)).
  - simpl. lia.
  - constructor.
Defined.

Lemma sorted_filter (f : Q -> bool) ts :
  StronglySorted Qle ts -> StronglySorted Qle (List.filter f ts).
Proof.
  induction 1 as [|t ts Hs IH Hall]; simpl; [constructor|].
  destruct (f t); [|exact IH]. constructor; [exact IH|].
  rewrite List.Forall_forall in *. intros x Hx.
  apply List.filter_In in Hx. apply Hall, Hx.
Qed.

Lemma sorted_snoc ts c :
  StronglySorted Qle ts -> Forall (fun t => (t <= c)%Q) ts ->
  StronglySorted Qle (ts ++ [c]).
Proof.
  induction 1 as [|t ts Hs IH Hall]; intros Hle; simpl.
  - repeat constructor.
  - inversion Hle; subst. constructor; [by apply IH|].
    apply List.Forall_app. split; [exact Hall | by constructor].
Qed.

Lemma forall_le_filter (f : Q -> bool) ts c :
  Forall (fun t => (t <= c)%Q) ts ->
  Forall (fun t => (t <= c)%Q) (List.filter f ts).
Proof.
  rewrite !List.Forall_forall. intros H x Hx.
  apply List.filter_In in Hx. apply H, Hx.
Qed.

Lemma forall_le_later ts c c' :
  (c <= c')%Q -> Forall (fun t => (t <= c)%Q) ts ->
  Forall (fun t => (t <= c')%Q) ts.
Proof.
  intros Hc. apply List.Forall_impl. intros t Ht. lra.
Qed.

Lemma window_ordered_acquire st :
  lags_ok (snd st) -> window_ordered st ->
  window_ordered (snd (wait_if_needed st)) /\ lags_ok (snd (snd (wait_if_needed st))).
Proof.
  destruct st as [r w]. intros Hl [Hs Hle]. simpl in Hl, Hs, Hle.
  assert (forall c w0 r0,
            lags_ok w0 -> (clock w0 == c)%Q ->
            StronglySorted Qle (request_times r0) ->
            Forall (fun t => (t <= c)%Q) (request_times r0) ->
            window_ordered (snd (record_and_space c (r0, w0)))
            /\ lags_ok (snd (snd (record_and_space c (r0, w0))))) as Htail.
  { intros c w0 r0 Hl0 Hc Hs0 Hle0.
    destruct (record_and_space_spec c r0 w0 Hl0 Hc)
      as (w' & -> & Hl' & Hc').
    split; [|exact Hl']. split; simpl.
    - by apply sorted_snoc.
    - apply List.Forall_app. split.
      + eapply forall_le_later; [exact Hc' | exact Hle0].
      + by constructor. }
  unfold wait_if_needed. cbv zeta.
  set (r1 := set_times r (prune (clock w) (request_times r))).
  assert (StronglySorted Qle (request_times r1)) as Hs1
    by (apply sorted_filter; exact Hs).
  assert (Forall (fun t => (t <= clock w)%Q) (request_times r1)) as Hle1
    by (apply forall_le_filter; exact Hle).
  destruct (Z.of_nat (length (request_times r1)) >=? requests_per_minute r1)%Z.
  - destruct (Qmin_list (request_times r1)) as [oldest|] eqn:Emin.
    + destruct (Qltb 0 (60 - (clock w - oldest) + 1)) eqn:Epos.
      * apply Htail; [by apply sleep_lags | reflexivity | exact Hs1 |].
        apply Qltb_true in Epos.
        pose proof (sleep_clock (60 - (clock w - oldest) + 1) w Hl).
        eapply forall_le_later; [|exact Hle1]. lra.
      * apply Htail; [exact Hl | reflexivity | exact Hs1 | exact Hle1].
    + simpl. split; [split|]; assumption.
  - apply Htail; [exact Hl | reflexivity | exact Hs1 | exact Hle1].
Qed.

(** However acquisitions and idle periods alternate from a fresh
    limiter, the window stays in ascending order and never holds a stamp
    later than the clock: the oldest request is always the first entry. *)
Theorem window_stays_ordered rpm ss w :
  lags_ok w -> steps_ok ss ->
  window_ordered (limiter_run ss (make rpm, w)).
Proof.
  intros Hw Hss.
  assert (forall st, lags_ok (snd st) -> window_ordered st ->
            window_ordered (limiter_run ss st)) as Hrun.
  { induction Hss as [|s ss Hs Hss IH]; intros st Hl Ho; [exact Ho|].
    simpl. destruct s as [|d].
    - destruct (window_ordered_acquire st Hl Ho) as [Ho' Hl'].
      by apply IH.
    - apply IH.
      + exact Hl.
      + destruct st as [r w0]. destruct Ho as [Hsorted Hle].
        split; [exact Hsorted|]. simpl in *.
        eapply forall_le_later; [|exact Hle]. rewrite Qred_correct. lra. }
  apply Hrun; [exact Hw|]. split; simpl; constructor.
Qed.

Lemma window_stays_ordered_witness :
  window_ordered
    (limiter_run [Acquire; Idle 1; Acquire] (make 50, quiet_world 0)).
Proof.
  apply (window_stays_ordered 50 [Acquire; Idle 1; Acquire] (quiet_world 0)).
  - constructor.
  - repeat constructor. simpl. lra.
Defined.

End LimiterEdges.

(** ** The usage ledger *)

Section Ledger.

Lemma counter_sum_comm (z1 z2 y : Z) :
  z1 + (z2 + y) = z2 + (z1 + y).
Proof. lia. Qed.

Lemma counter_sum_bump (m : gmap string Z) k d :
  counter_sum (<[k := default 0 (m !! k) + d]> m) = counter_sum m + d.
Proof.
  unfold counter_sum. destruct (m !! k) as [v|] eqn:E; simpl.
  - rewrite <- (insert_delete_eq m k (v + d)).
    rewrite <- (insert_id m k v E) at 2.
    rewrite <- (insert_delete_eq m k v).
    rewrite !map_fold_insert_L;
      try (by apply lookup_delete_eq);
      try (intros; apply counter_sum_comm).
    lia.
  - rewrite map_fold_insert_L;
      [lia | intros; apply counter_sum_comm | exact E].
Qed.

Lemma ledger_consistent_empty : ledger_consistent empty_usage_stats.
Proof. split; reflexivity. Qed.

Lemma ledger_consistent_call model u :
  ledger_consistent u -> ledger_consistent (track_call model u).
Proof.
  intros [Hc Ht]. split; simpl; [|exact Ht].
  rewrite counter_sum_bump. lia.
Qed.

Lemma ledger_consistent_tokens model total u :
  ledger_consistent u -> ledger_consistent (track_tokens model total u).
Proof.
  intros [Hc Ht]. split; simpl; [exact Hc|].
  rewrite counter_sum_bump. lia.
Qed.

Lemma ledger_consistent_cost cost u :
  ledger_consistent u -> ledger_consistent (track_cost cost u).
Proof. intros [Hc Ht]. by split. Qed.

Lemma keeps_ledger_update f :
  (forall u, ledger_consistent u -> ledger_consistent (f u)) ->
  preserves keeps_ledger_ok (update_stats f).
Proof.
  intros Hf st Hok. unfold ledger_ok in *. simpl. apply Hf.
  destruct (api_usage_stats st); [exact Hok | apply ledger_consistent_empty].
Qed.

(** [make_api_call] keeps the ledger's totals equal to the sums of its
    per-model counters: [total_calls] is the sum of [calls_by_model] and
    [total_tokens] the sum of [tokens_by_model], whether the call
    succeeds, is retried or raises. *)
Theorem ledger_totals_agree model_type st :
  ledger_ok st -> ledger_ok (snd (make_api_call model_type st)).
Proof.
  assert (forall st, keeps_ledger_ok st st) as Hr by (by intros ??).
  assert (forall a b c, keeps_ledger_ok a b -> keeps_ledger_ok b c ->
                        keeps_ledger_ok a c) as Ht
    by (unfold keeps_ledger_ok; auto).
  assert (forall st w, keeps_ledger_ok st (set_world w st)) as Hw
    by (by intros ???).
  assert (forall st svc r, keeps_ledger_ok st (set_limiter svc r st)) as Hl
    by (intros ? [] ? ?; done).
  revert st. change (preserves keeps_ledger_ok (make_api_call model_type)).
  unfold make_api_call.
  repeat (preserves_step Hr Ht Hw Hl);
    try (apply keeps_ledger_update; auto using ledger_consistent_call).
  match goal with
  | |- context [usage ?j] => destruct (usage j)
  end; [|preserves_step Hr Ht Hw Hl].
  unfold record_usage.
  apply preserves_bind; [exact Ht | preserves_step Hr Ht Hw Hl | intros g].
  apply preserves_bind; [exact Ht | preserves_step Hr Ht Hw Hl | intros total].
  apply preserves_bind; [exact Ht | | intros _].
  { apply keeps_ledger_update. intros ?. apply ledger_consistent_tokens. }
  apply preserves_bind; [exact Ht | | intros cost].
  - apply preserves_if; repeat (preserves_step Hr Ht Hw Hl).
  - apply keeps_ledger_update. intros ?. apply ledger_consistent_cost.
Qed.

Lemma ledger_totals_agree_witness :
  ledger_ok
    (snd (make_api_call "story_generation"
            (init (world_with
                     [generation_reply "Narrator: Once." "stop"
                        (mkUsage (Some (CountInt 1000)) (Some (CountInt 500))
                                 (Some (CountInt 1500)))])))).
Proof.
  apply (ledger_totals_agree "story_generation"). exact I.
Defined.

(** A call that ends in an exception records nothing: it raises the
    failure of its deciding attempt, and the ledger is the one there was
    before (merely created, all zero, if there was none). *)
Theorem failed_call_records_nothing model_type st e :
  limiter_ok Chat st ->
  failure_of (deciding_outcome st) = Some e ->
  fst (make_api_call model_type st) = Raise e
  /\ api_usage_stats (snd (make_api_call model_type st))
     = Some (default empty_usage_stats (api_usage_stats st)).
Proof.
  intros Hok Hfail.
  destruct (make_api_call_spec model_type st Hok) as [_ Hspec].
  by rewrite Hfail in Hspec.
Qed.

Lemma failed_call_records_nothing_witness :
  fst (make_api_call "name_analysis" (init (world_with [status_reply 503])))
  = Raise (HTTPError 503)
  /\ api_usage_stats
       (snd (make_api_call "name_analysis"
               (init (world_with [status_reply 503]))))
     = Some (default empty_usage_stats
               (api_usage_stats (init (world_with [status_reply 503])))).
Proof.
  apply (failed_call_records_nothing "name_analysis"
           (init (world_with [status_reply 503])) (HTTPError 503)).
  - unfold limiter_ok. simpl. unfold RATE_LIMITS_chat_rpm. lia.
  - reflexivity.
Defined.

(** A call that is answered counts once: [total_calls] and the counter
    of its model go up by one, the counters of other models stay, and
    [total_tokens] grows by the [total_tokens] the body reports (by
    nothing when the body has no usage block, in which case cost and
    token counters are untouched). *)
Theorem answered_call_counts_once model_type st result :
  limiter_ok Chat st ->
  answers (deciding_outcome st) result ->
  let model := model_of model_type in
  let u0 := default empty_usage_stats (api_usage_stats st) in
  exists u1,
    api_usage_stats (snd (make_api_call model_type st)) = Some u1
    /\ total_calls u1 = total_calls u0 + 1
    /\ calls_by_model u1 !! model
       = Some (default 0 (calls_by_model u0 !! model) + 1)
    /\ (forall other, other <> model ->
          calls_by_model u1 !! other = calls_by_model u0 !! other)
    /\ stats_total_tokens u1 = stats_total_tokens u0 + reported_tokens result
    /\ (usage result = None ->
        estimated_cost u1 = estimated_cost u0
        /\ tokens_by_model u1 = tokens_by_model u0).
Proof.
  intros Hok Hans model u0.
  destruct (answers_decides _ _ Hans) as (Hnone & r & Hr & Hb).
  destruct (make_api_call_spec model_type st Hok) as [_ Hspec].
  rewrite Hnone in Hspec. destruct Hspec as (r' & j & Hr' & Hb' & _ & Hu).
  assert (j = result) as -> by congruence.
  eexists. split; [exact Hu|].
  unfold ledger_after, reported_tokens. fold model. fold u0.
  assert (forall u, total_calls u = total_calls u0 + 1 ->
                    calls_by_model u
                    = <[model := default 0 (calls_by_model u0 !! model) + 1]>
                        (calls_by_model u0) ->
                    forall d, stats_total_tokens u = stats_total_tokens u0 + d ->
                    total_calls u = total_calls u0 + 1
                    /\ calls_by_model u !! model
                       = Some (default 0 (calls_by_model u0 !! model) + 1)
                    /\ (forall other, other <> model ->
                          calls_by_model u !! other
                          = calls_by_model u0 !! other)
                    /\ stats_total_tokens u = stats_total_tokens u0 + d)
    as Hcounts.
  { intros u H1 H2 d H3. split; [exact H1|]. rewrite H2.
    split; [apply lookup_insert_eq|].
    split; [intros other Hne; by rewrite lookup_insert_ne | exact H3]. }
  destruct (usage result) as [[g|]|].
  - destruct (count_or_zero (total_tokens g)) as [total|].
    + assert (forall u,
                total_calls u = total_calls u0 + 1 ->
                calls_by_model u
                = <[model := default 0 (calls_by_model u0 !! model) + 1]>
                    (calls_by_model u0) ->
                stats_total_tokens u = stats_total_tokens u0 + total ->
                total_calls u = total_calls u0 + 1
                /\ calls_by_model u !! model
                   = Some (default 0 (calls_by_model u0 !! model) + 1)
                /\ (forall other, other <> model ->
                      calls_by_model u !! other = calls_by_model u0 !! other)
                /\ stats_total_tokens u = stats_total_tokens u0 + total
                /\ (Some (UsageObject g) = None ->
                    estimated_cost u = estimated_cost u0
                    /\ tokens_by_model u = tokens_by_model u0)) as Hall.
      { intros u H1 H2 H3.
        destruct (Hcounts u H1 H2 total H3) as (? & ? & ? & ?).
        by repeat split. }
      destruct (priced_by_tokens model);
        [destruct (count_or_zero (prompt_tokens g));
         [destruct (count_or_zero (completion_tokens g))|]|];
        apply Hall; reflexivity.
    + destruct (Hcounts (track_call model u0) eq_refl eq_refl 0)
        as (? & ? & ? & ?); [simpl; lia|]. by repeat split.
  - destruct (Hcounts (track_call model u0) eq_refl eq_refl 0)
      as (? & ? & ? & ?); [simpl; lia|]. by repeat split.
  - destruct (Hcounts (track_call model u0) eq_refl eq_refl 0)
      as (? & ? & ? & ?); [simpl; lia|]. by repeat split.
Qed.

Lemma answered_call_counts_once_witness :
  let st := init (world_with [no_choices_reply]) in
  exists u1,
    api_usage_stats (snd (make_api_call "name_analysis" st)) = Some u1
    /\ total_calls u1 = 0 + 1
    /\ calls_by_model u1 !! "MiniMax-Text-01" = Some (0 + 1)
    /\ (forall other, other <> "MiniMax-Text-01" ->
          calls_by_model u1 !! other = None)
    /\ stats_total_tokens u1 = 0 + 10
    /\ (Some (UsageObject
                (mkUsage (Some (CountInt 10)) (Some (CountInt 0))
                         (Some (CountInt 10)))) = None ->
        estimated_cost u1 = 0%float /\ tokens_by_model u1 = ∅).
Proof.
  intros st.
  apply (answered_call_counts_once "name_analysis" st
           (mkJson None
              (Some (UsageObject
                       (mkUsage (Some (CountInt 10)) (Some (CountInt 0))
                                (Some (CountInt 10))))) None)).
  - subst st. unfold limiter_ok. simpl. unfold RATE_LIMITS_chat_rpm. lia.
  - subst st. unfold deciding_outcome, outcome_at. simpl.
    split; [discriminate|]. split; [left; reflexivity | reflexivity].
Defined.

Lemma model_of_cases model_type :
  (model_type = "story_generation" /\ model_of model_type = "MiniMax-M1")
  \/ (model_type <> "story_generation"
      /\ model_of model_type = "MiniMax-Text-01").
Proof.
  unfold model_of, MODELS. simpl.
  destruct (String.eqb model_type "story_generation") eqn:E1.
  - apply String.eqb_eq in E1. by left.
  - apply String.eqb_neq in E1. right. split; [exact E1|].
    destruct (String.eqb model_type "name_analysis");
      [reflexivity|].
    destruct (String.eqb model_type "simple_tasks"); reflexivity.
Qed.

(** Whatever call type [make_api_call] is given, the model it uses is
    MiniMax-M1 (for "story_generation" only) or MiniMax-Text-01, and the
    cost it estimates is the token-tiered sum of that model: it does not
    depend on [total_tokens], and neither the per-character price nor the
    default rate of $0.5 per million is ever applied. *)
Theorem only_token_tiered_pricing model_type prompt completion total :
  let model := model_of model_type in
  let rates :=
    if String.eqb model_type "story_generation"
    then (0.4%float, 2.2%float) else (0.2%float, 1.1%float) in
  In model ["MiniMax-M1"; "MiniMax-Text-01"]
  /\ estimate_cost model prompt completion total
     = (Py.truediv prompt 1000000 * fst rates
        + Py.truediv completion 1000000 * snd rates)%float.
Proof.
  intros model rates. subst model rates.
  destruct (model_of_cases model_type) as [[-> ->] | [Hne ->]].
  - split; [simpl; tauto | reflexivity].
  - apply String.eqb_neq in Hne. rewrite Hne.
    split; [simpl; tauto | reflexivity].
Qed.

End Ledger.

(** ** Story generation: what the caller gets *)

Section StoryResult.

Lemma make_api_call_same_story model_type :
  preserves same_story (make_api_call model_type).
Proof.
  assert (forall st, same_story st st) as Hr by done.
  assert (forall a b c, same_story a b -> same_story b c -> same_story a c)
    as Ht by (unfold same_story; congruence).
  assert (forall st w, same_story st (set_world w st)) as Hw by done.
  assert (forall st svc r, same_story st (set_limiter svc r st)) as Hl
    by (by intros ? []).
  assert (forall f, preserves same_story (update_stats f)) as Hu
    by (intros f st; reflexivity).
  unfold make_api_call.
  repeat (preserves_step Hr Ht Hw Hl); try apply Hu.
  match goal with
  | |- context [usage ?j] => destruct (usage j)
  end; [|preserves_step Hr Ht Hw Hl].
  apply (preserves_record_usage _ Hr Ht). exact Hu.
Qed.

(** Whatever the service does, [generate_story] returns normally; a
    returned story is what [current_story] then holds, and after a
    failure ([None]) [current_story] is what it was before the call. *)
Theorem story_result_and_current_story st :
  match fst (generate_story st) with
  | Ok (Some story) => current_story (snd (generate_story st)) = story
  | Ok None => current_story (snd (generate_story st)) = current_story st
  | Raise _ => False
  end.
Proof.
  destruct (generate_story st) as [res st'] eqn:E. simpl.
  unfold generate_story, try_except, generate_story_try in E.
  unfold bind, modify, ret, raise in E.
  pose proof (make_api_call_same_story "story_generation" st) as Hs.
  unfold same_story in Hs.
  destruct (make_api_call "story_generation" st) as [[result|e] s1];
    simpl in Hs.
  - destruct (choices result) as [[|choice rest]|].
    + inversion E; subst. exact Hs.
    + destruct (message choice) as [m|].
      * destruct (content m) as [story|].
        -- destruct (negb (Py.is_empty (Py.strip story))).
           ++ inversion E; subst. reflexivity.
           ++ destruct (story_from_reasoning m) as [extracted|].
              ** inversion E; subst. reflexivity.
              ** destruct (String.eqb (default "" (finish_reason choice))
                             "length"); inversion E; subst; exact Hs.
        -- inversion E; subst. exact Hs.
      * inversion E; subst. exact Hs.
    + inversion E; subst. exact Hs.
  - destruct (is_request_exception e); inversion E; subst; exact Hs.
Qed.


(** A reply that carries a story and the usage block [null]: the call
    is counted, the bookkeeping raises, and the caller gets [None]. *)
Example null_usage_loses_story :
  let st := init (world_with [null_usage_reply "Narrator: Once."]) in
  fst (generate_story st) = Ok None
  /\ current_story (snd (generate_story st)) = EmptyString
  /\ (total_calls <$> api_usage_stats (snd (generate_story st))) = Some 1%Z
  /\ fst (make_api_call "story_generation" st) = Raise (AttributeError "get").
Proof. vm_compute. repeat split. Qed.


End StoryResult.

(** ** Synthesis: result, file and segment *)

Section SynthesisResult.

(** A synthesis call for a segment with a character.  If the output
    directory has no name or cannot be created, or a voice setting of
    the character is a NaN or an infinity, the call raises before its
    [try]: nothing is sent and nothing written.  Otherwise it does not
    raise: it returns the file name and writes the decoded bytes to that
    file exactly when the deciding attempt was answered with hexadecimal
    [data.audio] and the file can be opened; the segment's [audio_file]
    is then that name.  In every other case (failed attempt, missing
    [data.audio], text that is not hexadecimal, a file that cannot be
    opened) it returns [None], writes no file and leaves the segment as
    it was. *)
Theorem synthesis_result_and_file segment char output_dir st :
  limiter_ok Tts st -> character segment = Some char ->
  let f := synthesis_filename output_dir char st in
  let run := generate_audio_for_segment segment output_dir st in
  match setup_error output_dir char st with
  | Some e =>
      fst run = Raise e
      /\ files (world (snd run)) = files (world st)
      /\ attempts st (snd run) = 0%nat
  | None =>
      match written_audio st with
      | Some bytes =>
          fst run = Ok (Some f, set_audio_file f segment)
          /\ files (world (snd run)) = (files (world st) ++ [(f, bytes)])%list
      | None =>
          fst run = Ok (None, segment)
          /\ files (world (snd run)) = files (world st)
      end
  end.
Proof.
  intros Hok Hc f run. subst run.
  destruct (setup_error output_dir char st) as [e|] eqn:Es.
  - destruct (synthesis_setup_raise segment char output_dir st e Hc Es)
      as (Hres & _ & _ & Hev & Hfiles & _).
    split; [exact Hres|]. split; [exact Hfiles|].
    unfold attempts, new_events. rewrite Hev, drop_all. reflexivity.
  - destruct (synthesis_outcome_spec segment char output_dir st Hok Hc Es)
      as (st' & new & Heq & Hfiles & _). fold f in Heq, Hfiles.
    rewrite Heq. simpl.
    destruct (written_audio st).
    + by split.
    + rewrite app_nil_r in Hfiles. by split.
Qed.

Lemma synthesis_result_and_file_witness :
  let st := init (world_with [synthesis_reply "zz"]) in
  fst (generate_audio_for_segment kael_segment "audio_output" st)
  = Ok (None, kael_segment)
  /\ files (world (snd (generate_audio_for_segment kael_segment
                          "audio_output" st))) = [].
Proof.
  intros st.
  apply (synthesis_result_and_file kael_segment
           (mkCharacter "Kael" "" "English_magnetic_voiced_man" 1 1 0 "neutral")
           "audio_output" st).
  - subst st. unfold limiter_ok. simpl. unfold RATE_LIMITS_tts_rpm. lia.
  - reflexivity.
Defined.

(** The empty output directory, and a file that cannot be opened. *)
Example synthesis_without_directory :
  let st := init (world_with [synthesis_reply "00ff1a"]) in
  generate_audio_for_segment kael_segment "" st = (Raise (OSError ""), st).
Proof. reflexivity. Qed.

Example synthesis_file_refused :
  let st :=
    init (mkWorld 0 [] [synthesis_reply "00ff1a"] [] [] [] [false]) in
  let run := generate_audio_for_segment kael_segment "audio_output" st in
  fst run = Ok (None, kael_segment) /\ files (world (snd run)) = [].
Proof. vm_compute. by split. Qed.

(** A voice setting that is not a number: [int(char.speed * 100)]
    raises before the [try], and nothing is sent. *)
Example synthesis_speed_not_a_number :
  let st := init (world_with [synthesis_reply "00ff1a"]) in
  let segment :=
    mkStorySegment
      (Some (mkCharacter "Kael" "" "English_magnetic_voiced_man"
               PrimFloat.nan 1 0 "neutral"))
      "I must go!" None in
  let run := generate_audio_for_segment segment "audio_output" st in
  fst run = Raise (ValueError "cannot convert float NaN to integer")
  /\ attempts st (snd run) = 0%nat /\ files (world (snd run)) = [].
Proof. vm_compute. repeat split. Qed.

End SynthesisResult.

(** ** Synthesis of a whole story *)

Section FullAudio.

Lemma call_events_posts svc model st new :
  call_events svc model st new ->
  (1 <= count_posts new <= 2)%nat.
Proof.
  unfold call_events. destruct (is_throttle (outcome_at 0 st)); intros H.
  - rewrite (count_posts_two _ _ _ _ H). lia.
  - rewrite (count_posts_one _ _ _ H). lia.
Qed.

Lemma map_insert_same {A B} (f : A -> B) (l : list A) i x y :
  l !! i = Some x -> f y = f x -> map f (<[i := y]> l) = map f l.
Proof.
  intros Hi Hf. change (f <$> <[i:=y]> l = f <$> l).
  rewrite list_fmap_insert, Hf. apply list_insert_id.
  by rewrite list_lookup_fmap, Hi.
Qed.

Lemma audio_loop_step output_dir acc i st segment :
  limiter_ok Tts st ->
  story_segments st !! i = Some segment -> castable_segment segment ->
  dir_ready output_dir st ->
  exists added st' new written,
    audio_loop_body output_dir acc i st = (Ok (acc ++ added)%list, st')
    /\ files (world st') = (files (world st) ++ written)%list
    /\ map fst written = added /\ (length added <= 1)%nat
    /\ map character (story_segments st') = map character (story_segments st)
    /\ map text (story_segments st') = map text (story_segments st)
    /\ same_limits st st'
    /\ events (world st') = (events (world st) ++ new)%list
    /\ (1 <= count_posts new <= 2)%nat
    /\ characters st' = characters st
    /\ name_voice_cache st' = name_voice_cache st
    /\ mkdirs (world st') = tl (mkdirs (world st)).
Proof.
  intros Hok Hseg Hchar Hdir. unfold audio_loop_body.
  unfold bind at 1, get at 1. cbv beta. rewrite Hseg.
  unfold castable_segment in Hchar.
  destruct (character segment) as [char|] eqn:Ec; [|by destruct Hchar].
  pose proof (setup_error_none output_dir char st Hdir Hchar) as Hsetup.
  destruct (synthesis_outcome_spec segment char output_dir st Hok Ec Hsetup)
    as (st1 & new & Hrun & Hfiles & (Hself & Hlim & Hev) & Hcall & _ & Hmk).
  rewrite (bind_ok _ _ _ _ _ Hrun).
  assert (story_segments st1 = story_segments st) as Hsegs
    by (destruct Hself as (_ & _ & _ & H & _); exact H).
  pose proof (call_events_posts _ _ _ _ Hcall) as Hposts.
  assert (characters st1 = characters st
          /\ name_voice_cache st1 = name_voice_cache st) as Hdata
    by (destruct Hself as (_ & _ & H1 & _ & _ & H2 & _); by split).
  destruct (written_audio st) as [bytes|];
    unfold bind, modify, ret; cbv beta; simpl.
  - eexists [_], _, new, [_].
    split; [reflexivity|]. simpl.
    split; [exact Hfiles|]. split; [reflexivity|]. split; [lia|].
    rewrite Hsegs.
    split; [by apply (map_insert_same character _ _ segment)|].
    split; [by apply (map_insert_same text _ _ segment)|].
    split; [exact Hlim|]. split; [exact Hev|]. split; [exact Hposts|].
    split; [exact (proj1 Hdata)|]. split; [exact (proj2 Hdata)|exact Hmk].
  - eexists [], _, new, [].
    rewrite app_nil_r. split; [reflexivity|]. simpl.
    split; [exact Hfiles|]. split; [reflexivity|]. split; [lia|].
    rewrite Hsegs.
    split; [by apply (map_insert_same character _ _ segment)|].
    split; [by apply (map_insert_same text _ _ segment)|].
    split; [exact Hlim|]. split; [exact Hev|]. split; [exact Hposts|].
    split; [exact (proj1 Hdata)|]. split; [exact (proj2 Hdata)|exact Hmk].
Qed.

Lemma has_character_map segs segs' :
  map character segs' = map character segs ->
  Forall has_character segs -> Forall has_character segs'.
Proof.
  intros Hmap. rewrite !Forall_forall. intros H seg Hin.
  apply list_elem_of_lookup in Hin as [i Hi].
  assert (map character segs !! i = Some (character seg)) as Hc
    by (rewrite <- Hmap; change (map character segs')
          with (character <$> segs'); by rewrite list_lookup_fmap, Hi).
  change (map character segs) with (character <$> segs) in Hc.
  rewrite list_lookup_fmap in Hc.
  destruct (segs !! i) as [seg0|] eqn:E0; [|discriminate].
  simpl in Hc. injection Hc as Hc. unfold has_character. rewrite <- Hc.
  apply H. by eapply list_elem_of_lookup_2.
Qed.

Lemma castable_segment_map segs segs' :
  map character segs' = map character segs ->
  Forall castable_segment segs -> Forall castable_segment segs'.
Proof.
  intros Hmap. rewrite !Forall_forall. intros H seg Hin.
  apply list_elem_of_lookup in Hin as [i Hi].
  assert (map character segs !! i = Some (character seg)) as Hc
    by (rewrite <- Hmap; change (map character segs')
          with (character <$> segs'); by rewrite list_lookup_fmap, Hi).
  change (map character segs) with (character <$> segs) in Hc.
  rewrite list_lookup_fmap in Hc.
  destruct (segs !! i) as [seg0|] eqn:E0; [|discriminate].
  simpl in Hc. injection Hc as Hc. unfold castable_segment. rewrite <- Hc.
  apply H. by eapply list_elem_of_lookup_2.
Qed.

Lemma mkdirs_granted_head st :
  mkdirs_granted st -> hd true (mkdirs (world st)) = true.
Proof.
  unfold mkdirs_granted. destruct (mkdirs (world st)); [done|].
  intros H. by inversion H.
Qed.

Lemma mkdirs_granted_tail st st' :
  mkdirs (world st') = tl (mkdirs (world st)) ->
  mkdirs_granted st -> mkdirs_granted st'.
Proof.
  unfold mkdirs_granted. intros ->.
  destruct (mkdirs (world st)); [done|]. intros H. by inversion H.
Qed.

Lemma audio_loop_spec output_dir k i acc st :
  limiter_ok Tts st -> Forall castable_segment (story_segments st) ->
  output_dir <> "" -> mkdirs_granted st ->
  (i + k <= length (story_segments st))%nat ->
  exists added st' new written,
    for_each (audio_loop_body output_dir) acc (seq i k) st
    = (Ok (acc ++ added)%list, st')
    /\ files (world st') = (files (world st) ++ written)%list
    /\ map fst written = added /\ (length added <= k)%nat
    /\ map character (story_segments st') = map character (story_segments st)
    /\ map text (story_segments st') = map text (story_segments st)
    /\ events (world st') = (events (world st) ++ new)%list
    /\ (k <= count_posts new <= 2 * k)%nat
    /\ same_limits st st'
    /\ characters st' = characters st
    /\ name_voice_cache st' = name_voice_cache st.
Proof.
  revert i acc st.
  induction k as [|k IH]; intros i acc st Hok Hall Hne Hgr Hlen.
  { exists [], st, [], []. simpl. rewrite !app_nil_r.
    repeat split; try reflexivity; lia. }
  simpl.
  destruct (lookup_lt_is_Some_2 (story_segments st) i ltac:(lia))
    as [segment Hseg].
  assert (castable_segment segment) as Hchar.
  { rewrite Forall_forall in Hall. apply Hall.
    by eapply list_elem_of_lookup_2. }
  assert (dir_ready output_dir st) as Hdir
    by (split; [exact Hne | by apply mkdirs_granted_head]).
  destruct (audio_loop_step output_dir acc i st segment Hok Hseg Hchar Hdir)
    as (a1 & st1 & n1 & w1 & Hrun1 & Hf1 & Hw1 & Hl1 & Hc1 & Ht1 & Hlim1
        & He1 & Hp1 & Hch1 & Hnc1 & Hmk1).
  rewrite (bind_ok _ _ _ _ _ Hrun1).
  assert (length (story_segments st1) = length (story_segments st)) as Hsame.
  { rewrite <- (length_map character (story_segments st1)), Hc1.
    apply length_map. }
  destruct (IH (S i) (acc ++ a1)%list st1) as
    (a2 & st2 & n2 & w2 & Hrun2 & Hf2 & Hw2 & Hl2 & Hc2 & Ht2 & He2 & Hp2
     & Hlim2 & Hch2 & Hnc2).
  { unfold limiter_ok. rewrite (Hlim1 Tts). exact Hok. }
  { by eapply castable_segment_map. }
  { exact Hne. }
  { by eapply mkdirs_granted_tail. }
  { lia. }
  exists (a1 ++ a2)%list, st2, (n1 ++ n2)%list, (w1 ++ w2)%list.
  rewrite Hrun2, <- app_assoc.
  split; [reflexivity|].
  split; [by rewrite Hf2, Hf1, app_assoc|].
  split; [by rewrite map_app, Hw1, Hw2|].
  split; [rewrite length_app; lia|].
  split; [congruence|]. split; [congruence|].
  split; [by rewrite He2, He1, app_assoc|].
  split; [rewrite count_posts_app; lia|].
  split; [intros svc; by rewrite (Hlim2 svc), (Hlim1 svc)|].
  split; congruence.
Qed.

(** Synthesising the whole story when the output directory has a name
    and is there or can be created, and every stored segment has a
    character whose voice settings convert to integer percentages.  The
    call then does not raise, whatever the service answers and whether
    or not a file can be opened: every segment is attempted (at least
    one request each, at most two), a failure of one segment does not
    stop the later ones, the names returned are exactly the files
    written, in order, and the segments keep their number, characters
    and texts. *)
Theorem full_story_audio_is_robust output_dir st :
  limiter_ok Tts st -> Forall castable_segment (story_segments st) ->
  output_dir <> "" -> mkdirs_granted st ->
  let run := generate_full_story_audio output_dir st in
  let n := length (story_segments st) in
  exists audio_files written,
    fst run = Ok audio_files
    /\ files (world (snd run)) = (files (world st) ++ written)%list
    /\ map fst written = audio_files
    /\ (length audio_files <= n)%nat
    /\ map character (story_segments (snd run))
       = map character (story_segments st)
    /\ map text (story_segments (snd run)) = map text (story_segments st)
    /\ (n <= attempts st (snd run) <= 2 * n)%nat.
Proof.
  intros Hok Hall Hne Hgr run n. subst run n.
  assert (generate_full_story_audio output_dir st
          = for_each (audio_loop_body output_dir) []
              (seq 0 (length (story_segments st))) st) as -> by reflexivity.
  destruct (audio_loop_spec output_dir (length (story_segments st)) 0 [] st
              Hok Hall Hne Hgr ltac:(lia))
    as (added & st' & new & written & Hrun & Hf & Hw & Hl & Hc & Ht & He & Hp
        & _).
  rewrite Hrun. simpl. exists added, written.
  split; [reflexivity|]. split; [exact Hf|]. split; [exact Hw|].
  split; [exact Hl|]. split; [exact Hc|]. split; [exact Ht|].
  unfold attempts, new_events. rewrite He, drop_app_length. exact Hp.
Qed.

Lemma full_story_audio_is_robust_witness :
  let st :=
    set_story_segments [kael_segment; kael_segment]
      (init (world_with [status_reply 500; synthesis_reply "00ff"])) in
  let run := generate_full_story_audio "audio_output" st in
  exists audio_files written,
    fst run = Ok audio_files
    /\ files (world (snd run)) = (files (world st) ++ written)%list
    /\ map fst written = audio_files
    /\ (length audio_files <= 2)%nat
    /\ map character (story_segments (snd run))
       = map character (story_segments st)
    /\ map text (story_segments (snd run)) = map text (story_segments st)
    /\ (2 <= attempts st (snd run) <= 2 * 2)%nat.
Proof.
  intros st.
  apply (full_story_audio_is_robust "audio_output" st).
  - subst st. unfold limiter_ok. simpl. unfold RATE_LIMITS_tts_rpm. lia.
  - subst st. simpl. repeat constructor.
  - discriminate.
  - subst st. constructor.
Defined.

Example second_segment_survives_first_failure :
  let st :=
    set_story_segments [kael_segment; kael_segment]
      (init (world_with [status_reply 500; synthesis_reply "00ff"])) in
  fst (generate_full_story_audio "audio_output" st)
  = Ok ["audio_output/Kael_0.mp3"]
  /\ map audio_file
       (story_segments (snd (generate_full_story_audio "audio_output" st)))
     = [None; Some "audio_output/Kael_0.mp3"].
Proof. vm_compute. split; reflexivity. Qed.

(** Without the preparations the loop stops at the first segment: a
    directory that cannot be created raises out of the whole call. *)
Example full_story_audio_directory_refused :
  let st :=
    set_story_segments [kael_segment; kael_segment]
      (init (mkWorld 0 [] [synthesis_reply "00ff"] [] [] [false] [])) in
  fst (generate_full_story_audio "audio_output" st)
  = Raise (OSError "audio_output")
  /\ attempts st (snd (generate_full_story_audio "audio_output" st)) = 0%nat.
Proof. vm_compute. split; reflexivity. Qed.

End FullAudio.

(** ** What every sequence of calls keeps *)

Section Ready.

Lemma kept_refl st : kept st st.
Proof. by repeat split. Qed.

Lemma kept_trans a b c : kept a b -> kept b c -> kept a c.
Proof.
  intros (Hl1 & Hs1 & Hn1 & Hc1) (Hl2 & Hs2 & Hn2 & Hc2).
  split; [intros svc; by rewrite Hl2, Hl1|].
  split; [congruence|]. split; auto.
Qed.

Lemma kept_world st w : kept st (set_world w st).
Proof. split; [by intros []|]. by repeat split. Qed.

Lemma kept_acquire svc : preserves kept (acquire svc).
Proof.
  intros st.
  destruct (acquire_spec svc st) as (res & r' & w' & -> & Hr & _).
  simpl. split.
  - intros svc'. rewrite limiter_set_limiter.
    case_bool_decide as E; [by rewrite E, Hr | by destruct svc'].
  - destruct svc; by repeat split.
Qed.

Local Ltac kept_step :=
  first
    [ apply preserves_ret | apply preserves_raise | apply preserves_get
    | apply kept_acquire | apply preserves_requests_post
    | apply preserves_raise_for_status | apply preserves_response_json
    | apply preserves_time_sleep | apply preserves_subscript
    | apply preserves_ensure_dir | apply preserves_write_bytes
    | apply preserves_int_percent | apply preserves_validate_fields
    | apply preserves_if
    | apply preserves_bind; [..|intros ?] ];
  try exact kept_refl; try exact kept_trans; try exact kept_world.

Lemma kept_update_stats f : preserves kept (update_stats f).
Proof. intros st. split; [by intros []|]. by repeat split. Qed.

Lemma kept_make_api_call model_type : preserves kept (make_api_call model_type).
Proof.
  unfold make_api_call.
  repeat kept_step; try apply kept_update_stats.
  match goal with
  | |- context [usage ?j] => destruct (usage j)
  end; [|kept_step].
  apply (preserves_record_usage _ kept_refl kept_trans).
  exact kept_update_stats.
Qed.

Lemma kept_analyze char_name :
  preserves kept (analyze_character_name_with_ai char_name).
Proof.
  unfold analyze_character_name_with_ai.
  repeat kept_step.
  match goal with
  | |- context [name_analysis_cache ?s !! ?k] =>
      destruct (name_analysis_cache s !! k)
  end; [kept_step|].
  apply preserves_try; [exact kept_trans | | intros e; kept_step].
  kept_step; [apply kept_make_api_call|].
  match goal with
  | |- context [choices ?j] => destruct (choices j) as [[|choice l]|]
  end; try kept_step.
  repeat kept_step.
  match goal with
  | |- context [content_json ?m] => destruct (content_json m)
  end; repeat kept_step.
  all: try (apply preserves_modify; intros st; split; [by intros []|];
            by repeat split).
Qed.

Lemma kept_map char_name :
  preserves kept (map_character_name_to_voice char_name).
Proof.
  intros st.
  destruct (name_voice_cache st !! char_name) as [c|] eqn:E.
  { rewrite (map_hit _ _ _ E). apply kept_refl. }
  destruct (kept_analyze char_name st) as (Hl & Hs & _).
  pose proof (analyze_voices char_name st) as (_ & _ & Hch).
  split; [|split; [|split]].
  - rewrite (map_miss _ _ E).
    destruct (analysis_value_of char_name st); simpl;
      intros svc; rewrite <- (Hl svc); by destruct svc.
  - rewrite (map_miss _ _ E).
    destruct (analysis_value_of char_name st); simpl; exact Hs.
  - rewrite (map_miss _ _ E).
    destruct (analysis_value_of char_name st); simpl; by rewrite Hch.
  - intros Hn. by destruct (map_spec char_name st Hn) as (Hn' & _).
Qed.

Lemma kept_parse_line acc line : preserves kept (parse_line acc line).
Proof.
  unfold parse_line, narrator. cbv zeta.
  destruct (Py.is_empty (Py.strip line)); [kept_step|].
  destruct (Py.contains_chr ":" (Py.strip line)); [|repeat kept_step].
  destruct (Py.split1 ":" (Py.strip line)) as [|p0 [|p1 [|p2 ps]]].
  - repeat kept_step.
  - repeat kept_step.
  - apply preserves_bind; [exact kept_trans | apply kept_map |].
    intros c. apply preserves_ret. exact kept_refl.
  - repeat kept_step.
Qed.

Lemma kept_generate_story : preserves kept generate_story.
Proof.
  unfold generate_story.
  apply preserves_try; [exact kept_trans | |].
  2:{ intros e. destruct (is_request_exception e);
        apply preserves_ret; exact kept_refl. }
  apply preserves_bind; [exact kept_trans | |].
  2:{ intros s. apply preserves_ret. exact kept_refl. }
  unfold generate_story_try.
  apply preserves_bind;
    [exact kept_trans | apply kept_make_api_call | intros result].
  assert (forall s, preserves kept (modify (set_current_story s))) as Hset.
  { intros s st. split; [by intros []|]. by repeat split. }
  destruct (choices result) as [[|choice rest]|];
    try (apply preserves_raise; exact kept_refl).
  destruct (message choice) as [m|];
    [|apply preserves_raise; exact kept_refl].
  destruct (content m) as [story|];
    [|apply preserves_raise; exact kept_refl].
  destruct (negb (Py.is_empty (Py.strip story))).
  { apply preserves_bind; [exact kept_trans | apply Hset |].
    intros _. apply preserves_ret. exact kept_refl. }
  destruct (story_from_reasoning m) as [extracted|].
  { apply preserves_bind; [exact kept_trans | apply Hset |].
    intros _. apply preserves_ret. exact kept_refl. }
  destruct (String.eqb (default "" (finish_reason choice)) "length");
    apply preserves_raise; exact kept_refl.
Qed.

Lemma ready_kept st st' :
  kept st st' -> ready st -> ready st'.
Proof.
  intros (Hl & Hs & Hn & Hc) (H1 & H2 & H3 & H4 & H5).
  unfold ready, limiter_ok in *. rewrite !Hl, Hs.
  split; [exact H1|]. split; [exact H2|]. split; [by apply Hn|].
  split; [by apply Hc | exact H5].
Qed.

Lemma ready_init w : ready (init w).
Proof.
  unfold ready, limiter_ok. simpl.
  unfold RATE_LIMITS_chat_rpm, RATE_LIMITS_tts_rpm.
  split; [lia|]. split; [lia|]. split; [by eexists|].
  split; [apply cache_named_init | constructor].
Qed.

Lemma ready_parse story st :
  ready st -> ready (snd (parse_story_into_segments story st)).
Proof.
  intros Hready.
  pose proof Hready as (H1 & H2 & [nar Hnar] & H4 & H5).
  unfold parse_story_into_segments. cbv zeta.
  pose proof (preserves_for_each kept kept_refl kept_trans parse_line
                (Py.split newline story) [] kept_parse_line st) as Hk.
  pose proof (parse_lines_spec (Py.split newline story) [] st nar H4 Hnar)
    as (_ & _ & _ & Hres).
  destruct (for_each parse_line [] (Py.split newline story) st)
    as [[segs|e] st'] eqn:Hrun; simpl in Hk, Hres.
  - rewrite (bind_ok _ _ _ _ _ Hrun). simpl.
    destruct Hres as (new & -> & _ & Hv).
    destruct Hk as (Hl & _ & Hn & Hc).
    unfold ready, limiter_ok in *. simpl.
    pose proof (Hl Chat) as HlC. pose proof (Hl Tts) as HlT.
    simpl in HlC, HlT. rewrite HlC, HlT.
    split; [exact H1|]. split; [exact H2|]. split; [apply Hn; eauto|].
    split; [by apply Hc|].
    eapply List.Forall_impl; [|exact Hv].
    intros seg (c & Hc' & _). unfold has_character. by rewrite Hc'.
  - rewrite (bind_raise _ _ _ _ _ Hrun). simpl.
    by eapply ready_kept.
Qed.

Lemma kept_cast_refl st : kept_cast st st.
Proof. by repeat split. Qed.

Lemma kept_cast_trans a b c : kept_cast a b -> kept_cast b c -> kept_cast a c.
Proof.
  intros (Hl1 & Hs1 & Hn1 & Hc1) (Hl2 & Hs2 & Hn2 & Hc2).
  split; [intros svc; by rewrite Hl2, Hl1|].
  split; [congruence|]. split; auto.
Qed.

Lemma kept_cast_of_kept st st' : kept st st' -> kept_cast st st'.
Proof.
  intros (Hl & Hs & Hn & Hc). split; [exact Hl|].
  split; [by rewrite Hs|]. by split.
Qed.

Lemma ready_kept_cast st st' :
  kept_cast st st' -> ready st -> ready st'.
Proof.
  intros (Hl & Hs & Hn & Hc) (H1 & H2 & H3 & H4 & H5).
  unfold ready, limiter_ok in *. rewrite !Hl.
  split; [exact H1|]. split; [exact H2|]. split; [by apply Hn|].
  split; [by apply Hc | by eapply has_character_map].
Qed.

Local Ltac kept_match :=
  repeat match goal with
         | |- context [match ?x with Some _ => _ | None => _ end] =>
             destruct x
         end.

Lemma kept_synthesis segment output_dir :
  preserves kept (generate_audio_for_segment segment output_dir).
Proof.
  unfold generate_audio_for_segment.
  kept_step; [destruct (character segment); kept_step|].
  repeat kept_step.
  apply preserves_try; [exact kept_trans | |].
  - repeat kept_step. kept_match; repeat kept_step.
  - intros e. destruct (is_request_exception e); kept_step.
Qed.

(** What one synthesis hands back is the segment it was given, with at
    most its [audio_file] set. *)
Lemma synthesis_same_character segment output_dir st :
  limiter_ok Tts st ->
  match fst (generate_audio_for_segment segment output_dir st) with
  | Ok (_, updated) =>
      character updated = character segment /\ text updated = text segment
  | Raise _ => True
  end.
Proof.
  intros Hok.
  destruct (character segment) as [char|] eqn:Ec.
  - destruct (setup_error output_dir char st) as [e|] eqn:Es.
    + destruct (synthesis_setup_raise segment char output_dir st e Ec Es)
        as (-> & _). exact I.
    + destruct (synthesis_outcome_spec segment char output_dir st Hok Ec Es)
        as (st' & new & -> & _). simpl.
      destruct (written_audio st); by split.
  - unfold generate_audio_for_segment. rewrite Ec. exact I.
Qed.

Lemma kept_audio_loop_body output_dir acc i st :
  limiter_ok Tts st ->
  kept_cast st (snd (audio_loop_body output_dir acc i st)).
Proof.
  intros Hok. unfold audio_loop_body.
  unfold bind at 1, get at 1. cbv beta.
  destruct (story_segments st !! i) as [segment|] eqn:Hseg;
    [|apply kept_cast_refl].
  pose proof (kept_synthesis segment output_dir st) as Hk.
  pose proof (synthesis_same_character segment output_dir st Hok) as Hsame.
  destruct (generate_audio_for_segment segment output_dir st)
    as [[[audio_file updated]|e] st1] eqn:Hrun; simpl in Hk, Hsame.
  - rewrite (bind_ok _ _ _ _ _ Hrun).
    destruct Hk as (Hl & Hs & Hn & Hc). destruct Hsame as [Hch Htx].
    assert (kept_cast st
              (set_story_segments (<[i := updated]> (story_segments st1)) st1))
      as Hgoal.
    { split; [intros svc; rewrite <- (Hl svc); by destruct svc|].
      split; [|by split]. simpl. rewrite Hs.
      by apply (map_insert_same character _ _ segment). }
    destruct audio_file; exact Hgoal.
  - rewrite (bind_raise _ _ _ _ _ Hrun). by apply kept_cast_of_kept.
Qed.

Lemma kept_audio_loop output_dir l acc st :
  limiter_ok Tts st ->
  kept_cast st (snd (for_each (audio_loop_body output_dir) acc l st)).
Proof.
  revert acc st. induction l as [|i l IH]; intros acc st Hok; simpl.
  { apply kept_cast_refl. }
  pose proof (kept_audio_loop_body output_dir acc i st Hok) as Hk.
  destruct (audio_loop_body output_dir acc i st) as [[acc'|e] st1] eqn:Hrun;
    simpl in Hk.
  - rewrite (bind_ok _ _ _ _ _ Hrun).
    eapply kept_cast_trans; [exact Hk|]. apply IH.
    unfold limiter_ok. destruct Hk as (Hl & _). rewrite (Hl Tts). exact Hok.
  - by rewrite (bind_raise _ _ _ _ _ Hrun).
Qed.

Lemma ready_synthesize output_dir st :
  ready st -> ready (snd (generate_full_story_audio output_dir st)).
Proof.
  intros Hready.
  assert (generate_full_story_audio output_dir st
          = for_each (audio_loop_body output_dir) []
              (seq 0 (length (story_segments st))) st) as -> by reflexivity.
  eapply ready_kept_cast; [|exact Hready].
  apply kept_audio_loop. by destruct Hready as (_ & H2 & _).
Qed.

Lemma kept_add_character c : preserves kept (add_character c).
Proof.
  intros st. split; [by intros []|]. split; [reflexivity|]. split; [|done].
  simpl. intros Hn. apply lookup_insert_is_Some.
  destruct (decide (Py.lower (name c) = "narrator")); auto.
Qed.

(** From [__init__] on, whatever calls are made in whatever order
    (adding characters, generating, resolving, parsing, synthesising,
    waiting) and whatever the services answer: both limiters keep their
    positive limits, the characters keep a narrator entry, every cached
    profile is filed under its own name, and every stored segment has a
    character, so that neither parsing nor synthesis can meet a missing
    narrator or a missing speaker. *)
Theorem every_call_keeps_orchestrator_ready calls w :
  ready (run_calls calls (init w)).
Proof.
  assert (forall st, ready st -> ready (run_calls calls st)) as Hrun.
  { induction calls as [|c calls IH]; intros st Hready; [exact Hready|].
    simpl. apply IH. destruct c as [ch| |n|story|dir|d]; simpl.
    - eapply ready_kept; [apply kept_add_character | exact Hready].
    - eapply ready_kept; [apply kept_generate_story | exact Hready].
    - eapply ready_kept; [apply kept_map | exact Hready].
    - by apply ready_parse.
    - by apply ready_synthesize.
    - eapply ready_kept; [apply kept_world | exact Hready]. }
  apply Hrun, ready_init.
Qed.

(** *** What parsing leaves to the synthesis *)

Lemma same_dirs_refl st : same_dirs st st.
Proof. reflexivity. Qed.

Lemma same_dirs_trans a b c :
  same_dirs a b -> same_dirs b c -> same_dirs a c.
Proof. unfold same_dirs. congruence. Qed.

Lemma same_dirs_acquire svc : preserves same_dirs (acquire svc).
Proof.
  intros st. destruct (acquire_spec svc st)
    as (res & r' & w' & -> & _ & (_ & _ & _ & Hm & _) & _).
  unfold same_dirs. simpl. rewrite world_set_limiter. exact Hm.
Qed.

Lemma same_dirs_post svc model :
  preserves same_dirs (requests_post svc model).
Proof.
  intros st. unfold same_dirs, requests_post, post.
  destruct (net (world st)) as [|[|r] rest]; reflexivity.
Qed.

Lemma same_dirs_sleep d : preserves same_dirs (time_sleep d).
Proof. intros st. reflexivity. Qed.

Lemma same_dirs_update f : preserves same_dirs (update_stats f).
Proof. intros st. reflexivity. Qed.

Local Ltac dirs_bind :=
  apply preserves_bind; [exact same_dirs_trans | | intros ?].

Local Ltac dirs_leaf :=
  first [ apply preserves_ret | apply preserves_raise | apply preserves_get
        | apply preserves_raise_for_status | apply preserves_response_json
        | apply preserves_subscript | apply preserves_validate_fields
        | apply preserves_number | apply preserves_usage_object ];
  try exact same_dirs_refl.

Lemma same_dirs_send svc model : preserves same_dirs (send svc model).
Proof.
  unfold send.
  dirs_bind; [apply same_dirs_acquire|].
  dirs_bind; [apply same_dirs_post|].
  dirs_bind; [|dirs_bind; dirs_leaf].
  apply preserves_if; [|dirs_leaf].
  dirs_bind.
  - dirs_bind; [dirs_leaf | apply same_dirs_sleep].
  - dirs_bind; [apply same_dirs_acquire | apply same_dirs_post].
Qed.

Lemma same_dirs_make_api_call model_type :
  preserves same_dirs (make_api_call model_type).
Proof.
  intros st. rewrite make_api_call_send. revert st.
  change (preserves same_dirs
            (update_stats (fun u => u) ;;
             let* response := send Chat (model_of model_type) in
             let* result := response_json response in
             update_stats (track_call (model_of model_type)) ;;
             (match usage result with
              | Some v => record_usage (model_of model_type) v
              | None => ret tt
              end) ;;
             ret result)).
  dirs_bind; [apply same_dirs_update|].
  dirs_bind; [apply same_dirs_send|].
  dirs_bind; [dirs_leaf|].
  dirs_bind; [apply same_dirs_update|].
  dirs_bind; [|dirs_leaf].
  match goal with
  | |- context [usage ?j] => destruct (usage j)
  end; [|dirs_leaf].
  apply (preserves_record_usage _ same_dirs_refl same_dirs_trans).
  apply same_dirs_update.
Qed.

Lemma same_dirs_analyze char_name :
  preserves same_dirs (analyze_character_name_with_ai char_name).
Proof.
  unfold analyze_character_name_with_ai.
  dirs_bind; [dirs_leaf|].
  match goal with
  | |- context [name_analysis_cache ?s !! ?k] =>
      destruct (name_analysis_cache s !! k)
  end; [dirs_leaf|].
  apply preserves_try; [exact same_dirs_trans | | intros e; dirs_leaf].
  dirs_bind; [apply same_dirs_make_api_call|].
  match goal with
  | |- context [choices ?j] => destruct (choices j) as [[|choice l]|]
  end; try dirs_leaf.
  repeat first [dirs_leaf | dirs_bind].
  match goal with
  | |- context [content_json ?m] => destruct (content_json m)
  end; repeat first [dirs_leaf | dirs_bind].
  all: try (apply preserves_modify; intros st; reflexivity).
Qed.

Lemma same_dirs_map char_name :
  preserves same_dirs (map_character_name_to_voice char_name).
Proof.
  intros st.
  destruct (name_voice_cache st !! char_name) as [c|] eqn:E.
  { rewrite (map_hit _ _ _ E). apply same_dirs_refl. }
  rewrite (map_miss _ _ E).
  destruct (analysis_value_of char_name st); apply same_dirs_analyze.
Qed.

Lemma castable_kept_refl st : castable_kept st st.
Proof. by intros H. Qed.

Lemma castable_kept_trans a b c :
  castable_kept a b -> castable_kept b c -> castable_kept a c.
Proof. unfold castable_kept. auto. Qed.

Lemma castable_kept_map char_name :
  preserves castable_kept (map_character_name_to_voice char_name).
Proof.
  intros st Hc.
  destruct (name_voice_cache st !! char_name) as [c|] eqn:E.
  { by rewrite (map_hit _ _ _ E). }
  pose proof (analyze_voices char_name st) as (Hcache & _).
  rewrite (map_miss _ _ E).
  destruct (analysis_value_of char_name st); simpl.
  - intros k c Hk. simpl in Hk.
    apply lookup_insert_Some in Hk as [[_ <-]|[_ Hk]];
      [|exact (Hc _ _ Hk)].
    by repeat split.
  - intros k c. rewrite Hcache. apply Hc.
Qed.

(** One line of the story, for a relation that resolution keeps. *)
Lemma preserves_parse_line (R : State -> State -> Prop) acc line :
  (forall st, R st st) -> (forall a b c, R a b -> R b c -> R a c) ->
  (forall n, preserves R (map_character_name_to_voice n)) ->
  preserves R (parse_line acc line).
Proof.
  intros Hr Ht Hmap. unfold parse_line, narrator. cbv zeta.
  assert (forall (k : Character -> M State (list StorySegment)),
             (forall c, preserves R (k c)) ->
             preserves R
               (let* n := (let* s := get in
                           subscript "narrator" (characters s !! "narrator")) in
                k n)) as Hnar.
  { intros k Hk. apply preserves_bind; [exact Ht | | exact Hk].
    apply preserves_bind; [exact Ht | by apply preserves_get |].
    intros s. by apply preserves_subscript. }
  destruct (Py.is_empty (Py.strip line)); [by apply preserves_ret|].
  destruct (Py.contains_chr ":" (Py.strip line));
    [|apply Hnar; intros c; by apply preserves_ret].
  destruct (Py.split1 ":" (Py.strip line)) as [|p0 [|p1 [|p2 ps]]];
    try (apply Hnar; intros c; by apply preserves_ret).
  apply preserves_bind; [exact Ht | apply Hmap |].
  intros c. by apply preserves_ret.
Qed.

Lemma preserves_parse (R : State -> State -> Prop) story :
  (forall st, R st st) -> (forall a b c, R a b -> R b c -> R a c) ->
  (forall st segs, R st (set_story_segments segs st)) ->
  (forall n, preserves R (map_character_name_to_voice n)) ->
  preserves R (parse_story_into_segments story).
Proof.
  intros Hr Ht Hset Hmap. unfold parse_story_into_segments. cbv zeta.
  apply preserves_bind; [exact Ht | |].
  - apply preserves_for_each; [exact Hr | exact Ht |].
    intros acc line. by apply preserves_parse_line.
  - intros segs. apply preserves_bind; [exact Ht | |].
    + apply preserves_modify. intros st. apply Hset.
    + intros _. by apply preserves_ret.
Qed.

(** Parsing any text and then synthesising it, on an orchestrator that
    is ready, whose classifier sends nothing but dictionaries as
    analyses, whose narrator and cached profiles have voice settings
    that convert to integer percentages, and with an output directory
    that has a name and is there or can be created: neither call
    raises, the synthesis returns at most one file per non-blank line
    and makes at least one request and at most two per non-blank
    line. *)
Theorem parse_then_synthesize story output_dir st :
  ready st -> classifier_plain st ->
  cache_castable st -> narrator_castable st ->
  output_dir <> "" -> mkdirs_granted st ->
  let st1 := snd (parse_story_into_segments story st) in
  let run := generate_full_story_audio output_dir st1 in
  let n := length (nonblank_lines story) in
  exists segs audio_files,
    fst (parse_story_into_segments story st) = Ok segs
    /\ length segs = n
    /\ fst run = Ok audio_files
    /\ (length audio_files <= n)%nat
    /\ (n <= attempts st1 (snd run) <= 2 * n)%nat.
Proof.
  intros Hready Hplain Hcache Hnarc Hne Hgr st1 run n.
  pose proof (ready_parse story st Hready) as (_ & Htts & _ & _ & _).
  fold st1 in Htts.
  destruct Hready as (_ & _ & [nar Hnar] & Hnamed & _).
  destruct (parse_plain_spec story st nar Hnamed Hnar Hplain)
    as (segs & Hsegs & Hstored & Hviews & Hvoiced).
  fold st1 in Hstored, Hvoiced.
  assert (length segs = n) as Hlen.
  { subst n. rewrite <- (length_map segment_view segs), Hviews.
    apply length_map. }
  assert (same_dirs st st1) as Hdirs.
  { apply (preserves_parse same_dirs story same_dirs_refl same_dirs_trans);
      [by intros ? ? | apply same_dirs_map]. }
  assert (cache_castable st1) as Hcache1.
  { apply (preserves_parse castable_kept story castable_kept_refl
             castable_kept_trans); [by intros ? ? ? | apply castable_kept_map
                                   | exact Hcache]. }
  assert (Forall castable_segment (story_segments st1)) as Hcast.
  { rewrite Hstored. eapply List.Forall_impl; [|exact Hvoiced].
    intros seg (c & Hc & Hwho). unfold castable_segment. rewrite Hc.
    destruct Hwho as [->|Hin]; [by apply Hnarc | by eapply Hcache1]. }
  assert (mkdirs_granted st1) as Hgr1
    by (unfold mkdirs_granted; rewrite Hdirs; exact Hgr).
  destruct (audio_loop_spec output_dir (length (story_segments st1)) 0 []
              st1 Htts Hcast Hne Hgr1 ltac:(lia))
    as (added & st' & new & written & Hrun & _ & _ & Hle & _ & _ & He & Hp
        & _).
  assert (generate_full_story_audio output_dir st1
          = for_each (audio_loop_body output_dir) []
              (seq 0 (length (story_segments st1))) st1) as Hfull
    by reflexivity.
  subst run. rewrite Hfull, Hrun. simpl.
  rewrite Hstored, Hlen in Hle, Hp.
  exists segs, added.
  split; [exact Hsegs|]. split; [exact Hlen|]. split; [reflexivity|].
  split; [exact Hle|].
  unfold attempts, new_events. rewrite He, drop_app_length. exact Hp.
Qed.

Lemma cache_castable_init w : cache_castable (init w).
Proof. intros k c. simpl. by rewrite lookup_empty. Qed.

Lemma narrator_castable_init w : narrator_castable (init w).
Proof.
  intros nar. change (characters (init w)) with default_characters.
  intros H. vm_compute in H. injection H as <-. by repeat split.
Qed.

Lemma parse_then_synthesize_witness :
  let st := init (world_with [status_reply 500; status_reply 500]) in
  let story := "Kael: Go." in
  let st1 := snd (parse_story_into_segments story st) in
  let run := generate_full_story_audio "audio_output" st1 in
  let n := length (nonblank_lines story) in
  exists segs audio_files,
    fst (parse_story_into_segments story st) = Ok segs
    /\ length segs = n
    /\ fst run = Ok audio_files
    /\ (length audio_files <= n)%nat
    /\ (n <= attempts st1 (snd run) <= 2 * n)%nat.
Proof.
  apply (parse_then_synthesize "Kael: Go." "audio_output"
           (init (world_with [status_reply 500; status_reply 500]))).
  - apply ready_init.
  - split; [intros k v; simpl; by rewrite lookup_empty|].
    simpl. constructor; [|constructor; [|constructor]];
      intros j choice rest m v Hb Hc; injection Hb as <-; discriminate Hc.
  - apply cache_castable_init.
  - apply narrator_castable_init.
  - discriminate.
  - constructor.
Defined.

End Ready.

(** ** The story recovered from the reasoning text *)

Section Reasoning.

Lemma find_lower_bound p s : (-1 <= Py.find p s)%Z.
Proof.
  induction s as [|c r IH]; simpl.
  - destruct (Py.startswith p ""); lia.
  - destruct (Py.startswith p (String c r)); [lia|].
    destruct (Py.find p r <? 0)%Z; lia.
Qed.

(** [s[s.find(p):]] begins with [p] when [p] occurs. *)
Lemma find_startswith p s :
  (0 <= Py.find p s)%Z ->
  Py.startswith p (Py.drop (Z.to_nat (Py.find p s)) s) = true.
Proof.
  induction s as [|c r IH]; simpl.
  - destruct (Py.startswith p "") eqn:E; [intros _; exact E | lia].
  - destruct (Py.startswith p (String c r)) eqn:E; [intros _; exact E|].
    destruct (Py.find p r <? 0)%Z eqn:Eneg; [lia|].
    apply Z.ltb_ge in Eneg. intros _.
    rewrite Z2Nat.inj_add by lia. rewrite Nat.add_comm. simpl.
    by apply IH.
Qed.

Lemma startswith_rstrip p s :
  no_space p = true -> Py.startswith p s = true ->
  Py.startswith p (Py.rstrip s) = true.
Proof.
  revert s. induction p as [|a p' IH]; [done|].
  intros s Hp Hs. simpl in Hp. apply andb_true_iff in Hp as [Ha Hp'].
  destruct s as [|c r]; [done|]. simpl in Hs.
  apply andb_true_iff in Hs as [Hac Hrest].
  assert (a = c) as <-.
  { unfold Py.chr_eqb in Hac. by case_bool_decide. }
  apply negb_true_iff in Ha. simpl. rewrite Ha. simpl. rewrite Hac. simpl.
  by apply IH.
Qed.

Lemma startswith_lstrip p s :
  p <> "" -> no_space p = true -> Py.startswith p s = true ->
  Py.lstrip s = s.
Proof.
  destruct p as [|a p']; [done|]. intros _ Hp Hs.
  simpl in Hp. apply andb_true_iff in Hp as [Ha _].
  destruct s as [|c r]; [done|]. simpl in Hs.
  apply andb_true_iff in Hs as [Hac _].
  assert (a = c) as <-.
  { unfold Py.chr_eqb in Hac. by case_bool_decide. }
  apply negb_true_iff in Ha. simpl. by rewrite Ha.
Qed.

Lemma startswith_strip p s :
  p <> "" -> no_space p = true -> Py.startswith p s = true ->
  Py.startswith p (Py.strip s) = true.
Proof.
  intros Hne Hp Hs. unfold Py.strip.
  rewrite (startswith_lstrip p s Hne Hp Hs). by apply startswith_rstrip.
Qed.

Lemma startswith_not_blank p s :
  p <> "" -> Py.startswith p s = true -> Py.is_empty s = false.
Proof. destruct p, s; simpl; congruence. Qed.

Lemma Zmax_list_five a b c d e :
  Zmax_list [a; b; c; d; e] <> (-1)%Z ->
  (-1 <= a)%Z -> (-1 <= b)%Z -> (-1 <= c)%Z -> (-1 <= d)%Z -> (-1 <= e)%Z ->
  let m := Zmax_list [a; b; c; d; e] in
  (0 <= m)%Z /\ (m = a \/ m = b \/ m = c \/ m = d \/ m = e).
Proof.
  unfold Zmax_list. simpl. lia.
Qed.

Lemma contains_find p s : Py.contains p s = true -> (0 <= Py.find p s)%Z.
Proof.
  induction s as [|c r IH]; simpl.
  - destruct (Py.startswith p ""); [lia | done].
  - destruct (Py.startswith p (String c r)); [lia|]. simpl.
    intros H. specialize (IH H).
    destruct (Py.find p r <? 0)%Z eqn:E; [apply Z.ltb_lt in E; lia | lia].
Qed.

End Reasoning.

(** [generate_story], lines 572-603: whenever the reasoning text
    contains [NARRATOR:] or [HERO:] a story is recovered (the inner test
    [story_start != -1] cannot fail).  It is the stripped text from
    position [k] on, where [k] is the first occurrence of one of the
    five markers and no marker has its first occurrence later: the
    story begins with that marker, is not blank, and everything before
    the marker that appears last is lost. *)
Theorem recovered_story_starts_at_marker m reasoning :
  reasoning_content m = Some reasoning ->
  Py.contains "NARRATOR:" reasoning || Py.contains "HERO:" reasoning = true ->
  exists k mk,
    mk ∈ reasoning_markers
    /\ Py.find mk reasoning = k /\ (0 <= k)%Z
    /\ (forall mk', mk' ∈ reasoning_markers -> (Py.find mk' reasoning <= k)%Z)
    /\ story_from_reasoning m
       = Some (Py.strip (Py.drop (Z.to_nat k) reasoning))
    /\ Py.startswith mk (Py.strip (Py.drop (Z.to_nat k) reasoning)) = true
    /\ Py.is_empty (Py.strip (Py.drop (Z.to_nat k) reasoning)) = false.
Proof.
  intros Hr Hc. unfold story_from_reasoning. rewrite Hr, Hc. cbv zeta.
  set (a := Py.find "NARRATOR:" reasoning).
  set (b := Py.find "HERO:" reasoning).
  set (c := Py.find "VILLAIN:" reasoning).
  set (d := Py.find "FRIEND:" reasoning).
  set (e := Py.find "WIZARD:" reasoning).
  pose proof (find_lower_bound "NARRATOR:" reasoning) as Ha.
  pose proof (find_lower_bound "HERO:" reasoning) as Hb.
  pose proof (find_lower_bound "VILLAIN:" reasoning) as Hc'.
  pose proof (find_lower_bound "FRIEND:" reasoning) as Hd.
  pose proof (find_lower_bound "WIZARD:" reasoning) as He.
  fold a in Ha. fold b in Hb. fold c in Hc'. fold d in Hd. fold e in He.
  assert (0 <= a \/ 0 <= b)%Z as Hab.
  { apply orb_true_iff in Hc as [H|H]; [left|right];
      by apply contains_find. }
  set (k := Zmax_list [a; b; c; d; e]).
  assert (k = Z.max a (Z.max b (Z.max c (Z.max d (Z.max e (-1))))))%Z
    as Hk by reflexivity.
  assert (0 <= k)%Z as Hk0 by lia.
  assert (k = a \/ k = b \/ k = c \/ k = d \/ k = e) as Hsel by lia.
  assert ((k =? -1)%Z = false) as -> by (apply Z.eqb_neq; lia).
  assert (exists mk, mk ∈ reasoning_markers /\ Py.find mk reasoning = k
                     /\ mk <> "" /\ no_space mk = true)
    as (mk & Hin & Hfind & Hne & Hns).
  { unfold reasoning_markers.
    destruct Hsel as [H|[H|[H|[H|H]]]];
      [exists "NARRATOR:" | exists "HERO:" | exists "VILLAIN:"
       | exists "FRIEND:" | exists "WIZARD:"];
      (split; [repeat constructor
              | split; [symmetry; exact H
                       | split; [discriminate | reflexivity]]]). }
  assert (Py.startswith mk (Py.strip (Py.drop (Z.to_nat k) reasoning)) = true)
    as Hstart.
  { apply startswith_strip; [exact Hne | exact Hns |].
    rewrite <- Hfind. apply find_startswith. by rewrite Hfind. }
  exists k, mk. split; [exact Hin|]. split; [exact Hfind|].
  split; [exact Hk0|]. split.
  - intros mk' Hin'. unfold reasoning_markers in Hin'.
    apply elem_of_cons in Hin' as [->|Hin']; [fold a; lia|].
    apply elem_of_cons in Hin' as [->|Hin']; [fold b; lia|].
    apply elem_of_cons in Hin' as [->|Hin']; [fold c; lia|].
    apply elem_of_cons in Hin' as [->|Hin']; [fold d; lia|].
    apply elem_of_cons in Hin' as [->|Hin']; [fold e; lia|].
    by apply elem_of_nil in Hin'.
  - split; [reflexivity|]. split; [exact Hstart|].
    by apply (startswith_not_blank mk).
Qed.

Lemma recovered_story_starts_at_marker_witness :
  exists k mk,
    mk ∈ reasoning_markers
    /\ Py.find mk "Plan. NARRATOR: Dawn. HERO: Go! " = k /\ (0 <= k)%Z
    /\ (forall mk', mk' ∈ reasoning_markers ->
        (Py.find mk' "Plan. NARRATOR: Dawn. HERO: Go! " <= k)%Z)
    /\ story_from_reasoning
         (mkMessage (Some "") None (Some "Plan. NARRATOR: Dawn. HERO: Go! "))
       = Some (Py.strip (Py.drop (Z.to_nat k) "Plan. NARRATOR: Dawn. HERO: Go! "))
    /\ Py.startswith mk
         (Py.strip (Py.drop (Z.to_nat k) "Plan. NARRATOR: Dawn. HERO: Go! "))
       = true
    /\ Py.is_empty
         (Py.strip (Py.drop (Z.to_nat k) "Plan. NARRATOR: Dawn. HERO: Go! "))
       = false.
Proof.
  apply (recovered_story_starts_at_marker
           (mkMessage (Some "") None (Some "Plan. NARRATOR: Dawn. HERO: Go! "))
           "Plan. NARRATOR: Dawn. HERO: Go! ").
  - reflexivity.
  - reflexivity.
Defined.

(** The narrator's opening line is lost when a hero line follows it. *)
Example reasoning_drops_earlier_speaker :
  story_from_reasoning
    (mkMessage (Some "") None (Some "Plan. NARRATOR: Dawn. HERO: Go! "))
  = Some "HERO: Go!".
Proof. reflexivity. Qed.

(** ** Registered characters and the parser *)

Section Oblivious.

Variable g : gmap string Character -> gmap string Character.

Lemma oblivious_ret {A} (a : A) : oblivious g (ret a).
Proof. by intros st. Qed.

Lemma oblivious_raise {A} e : oblivious g (@raise State A e).
Proof. by intros st. Qed.

Lemma oblivious_bind {A B} (m : M State A) (k : A -> M State B) :
  oblivious g m -> (forall a, oblivious g (k a)) -> oblivious g (bind m k).
Proof.
  intros Hm Hk st. unfold bind. rewrite (Hm st).
  destruct (m st) as [[a|e] st']; simpl; [apply Hk | reflexivity].
Qed.

Lemma oblivious_try {A} (m : M State A) h :
  oblivious g m -> (forall e, oblivious g (h e)) ->
  oblivious g (try_except m h).
Proof.
  intros Hm Hh st. unfold try_except. rewrite (Hm st).
  destruct (m st) as [[a|e] st']; simpl; [reflexivity | apply Hh].
Qed.

(** Reading the state is harmless when the continuation only looks at
    what [g] leaves alone. *)
Lemma oblivious_get_bind {A} (k : State -> M State A) :
  (forall st, k (reshelve g st) = k st) ->
  (forall s, oblivious g (k s)) -> oblivious g (bind get k).
Proof.
  intros Hsame Hk st. unfold bind, get. rewrite Hsame. apply Hk.
Qed.

Lemma oblivious_modify (f : State -> State) :
  (forall st, f (reshelve g st) = reshelve g (f st)) ->
  oblivious g (modify f).
Proof. intros Hf st. unfold modify. simpl. by rewrite Hf. Qed.

Lemma oblivious_subscript {A} key (o : option A) :
  oblivious g (subscript key o).
Proof. destruct o; [apply oblivious_ret | apply oblivious_raise]. Qed.

Lemma oblivious_acquire svc : oblivious g (acquire svc).
Proof.
  intros st. unfold acquire.
  replace (limiter svc (reshelve g st)) with (limiter svc st)
    by (by destruct svc).
  replace (world (reshelve g st)) with (world st) by reflexivity.
  destruct (RateLimiter.wait_if_needed (limiter svc st, world st))
    as [res [r w]].
  simpl. by destruct svc.
Qed.

Lemma oblivious_time_sleep d : oblivious g (time_sleep d).
Proof. by apply oblivious_modify. Qed.

Lemma oblivious_requests_post svc model :
  oblivious g (requests_post svc model).
Proof.
  intros st. unfold requests_post.
  replace (world (reshelve g st)) with (world st) by reflexivity.
  by destruct (post svc model (world st)) as [[|r] w].
Qed.

Lemma oblivious_raise_for_status r : oblivious g (raise_for_status r).
Proof.
  unfold raise_for_status.
  destruct (_ && _); [apply oblivious_raise | apply oblivious_ret].
Qed.

Lemma oblivious_response_json r : oblivious g (response_json r).
Proof.
  unfold response_json.
  destruct (body r); [apply oblivious_ret | apply oblivious_raise].
Qed.

Lemma oblivious_update_stats f : oblivious g (update_stats f).
Proof. by apply oblivious_modify. Qed.

Lemma oblivious_number c : oblivious g (number c).
Proof. destruct c; [apply oblivious_ret | apply oblivious_raise]. Qed.

Lemma oblivious_usage_object v : oblivious g (usage_object v).
Proof. destruct v; [apply oblivious_ret | apply oblivious_raise]. Qed.

Lemma oblivious_record_usage model v : oblivious g (record_usage model v).
Proof.
  unfold record_usage.
  apply oblivious_bind; [apply oblivious_usage_object | intros u].
  cbv zeta.
  apply oblivious_bind; [apply oblivious_number | intros total].
  apply oblivious_bind; [apply oblivious_update_stats | intros _].
  apply oblivious_bind; [|intros cost; apply oblivious_update_stats].
  destruct (priced_by_tokens model); [|apply oblivious_ret].
  apply oblivious_bind; [apply oblivious_number | intros prompt].
  apply oblivious_bind; [apply oblivious_number | intros completion].
  apply oblivious_ret.
Qed.

Lemma oblivious_validate_fields v : oblivious g (validate_fields v).
Proof.
  destruct v; simpl;
    repeat match goal with
           | |- context [if ?b then _ else _] => destruct b
           end; first [apply oblivious_ret | apply oblivious_raise].
Qed.

Lemma oblivious_make_api_call model_type :
  oblivious g (make_api_call model_type).
Proof.
  unfold make_api_call. cbv zeta.
  apply oblivious_bind; [apply oblivious_update_stats | intros _].
  apply oblivious_bind; [apply oblivious_acquire | intros _].
  apply oblivious_bind; [apply oblivious_requests_post | intros response].
  apply oblivious_bind.
  { destruct (status_code response =? 429)%Z; [|apply oblivious_ret].
    apply oblivious_bind.
    - apply oblivious_get_bind; [reflexivity | intros s].
      apply oblivious_time_sleep.
    - intros _. apply oblivious_bind; [apply oblivious_acquire | intros _].
      apply oblivious_requests_post. }
  intros response'.
  apply oblivious_bind; [apply oblivious_raise_for_status | intros _].
  apply oblivious_bind; [apply oblivious_response_json | intros result].
  apply oblivious_bind; [apply oblivious_update_stats | intros _].
  apply oblivious_bind; [|intros _; apply oblivious_ret].
  destruct (usage result); [apply oblivious_record_usage | apply oblivious_ret].
Qed.

Lemma oblivious_analyze char_name :
  oblivious g (analyze_character_name_with_ai char_name).
Proof.
  unfold analyze_character_name_with_ai.
  apply oblivious_get_bind; [reflexivity | intros s].
  destruct (name_analysis_cache s !! Py.lower char_name);
    [apply oblivious_ret|].
  apply oblivious_try; [|intros e; apply oblivious_ret].
  apply oblivious_bind; [apply oblivious_make_api_call | intros result].
  destruct (choices result) as [[|choice ?]|]; try apply oblivious_ret.
  apply oblivious_bind; [apply oblivious_subscript | intros message].
  apply oblivious_bind; [apply oblivious_subscript | intros _].
  destruct (content_json message); [|apply oblivious_ret].
  apply oblivious_bind; [apply oblivious_validate_fields | intros analysis].
  apply oblivious_bind; [by apply oblivious_modify | intros _].
  apply oblivious_ret.
Qed.

(** The resolver never looks at [self.characters]. *)
Lemma oblivious_map char_name :
  oblivious g (map_character_name_to_voice char_name).
Proof.
  unfold map_character_name_to_voice.
  apply oblivious_get_bind; [reflexivity | intros s].
  destruct (name_voice_cache s !! char_name); [apply oblivious_ret|].
  apply oblivious_bind; [apply oblivious_analyze | intros value].
  apply oblivious_bind;
    [destruct value; [apply oblivious_ret | apply oblivious_raise]
    | intros analysis].
  cbv zeta.
  apply oblivious_get_bind; [reflexivity | intros s'].
  apply oblivious_bind; [by apply oblivious_modify | intros _].
  apply oblivious_bind; [by apply oblivious_modify | intros _].
  apply oblivious_ret.
Qed.

Hypothesis narrator_kept :
  forall m, g m !! "narrator" = m !! "narrator".

Lemma oblivious_narrator : oblivious g narrator.
Proof.
  unfold narrator. apply oblivious_get_bind.
  - intros st. unfold reshelve. simpl. by rewrite narrator_kept.
  - intros s. apply oblivious_subscript.
Qed.

Lemma oblivious_parse_line segments line :
  oblivious g (parse_line segments line).
Proof.
  unfold parse_line. cbv zeta.
  destruct (Py.is_empty _); [apply oblivious_ret|].
  assert (oblivious g
            (let* n := narrator in
             ret (segments ++ [mkStorySegment (Some n) (Py.strip line) None])%list))
    as Hnar.
  { apply oblivious_bind; [apply oblivious_narrator | intros n].
    apply oblivious_ret. }
  destruct (Py.contains_chr _ _); [|exact Hnar].
  destruct (Py.split1 _ _) as [|part0 [|part1 [|? ?]]]; try exact Hnar.
  apply oblivious_bind; [apply oblivious_map | intros c].
  apply oblivious_ret.
Qed.

Lemma oblivious_for_each {A B} (f : B -> A -> M State B) l :
  (forall acc x, oblivious g (f acc x)) ->
  forall acc, oblivious g (for_each f acc l).
Proof.
  intros Hf. induction l as [|x r IH]; intros acc; simpl.
  - apply oblivious_ret.
  - apply oblivious_bind; [apply Hf | intros acc'; apply IH].
Qed.

Lemma oblivious_parse story :
  oblivious g (parse_story_into_segments story).
Proof.
  unfold parse_story_into_segments. cbv zeta.
  apply oblivious_bind.
  - apply oblivious_for_each. apply oblivious_parse_line.
  - intros segments.
    apply oblivious_bind; [by apply oblivious_modify | intros _].
    apply oblivious_ret.
Qed.

End Oblivious.

(** [add_character] and [parse_story_into_segments]: registering a
    character under any key but ["narrator"] has no effect on parsing.
    The segments (speakers, voices, texts) are those the unregistered
    orchestrator yields, and the final state is the one reached by
    registering after the parse: a labelled line is voiced by the
    resolver and never by the registered profile of that name. *)
Theorem registered_characters_do_not_voice_lines c story st :
  Py.lower (name c) <> "narrator" ->
  fst (parse_story_into_segments story (snd (add_character c st)))
  = fst (parse_story_into_segments story st)
  /\ snd (parse_story_into_segments story (snd (add_character c st)))
     = snd (add_character c (snd (parse_story_into_segments story st))).
Proof.
  intros Hc.
  pose proof (oblivious_parse (insert (Py.lower (name c)) c)
                (fun m => lookup_insert_ne m _ _ c Hc) story st) as H.
  unfold add_character, modify. simpl.
  change (set_characters (<[Py.lower (name c):=c]> (characters st)) st)
    with (reshelve (insert (Py.lower (name c)) c) st).
  rewrite H. simpl. split; reflexivity.
Qed.

Lemma registered_characters_do_not_voice_lines_witness :
  let c := mkCharacter "Kael" "a ranger" "English_Debator" 1.0 1.0 0.0 "brave" in
  let st := init (quiet_world 0) in
  fst (parse_story_into_segments "Kael: Go." (snd (add_character c st)))
  = fst (parse_story_into_segments "Kael: Go." st)
  /\ snd (parse_story_into_segments "Kael: Go." (snd (add_character c st)))
     = snd (add_character c (snd (parse_story_into_segments "Kael: Go." st))).
Proof.
  apply (registered_characters_do_not_voice_lines
           (mkCharacter "Kael" "a ranger" "English_Debator" 1.0 1.0 0.0 "brave")
           "Kael: Go." (init (quiet_world 0))).
  simpl. discriminate.
Defined.

(** [add_character] with a name that lowercases to ["narrator"]
    replaces the narrator: on an orchestrator whose cache is filed by
    name, a parse that returns attributes every colon-free line to the
    new character and yields one segment per non-blank line.  A parse
    that does not return has met an analysis that is not a dictionary;
    with a plain classifier it returns. *)
Theorem registered_narrator_narrates c story st :
  cache_named st -> Py.lower (name c) = "narrator" ->
  let run := parse_story_into_segments story (snd (add_character c st)) in
  match fst run with
  | Ok segs =>
      map segment_view segs
      = map (expected_view (name c)) (nonblank_lines story)
  | Raise e => e = AttributeError "get"
  end
  /\ (classifier_plain st -> exists segs, fst run = Ok segs).
Proof.
  intros Hn Hc run. subst run. unfold add_character, modify. simpl.
  rewrite Hc. set (st1 := set_characters _ st).
  assert (cache_named st1) as Hn1 by exact Hn.
  assert (characters st1 !! "narrator" = Some c) as Hnar
    by apply lookup_insert_eq.
  unfold parse_story_into_segments. cbv zeta.
  pose proof (parse_lines_spec (Py.split newline story) [] st1 c Hn1 Hnar)
    as (_ & _ & _ & Hres).
  pose proof (parse_lines_plain (Py.split newline story) [] st1 c Hn1 Hnar)
    as Hplain.
  destruct (for_each parse_line [] (Py.split newline story) st1)
    as [[segs|e] st'] eqn:Hrun; cbn [fst snd] in Hres, Hplain.
  - rewrite (bind_ok _ _ _ _ _ Hrun). simpl.
    destruct Hres as (new & -> & Hviews & _). split; [exact Hviews|].
    intros _. by eexists.
  - rewrite (bind_raise _ _ _ _ _ Hrun). simpl. split; [exact Hres|].
    intros Hp. destruct (Hplain Hp) as [segs Hsegs]. discriminate.
Qed.

Lemma registered_narrator_narrates_witness :
  let run :=
    parse_story_into_segments "Night fell."
      (snd (add_character
              (mkCharacter "NARRATOR" "a bard" "English_WiseScholar"
                 1.0 1.0 0.0 "calm")
              (init (quiet_world 0)))) in
  match fst run with
  | Ok segs =>
      map segment_view segs
      = map (expected_view "NARRATOR") (nonblank_lines "Night fell.")
  | Raise e => e = AttributeError "get"
  end
  /\ (classifier_plain (init (quiet_world 0)) ->
      exists segs, fst run = Ok segs).
Proof.
  apply (registered_narrator_narrates
           (mkCharacter "NARRATOR" "a bard" "English_WiseScholar"
              1.0 1.0 0.0 "calm")
           "Night fell." (init (quiet_world 0))).
  - apply cache_named_init.
  - reflexivity.
Defined.
